(** * CubeASCII: the ray caster and the player movement of [cubeascii.c]

    The C program keeps a player (position, direction, camera plane) on a
    16 x 16 character map, casts one ray per screen column with a DDA grid
    traversal, turns the distance of the wall that was hit into a vertical
    slice and a shade, and moves the player on key presses.

    The embedding follows the C text function by function.

    - [int] values are integers of [Z]; where C gives an operation no meaning
      (a conversion of a float that does not fit [int], the negation of
      [INT_MIN], a read outside an array) the model returns [Undefined].
    - [float] and [double] values are elements of a type [F] with the
      operations the program uses (class [FloatOps]).  The functions are
      written once, for every such [F]; the statements that do not depend on
      how numbers round are proved for every [F].  Statements that depend
      on rounding are proved for every [F] under the standard model of
      rounding (a relative and an absolute error on each operation).  One
      instance is given, the rationals: exact arithmetic that computes, used
      where the values at hand are exact in binary32 as well or where the
      statement does not depend on the last digits.
    - the global [map] is an explicit argument [grid] of the functions that
      read it, so that statements can range over grids.
    - the [while (!ray->hit)] loop takes a step budget. *)

From Stdlib Require Import ZArith QArith Qabs Qround Reals Qreals Lqa Lra Lia
  List String Ascii Bool.
Import ListNotations.

Close Scope R_scope.
Close Scope Q_scope.
Local Open Scope Z_scope.

(** ** Results of running C code *)

Inductive result (A : Type) : Type :=
| Ok (a : A)      (* the call returns [a] *)
| Undefined       (* C gives the execution no meaning *)
| OutOfFuel.      (* the step budget of the model ran out *)

Arguments Ok {A} a.
Arguments Undefined {A}.
Arguments OutOfFuel {A}.

Definition bind {A B : Type} (r : result A) (k : A -> result B) : result B :=
  match r with
  | Ok a => k a
  | Undefined => Undefined
  | OutOfFuel => OutOfFuel
  end.

Notation "v <- r ;; k" := (bind r (fun v => k))
  (at level 61, r at next level, right associativity).

Definition of_option {A : Type} (o : option A) : result A :=
  match o with
  | Some a => Ok a
  | None => Undefined
  end.

(** ** Configuration *)

Definition MAP_WIDTH : Z := 16.
Definition MAP_HEIGHT : Z := 16.
Definition SCREEN_WIDTH : Z := 90.
Definition SCREEN_HEIGHT : Z := 50.

Definition INT_MIN : Z := - 2 ^ 31.
Definition INT_MAX : Z := 2 ^ 31 - 1.

Definition ESC : ascii := "027"%char.
Definition NUL : ascii := "000"%char.

Definition RED_1 : string := String ESC "[48;2;255;50;50m".
Definition RED_2 : string := String ESC "[48;2;200;30;30m".
Definition RED_3 : string := String ESC "[48;2;150;20;20m".
Definition RED_4 : string := String ESC "[48;2;100;10;10m".
Definition RED_5 : string := String ESC "[48;2;60;5;5m".

(** The scene.  [map[r]] is row [r], [map[r][c]] its column [c]. *)
Definition map : list string :=
  [ "1111111111111111";
    "1100000000000001";
    "1101010101010101";
    "1100000000000001";
    "1000000000001101";
    "1011110001111101";
    "1001100000111101";
    "1001000100100001";
    "1111000000100111";
    "1110111110001111";
    "1010001000001111";
    "1011100001111001";
    "1000011000000001";
    "1011001000000001";
    "100110000P000001";
    "1111111111111111" ]%string.

(** [grid[row][col]] as C reads it.  A row is a string literal, so the byte
    after its last character is the terminating NUL and may be read; the
    array of rows has no element after the last row. *)
Definition cell (grid : list string) (row col : Z) : result ascii :=
  if (row <? 0) || (col <? 0) then Undefined
  else
    match nth_error grid (Z.to_nat row) with
    | None => Undefined
    | Some line =>
        match String.get (Z.to_nat col) line with
        | Some c => Ok c
        | None =>
            if col =? Z.of_nat (String.length line) then Ok NUL else Undefined
        end
    end.

Definition is_wall (c : ascii) : bool := Ascii.eqb c "1".

(** ** Numbers *)

Class FloatOps (F : Type) : Type := {
  fadd : F -> F -> F;
  fsub : F -> F -> F;
  fmul : F -> F -> F;
  fdiv : F -> F -> option F;   (* [None]: the quotient is not a number of [F] *)
  fneg : F -> F;
  fabs : F -> F;
  flt : F -> F -> bool;        (* [a < b] *)
  feq : F -> F -> bool;        (* [a == b] *)
  of_int : Z -> F;             (* conversion of an [int] *)
  lit : Q -> F;                (* a decimal constant of the C text *)
  to_int : F -> option Z;      (* the cast [(int)a]; [None]: no meaning in C *)
  fcos : F -> F;
  fsin : F -> F
}.

Declare Scope float_scope.
Delimit Scope float_scope with fl.
Notation "a + b" := (fadd a b) : float_scope.
Notation "a - b" := (fsub a b) : float_scope.
Notation "a * b" := (fmul a b) : float_scope.
Notation "- a" := (fneg a) : float_scope.
Notation "a <? b" := (flt a b) : float_scope.
Notation "a =? b" := (feq a b) : float_scope.
Arguments lit {F _} q%_Q.

(** ** The structures of the program *)

Record t_player {F : Type} : Type := mk_player {
  x : F;
  y : F;
  dirX : F;
  dirY : F;
  planeX : F;
  planeY : F
}.
Arguments t_player F : clear implicits.
Arguments mk_player {F}.

Record t_ray {F : Type} : Type := mk_ray {
  cameraX : F;
  rayDirX : F;
  rayDirY : F;
  mapX : Z;
  mapY : Z;
  deltaDistX : F;
  deltaDistY : F;
  sideDistX : F;
  sideDistY : F;
  stepX : Z;
  stepY : Z;
  hit : Z;
  side : Z;
  perpWallDist : F
}.
Arguments t_ray F : clear implicits.
Arguments mk_ray {F}.

(** What [compute_wall_slice] stores for one column in the three global
    buffers [draw_start], [draw_end] and [wallColor]. *)
Record t_column : Type := mk_column {
  draw_start : Z;
  draw_end : Z;
  wallColor : string
}.

(** ** The functions of the program *)

Section Program.

Context {F : Type} {ops : FloatOps F}.
Local Open Scope float_scope.

(** [get_shade]: the shade of a wall at distance [dist]. *)
Definition get_shade (dist : F) : string :=
  if dist <? lit 1.5 then RED_1
  else if dist <? lit 3.0 then RED_2
  else if dist <? lit 5.0 then RED_3
  else if dist <? lit 7.0 then RED_4
  else RED_5.

(** [fabs(1 / d)] when [d != 0], the constant [1e30] otherwise. *)
Definition delta_dist (d : F) : result F :=
  if negb (d =? of_int 0) then
    q <- of_option (fdiv (of_int 1) d) ;;
    Ok (fabs q)
  else Ok (lit 1e30).

(** [init_ray].  The C function writes through [ray]; the fields it does not
    assign keep what the caller's structure held. *)
Definition init_ray (ray : t_ray F) (column : Z) (player : t_player F)
  : result (t_ray F) :=
  q <- of_option (fdiv (of_int (2 * column)%Z) (of_int SCREEN_WIDTH)) ;;
  let cameraX' := q - of_int 1 in
  let rayDirX' := dirX player + planeX player * cameraX' in
  let rayDirY' := dirY player + planeY player * cameraX' in
  mapX' <- of_option (to_int (x player)) ;;
  mapY' <- of_option (to_int (y player)) ;;
  deltaDistX' <- delta_dist rayDirX' ;;
  deltaDistY' <- delta_dist rayDirY' ;;
  Ok {| cameraX := cameraX';
        rayDirX := rayDirX';
        rayDirY := rayDirY';
        mapX := mapX';
        mapY := mapY';
        deltaDistX := deltaDistX';
        deltaDistY := deltaDistY';
        sideDistX := sideDistX ray;
        sideDistY := sideDistY ray;
        stepX := stepX ray;
        stepY := stepY ray;
        hit := 0;
        side := side ray;
        perpWallDist := perpWallDist ray |}.

(** [compute_initial_steps]. *)
Definition compute_initial_steps (ray : t_ray F) (player : t_player F)
  : t_ray F :=
  let '(stepX', sideDistX') :=
    if rayDirX ray <? of_int 0
    then (-1, (x player - of_int (mapX ray)) * deltaDistX ray)
    else (1, (of_int (mapX ray) + lit 1.0 - x player) * deltaDistX ray) in
  let '(stepY', sideDistY') :=
    if rayDirY ray <? of_int 0
    then (-1, (y player - of_int (mapY ray)) * deltaDistY ray)
    else (1, (of_int (mapY ray) + lit 1.0 - y player) * deltaDistY ray) in
  {| cameraX := cameraX ray;
     rayDirX := rayDirX ray;
     rayDirY := rayDirY ray;
     mapX := mapX ray;
     mapY := mapY ray;
     deltaDistX := deltaDistX ray;
     deltaDistY := deltaDistY ray;
     sideDistX := sideDistX';
     sideDistY := sideDistY';
     stepX := stepX';
     stepY := stepY';
     hit := hit ray;
     side := side ray;
     perpWallDist := perpWallDist ray |}.

(** One pass through the body of the [while] loop of [perform_dda]: the step
    along one axis, then the test of the cell that was reached. *)
Definition dda_advance (ray : t_ray F) : t_ray F :=
  if sideDistX ray <? sideDistY ray then
    {| cameraX := cameraX ray;
       rayDirX := rayDirX ray;
       rayDirY := rayDirY ray;
       mapX := (mapX ray + stepX ray)%Z;
       mapY := mapY ray;
       deltaDistX := deltaDistX ray;
       deltaDistY := deltaDistY ray;
       sideDistX := sideDistX ray + deltaDistX ray;
       sideDistY := sideDistY ray;
       stepX := stepX ray;
       stepY := stepY ray;
       hit := hit ray;
       side := 0;
       perpWallDist := perpWallDist ray |}
  else
    {| cameraX := cameraX ray;
       rayDirX := rayDirX ray;
       rayDirY := rayDirY ray;
       mapX := mapX ray;
       mapY := (mapY ray + stepY ray)%Z;
       deltaDistX := deltaDistX ray;
       deltaDistY := deltaDistY ray;
       sideDistX := sideDistX ray;
       sideDistY := sideDistY ray + deltaDistY ray;
       stepX := stepX ray;
       stepY := stepY ray;
       hit := hit ray;
       side := 1;
       perpWallDist := perpWallDist ray |}.

Definition set_hit (ray : t_ray F) (h : Z) : t_ray F :=
  {| cameraX := cameraX ray;
     rayDirX := rayDirX ray;
     rayDirY := rayDirY ray;
     mapX := mapX ray;
     mapY := mapY ray;
     deltaDistX := deltaDistX ray;
     deltaDistY := deltaDistY ray;
     sideDistX := sideDistX ray;
     sideDistY := sideDistY ray;
     stepX := stepX ray;
     stepY := stepY ray;
     hit := h;
     side := side ray;
     perpWallDist := perpWallDist ray |}.

Definition set_perpWallDist (ray : t_ray F) (d : F) : t_ray F :=
  {| cameraX := cameraX ray;
     rayDirX := rayDirX ray;
     rayDirY := rayDirY ray;
     mapX := mapX ray;
     mapY := mapY ray;
     deltaDistX := deltaDistX ray;
     deltaDistY := deltaDistY ray;
     sideDistX := sideDistX ray;
     sideDistY := sideDistY ray;
     stepX := stepX ray;
     stepY := stepY ray;
     hit := hit ray;
     side := side ray;
     perpWallDist := d |}.

Definition dda_step (grid : list string) (ray : t_ray F) : result (t_ray F) :=
  let ray' := dda_advance ray in
  c <- cell grid (mapY ray') (mapX ray') ;;
  Ok (if is_wall c then set_hit ray' 1 else ray').

(** The loop [while (!ray->hit)], cut after [fuel] passes. *)
Fixpoint dda_loop (grid : list string) (fuel : nat) (ray : t_ray F)
  : result (t_ray F) :=
  if (hit ray =? 0)%Z then
    match fuel with
    | O => OutOfFuel
    | S fuel' =>
        ray' <- dda_step grid ray ;;
        dda_loop grid fuel' ray'
    end
  else Ok ray.

(** [perform_dda]. *)
Definition perform_dda (grid : list string) (fuel : nat) (ray : t_ray F)
  : result (t_ray F) :=
  ray' <- dda_loop grid fuel ray ;;
  Ok (set_perpWallDist ray'
        (if (side ray' =? 0)%Z
         then sideDistX ray' - deltaDistX ray'
         else sideDistY ray' - deltaDistY ray')).

(** The two rows kept for a slice of height [lineHeight], before and after
    the two tests that keep them on the screen.  C's [/] on [int] truncates
    towards zero ([Z.quot]). *)
Definition slice_rows (lineHeight : Z) : Z * Z :=
  ((- lineHeight) ÷ 2 + SCREEN_HEIGHT ÷ 2, lineHeight ÷ 2 + SCREEN_HEIGHT ÷ 2)%Z.

Definition clip_rows (rows : Z * Z) : Z * Z :=
  let '(start, end_) := rows in
  (if (start <? 0)%Z then 0%Z else start,
   if (end_ >=? SCREEN_HEIGHT)%Z then (SCREEN_HEIGHT - 1)%Z else end_).

(** [compute_wall_slice]: the values stored at index [x] of [draw_start],
    [draw_end] and [wallColor]; [render] supplies every [x] of the buffers
    once. *)
Definition compute_wall_slice (ray : t_ray F) : result t_column :=
  q <- of_option (fdiv (of_int SCREEN_HEIGHT) (perpWallDist ray)) ;;
  lineHeight <- of_option (to_int q) ;;
  if (lineHeight =? INT_MIN)%Z then Undefined   (* [-lineHeight] overflows *)
  else
    let '(start, end_) := clip_rows (slice_rows lineHeight) in
    Ok {| draw_start := start;
          draw_end := end_;
          wallColor := get_shade (perpWallDist ray) |}.

(** The first three calls of the body of the loop of [render]: the ray of
    column [column], cast. *)
Definition cast_ray (grid : list string) (fuel : nat) (ray : t_ray F)
    (column : Z) (player : t_player F) : result (t_ray F) :=
  ray1 <- init_ray ray column player ;;
  let ray2 := compute_initial_steps ray1 player in
  perform_dda grid fuel ray2.

(** The work of [render] for column [column]. *)
Definition cast_column (grid : list string) (fuel : nat) (ray : t_ray F)
    (column : Z) (player : t_player F) : result (t_ray F * t_column) :=
  ray3 <- cast_ray grid fuel ray column player ;;
  slice <- compute_wall_slice ray3 ;;
  Ok (ray3, slice).

(** The first loop of [render]: the columns [x], [x + 1], ... (one per
    element of [columns]), with the one [t_ray] variable reused from column
    to column.  The result is the content of the three buffers. *)
Fixpoint render_columns (grid : list string) (fuel : nat) (ray : t_ray F)
    (columns : list Z) (player : t_player F) : result (list t_column) :=
  match columns with
  | [] => Ok []
  | column :: columns' =>
      r <- cast_column grid fuel ray column player ;;
      rest <- render_columns grid fuel (fst r) columns' player ;;
      Ok (snd r :: rest)
  end.

Definition range (n : Z) : list Z := List.map Z.of_nat (seq 0 (Z.to_nat n)).

Definition render (grid : list string) (fuel : nat) (ray : t_ray F)
    (player : t_player F) : result (list t_column) :=
  render_columns grid fuel ray (range SCREEN_WIDTH) player.

(** ** Movement *)

Definition moveSpeed : F := lit 0.1.
Definition rotSpeed : F := lit 0.05.

Definition set_x (p : t_player F) (v : F) : t_player F :=
  {| x := v; y := y p; dirX := dirX p; dirY := dirY p;
     planeX := planeX p; planeY := planeY p |}.

Definition set_y (p : t_player F) (v : F) : t_player F :=
  {| x := x p; y := v; dirX := dirX p; dirY := dirY p;
     planeX := planeX p; planeY := planeY p |}.

(** The two lines shared by the four translation branches of [move_player]:
[[
    if (map[(int)newY][(int)p->x] != '1') p->y = newY;
    if (map[(int)p->y][(int)newX] != '1') p->x = newX;
]] *)
Definition commit_axes (grid : list string) (p : t_player F) (newX newY : F)
  : result (t_player F) :=
  row <- of_option (to_int newY) ;;
  col <- of_option (to_int (x p)) ;;
  c <- cell grid row col ;;
  let p1 := if negb (is_wall c) then set_y p newY else p in
  row' <- of_option (to_int (y p1)) ;;
  col' <- of_option (to_int newX) ;;
  c' <- cell grid row' col' ;;
  Ok (if negb (is_wall c') then set_x p1 newX else p1).

(** The four lines of a rotation branch, for the cosine [c] and the sine [s]
    that the branch passes. *)
Definition turn (p : t_player F) (c s : F) : t_player F :=
  let oldDirX := dirX p in
  let dirX' := dirX p * c - dirY p * s in
  let dirY' := oldDirX * s + dirY p * c in
  let oldPlaneX := planeX p in
  let planeX' := planeX p * c - planeY p * s in
  let planeY' := oldPlaneX * s + planeY p * c in
  {| x := x p; y := y p; dirX := dirX'; dirY := dirY';
     planeX := planeX'; planeY := planeY' |}.

(** [move_player]: six [if] statements in a row, each on the structure the
    previous one left. *)
Definition move_player (grid : list string) (p : t_player F) (key : ascii)
  : result (t_player F) :=
  p <- (if Ascii.eqb key "w"
        then commit_axes grid p (x p + dirX p * moveSpeed)
                                (y p + dirY p * moveSpeed)
        else Ok p) ;;
  p <- (if Ascii.eqb key "s"
        then commit_axes grid p (x p - dirX p * moveSpeed)
                                (y p - dirY p * moveSpeed)
        else Ok p) ;;
  p <- (if Ascii.eqb key "a"
        then commit_axes grid p (x p - planeX p * moveSpeed)
                                (y p - planeY p * moveSpeed)
        else Ok p) ;;
  p <- (if Ascii.eqb key "d"
        then commit_axes grid p (x p + planeX p * moveSpeed)
                                (y p + planeY p * moveSpeed)
        else Ok p) ;;
  let p := if Ascii.eqb key "e"
           then turn p (fcos rotSpeed) (fsin rotSpeed)
           else p in
  let p := if Ascii.eqb key "q"
           then turn p (fcos (- rotSpeed)) (fsin (- rotSpeed))
           else p in
  Ok p.

(** The player after the keys [keys], one call of [move_player] per key. *)
Fixpoint move_players (grid : list string) (p : t_player F)
    (keys : list ascii) : result (t_player F) :=
  match keys with
  | [] => Ok p
  | key :: keys' =>
      p' <- move_player grid p key ;;
      move_players grid p' keys'
  end.

(** ** Start-up *)

(** The assignments [main] makes when it meets a ['P'] at column [col] of
    row [row]. *)
Definition spawn_at (col row : Z) : t_player F :=
  {| x := of_int col + lit 0.5;
     y := of_int row + lit 0.5;
     dirX := of_int 0;
     dirY := of_int (-1);
     planeX := lit 0.66;
     planeY := of_int 0 |}.

(** The inner loop of [main] on row [row].  [player] is [None] while the
    local variable of [main] has not been assigned. *)
Definition scan_row (grid : list string) (row : Z)
    (player : option (t_player F)) : result (option (t_player F)) :=
  fold_left
    (fun acc col =>
       player <- acc ;;
       c <- cell grid row col ;;
       Ok (if Ascii.eqb c "P" then Some (spawn_at col row) else player))
    (range MAP_WIDTH) (Ok player).

(** The two nested loops at the start of [main]. *)
Definition find_spawn (grid : list string)
  : result (option (t_player F)) :=
  fold_left
    (fun acc row =>
       player <- acc ;;
       scan_row grid row player)
    (range MAP_HEIGHT) (Ok None).

End Program.

(** ** Printing *)

Definition SKY_BG : string := String ESC "[48;2;135;206;250m".
Definition FLOOR_BG : string := String ESC "[48;2;50;50;50m".
Definition RESET : string := String ESC "[0m".
Definition PIXEL_CHAR : string := "  "%string.
Definition newline : string := String "010" EmptyString.

(** [clear_screen]: the text it prints. *)
Definition clear_screen : string := (String ESC "[H" ++ String ESC "[J")%string.

(** The three kinds of pixel that [render] prints. *)
Definition sky_pixel : string := (SKY_BG ++ PIXEL_CHAR ++ RESET)%string.
Definition wall_pixel (shade : string) : string := (shade ++ PIXEL_CHAR ++ RESET)%string.
Definition floor_pixel : string := (FLOOR_BG ++ PIXEL_CHAR ++ RESET)%string.

(** The body of the inner printing loop of [render]: the pixel of row [y] for
    a column whose buffers hold [column]. *)
Definition pixel (y : Z) (column : t_column) : string :=
  if y <? draw_start column then sky_pixel
  else if y <=? draw_end column then wall_pixel (wallColor column)
  else floor_pixel.

(** The inner printing loop of [render] for row [y], and the [printf] of
    the end of line.  The three buffers are read at every index below
    [SCREEN_WIDTH]. *)
Definition print_row (buffers : list t_column) (y : Z) : result string :=
  text <- fold_left
            (fun acc column =>
               text <- acc ;;
               slot <- of_option (nth_error buffers (Z.to_nat column)) ;;
               Ok (text ++ pixel y slot)%string)
            (List.map Z.of_nat (seq 0 (Z.to_nat SCREEN_WIDTH))) (Ok EmptyString) ;;
  Ok (text ++ newline)%string.

(** The outer printing loop of [render]. *)
Definition print_rows (buffers : list t_column) : result string :=
  fold_left
    (fun acc y =>
       text <- acc ;;
       row <- print_row buffers y ;;
       Ok (text ++ row)%string)
    (List.map Z.of_nat (seq 0 (Z.to_nat SCREEN_HEIGHT))) (Ok EmptyString).

(** The characters of [s] that [printf("%s")] prints: those before its first
    NUL. *)
Fixpoint c_string (s : string) : string :=
  match s with
  | EmptyString => EmptyString
  | String c rest => if Ascii.eqb c NUL then EmptyString
                     else String c (c_string rest)
  end.

(** [print_tab]: the text it prints.  [t] is the array of pointers that the
    argument points into, [None] standing for a null pointer; the loop reads
    one element per pass and has nothing defined to read after the last
    one. *)
Fixpoint print_tab (t : list (option string)) : result string :=
  match t with
  | [] => Undefined
  | None :: _ => Ok EmptyString
  | Some line :: t' =>
      text <- print_tab t' ;;
      Ok (c_string line ++ newline ++ text)%string
  end.

Section Frame.

Context {F : Type} {ops : FloatOps F}.

(** [render], whole: the text it prints for [player]. *)
Definition render_screen (grid : list string) (fuel : nat) (ray : t_ray F)
    (player : t_player F) : result string :=
  buffers <- render grid fuel ray player ;;
  text <- print_rows buffers ;;
  Ok (clear_screen ++ text)%string.

End Frame.

(** ** Exact arithmetic on the rationals *)

(** The integer part of [q], towards zero. *)
Definition Qtrunc (q : Q) : Z := (Qnum q ÷ Z.pos (Qden q))%Z.

Definition in_int (z : Z) : bool := (INT_MIN <=? z) && (z <=? INT_MAX).

Definition Q_to_int (q : Q) : option Z :=
  if in_int (Qtrunc q) then Some (Qtrunc q) else None.

Definition Q_div (a b : Q) : option Q :=
  if Qeq_bool b 0 then None else Some (a / b)%Q.

Definition Q_lt (a b : Q) : bool :=
  match (a ?= b)%Q with
  | Lt => true
  | _ => false
  end.

(** The Maclaurin polynomials of degree 6 and 7 stand for the cosine and the
    sine of the C library. *)
Definition Q_cos (r : Q) : Q :=
  (1 - r ^ 2 / 2 + r ^ 4 / 24 - r ^ 6 / 720)%Q.

Definition Q_sin (r : Q) : Q :=
  (r - r ^ 3 / 6 + r ^ 5 / 120 - r ^ 7 / 5040)%Q.

#[export] Instance Q_ops : FloatOps Q := {
  fadd := Qplus;
  fsub := Qminus;
  fmul := Qmult;
  fdiv := Q_div;
  fneg := Qopp;
  fabs := Qabs;
  flt := Q_lt;
  feq := Qeq_bool;
  of_int := inject_Z;
  lit := fun q => q;
  to_int := Q_to_int;
  fcos := Q_cos;
  fsin := Q_sin
}.

(** A [t_ray] for the variable that [render] declares and [init_ray] fills. *)
Definition blank_ray {F : Type} {ops : FloatOps F} : t_ray F :=
  {| cameraX := of_int 0; rayDirX := of_int 0; rayDirY := of_int 0;
     mapX := 0; mapY := 0;
     deltaDistX := of_int 0; deltaDistY := of_int 0;
     sideDistX := of_int 0; sideDistY := of_int 0;
     stepX := 0; stepY := 0; hit := 0; side := 0;
     perpWallDist := of_int 0 |}.

(** ** Vocabulary of the statements *)

(** The character of the grid at ([row], [col]); [None] off the grid (the
    terminating NUL of a row is not a cell). *)
Definition tile (grid : list string) (row col : Z) : option ascii :=
  if (row <? 0) || (col <? 0) then None
  else
    match nth_error grid (Z.to_nat row) with
    | None => None
    | Some line => String.get (Z.to_nat col) line
    end.

(** [grid] has [H] rows of [W] characters. *)
Definition rectangular (grid : list string) (W H : Z) : bool :=
  (Z.of_nat (List.length grid) =? H)
  && forallb (fun line => Z.of_nat (String.length line) =? W) grid.

(** ([row], [col]) is on the first or last row or column. *)
Definition on_border (W H row col : Z) : bool :=
  (row =? 0) || (row =? H - 1) || (col =? 0) || (col =? W - 1).

(** The grid holds a wall at ([row], [col]). *)
Definition wall_at (grid : list string) (row col : Z) : bool :=
  match tile grid row col with
  | Some c => is_wall c
  | None => false
  end.

(** Every cell of the outer border of the [W] x [H] grid is a wall. *)
Definition enclosed (grid : list string) (W H : Z) : bool :=
  forallb
    (fun row =>
       forallb
         (fun col => implb (on_border W H row col) (wall_at grid row col))
         (range W))
    (range H).

(** Cells left before the border in the direction of travel. *)
Definition room (size pos step : Z) : Z :=
  if (step =? 1)%Z then (size - 1 - pos)%Z else pos.

(** The cells in the order in which the two loops of [main] visit them. *)
Definition scan_order : list (Z * Z) :=
  flat_map (fun row => List.map (fun col => (row, col)) (range MAP_WIDTH))
           (range MAP_HEIGHT).

(** The cell [pos = (row, col)] holds the marker ['P']. *)
Definition marked (grid : list string) (pos : Z * Z) : bool :=
  match tile grid (fst pos) (snd pos) with
  | Some c => Ascii.eqb c "P"
  | None => false
  end.

(** The cells that hold a ['P'], in the order of the scan. *)
Definition markers (grid : list string) : list (Z * Z) :=
  filter (marked grid) scan_order.

(** The last cell of [ms], if any. *)
Definition last_of (ms : list (Z * Z)) : option (Z * Z) :=
  last (List.map Some ms) None.

(** [c] is one of ['0'] ... ['9']. *)
Definition is_digit (c : ascii) : bool :=
  (48 <=? nat_of_ascii c)%nat && (nat_of_ascii c <=? 57)%nat.

(** The number written by the leading digits of [s], and what follows it. *)
Fixpoint read_number (acc : Z) (s : string) : Z * string :=
  match s with
  | String c rest =>
      if is_digit c
      then read_number (10 * acc + (Z.of_nat (nat_of_ascii c) - 48)) rest
      else (acc, s)
  | EmptyString => (acc, s)
  end.

(** The colour [(r, g, b)] that the escape sequence [ESC[48;2;r;g;bm] sets
    as background. *)
Definition background_rgb (s : string) : option (Z * Z * Z) :=
  let lead := String ESC "[48;2;" in
  if String.prefix lead s then
    let body := substring (String.length lead)
                  (String.length s - String.length lead) s in
    let '(r, body) := read_number 0 body in
    match body with
    | String ";" body =>
        let '(g, body) := read_number 0 body in
        match body with
        | String ";" body =>
            let '(b, body) := read_number 0 body in
            match body with
            | String "m" EmptyString => Some (r, g, b)
            | _ => None
            end
        | _ => None
        end
    | _ => None
    end
  else None.

(** The intensity of a shade: the sum of the three channels of its colour. *)
Definition intensity (shade : string) : Z :=
  match background_rgb shade with
  | Some (r, g, b) => r + g + b
  | None => 0
  end.

(** [v] brought into [[lo, hi]]. *)
Definition clamp (lo hi v : Z) : Z := Z.max lo (Z.min hi v).

(** The rows that [compute_wall_slice] stored for a column are rows of the
    screen, the first one in its upper half and the last one in its lower
    half. *)
Definition on_screen (c : t_column) : Prop :=
  0 <= draw_start c <= SCREEN_HEIGHT ÷ 2 /\
  SCREEN_HEIGHT ÷ 2 <= draw_end c <= SCREEN_HEIGHT - 1.

(** The strings of [l], one after the other. *)
Fixpoint join (l : list string) : string :=
  match l with
  | [] => EmptyString
  | s :: l' => (s ++ join l')%string
  end.

(** Line [y] of a frame: one pixel per column of the screen, then the end of
    line; and a frame: its [SCREEN_HEIGHT] lines. *)
Definition row_text (buffers : list t_column) (y : Z) : string :=
  (join (List.map (pixel y) (firstn (Z.to_nat SCREEN_WIDTH) buffers))
   ++ newline)%string.

Definition frame_text (buffers : list t_column) : string :=
  join (List.map (row_text buffers)
          (List.map Z.of_nat (seq 0 (Z.to_nat SCREEN_HEIGHT)))).

Section Vocabulary.

Context {F : Type} {ops : FloatOps F}.
Local Open Scope float_scope.

(** The player stands on a cell of the grid that is not a wall. *)
Definition open_cell (grid : list string) (p : t_player F) : bool :=
  match to_int (y p), to_int (x p) with
  | Some row, Some col =>
      match tile grid row col with
      | Some c => negb (is_wall c)
      | None => false
      end
  | _, _ => false
  end.

(** The position [(newX, newY)] that the branch of [move_player] for [key]
    computes; [None] for a key that does not translate the player. *)
Definition candidate (p : t_player F) (key : ascii) : option (F * F) :=
  if Ascii.eqb key "w" then
    Some (x p + dirX p * moveSpeed, y p + dirY p * moveSpeed)
  else if Ascii.eqb key "s" then
    Some (x p - dirX p * moveSpeed, y p - dirY p * moveSpeed)
  else if Ascii.eqb key "a" then
    Some (x p - planeX p * moveSpeed, y p - planeY p * moveSpeed)
  else if Ascii.eqb key "d" then
    Some (x p + planeX p * moveSpeed, y p + planeY p * moveSpeed)
  else None.

(** [(newX, newY)] falls in a row and a column of the [W] x [H] grid. *)
Definition lands_on_grid (W H : Z) (newX newY : F) : bool :=
  match to_int newY, to_int newX with
  | Some row, Some col =>
      (0 <=? row)%Z && (row <? H)%Z && (0 <=? col)%Z && (col <? W)%Z
  | _, _ => false
  end.

(** What the body of the inner loop of [main] does at the cell [pos]. *)
Definition scan_cell (grid : list string)
    (acc : result (option (t_player F))) (pos : Z * Z)
  : result (option (t_player F)) :=
  player <- acc ;;
  c <- cell grid (fst pos) (snd pos) ;;
  Ok (if Ascii.eqb c "P" then Some (spawn_at (snd pos) (fst pos)) else player).

(** The dot product of the direction and the camera plane of a player. *)
Definition dot (p : t_player F) : F :=
  dirX p * planeX p + dirY p * planeY p.

(** The rotation of the plane, as the spec has it: the vector [v] turned
    with the cosine [c] and the sine [s] of an angle. *)
Definition rotate (c s : F) (v : F * F) : F * F :=
  (fst v * c - snd v * s, fst v * s + snd v * c).

(** The cosine and the sine of the angle of a rotation key: [rotSpeed] for
    ['e'], [- rotSpeed] for ['q']. *)
Definition key_cos (key : ascii) : F :=
  if Ascii.eqb key "e" then fcos rotSpeed else fcos (- rotSpeed).

Definition key_sin (key : ascii) : F :=
  if Ascii.eqb key "e" then fsin rotSpeed else fsin (- rotSpeed).

(** The vector [v] after the rotations of the keys [keys], first key
    first. *)
Definition rotations (keys : list ascii) (v : F * F) : F * F :=
  fold_left (fun w key => rotate (key_cos key) (key_sin key) w) keys v.

(** [ray] with other values in the two fields that [perform_dda] writes
    before reading, and [ray] with the six fields that [init_ray] leaves
    taken from [other]. *)
Definition with_scratch (ray : t_ray F) (s : Z) (d : F) : t_ray F :=
  {| cameraX := cameraX ray;
     rayDirX := rayDirX ray;
     rayDirY := rayDirY ray;
     mapX := mapX ray;
     mapY := mapY ray;
     deltaDistX := deltaDistX ray;
     deltaDistY := deltaDistY ray;
     sideDistX := sideDistX ray;
     sideDistY := sideDistY ray;
     stepX := stepX ray;
     stepY := stepY ray;
     hit := hit ray;
     side := s;
     perpWallDist := d |}.

Definition with_rest (ray other : t_ray F) : t_ray F :=
  {| cameraX := cameraX ray;
     rayDirX := rayDirX ray;
     rayDirY := rayDirY ray;
     mapX := mapX ray;
     mapY := mapY ray;
     deltaDistX := deltaDistX ray;
     deltaDistY := deltaDistY ray;
     sideDistX := sideDistX other;
     sideDistY := sideDistY other;
     stepX := stepX other;
     stepY := stepY other;
     hit := hit ray;
     side := side other;
     perpWallDist := perpWallDist other |}.

End Vocabulary.

(** *** On the rationals *)

Section RationalVocabulary.

Local Open Scope Q_scope.

(** The camera coordinate of a column, and the distance between two grid
    lines along a ray of direction component [r]. *)
Definition camera (column : Z) : Q :=
  inject_Z (2 * column) / inject_Z SCREEN_WIDTH - 1.

Definition delta (r : Q) : Q :=
  if Qeq_bool r 0 then 1e30 else Qabs (1 / r).

(** The player that [main] places on [map]. *)
Definition spawn : t_player Q := spawn_at 9 14.

(** A player of the top-left room, next to the pillar at column 3 of row 2,
    heading down and right; and one below that row, heading up and right. *)
Definition above_pillar : t_player Q := mk_player 2.95 1.95 0.6 0.8 0.8 (-0.6).
Definition below_pillar : t_player Q := mk_player 2.95 2.05 0.6 (-0.8) 0.8 0.6.

(** A player of the bottom row, one cell from the east wall, whose direction
    is 15 cells long. *)
Definition long_stride : t_player Q := mk_player 14.5 14.5 15 0 0 0.66.

(** A player on the line between columns 4 and 5 of the bottom row, facing
    the wall at column 4. *)
Definition at_wall : t_player Q := mk_player 5 14.5 (-1) 0 0 0.66.

(** A player on the line between rows 11 and 12, in column 9, facing the
    wall at row 11. *)
Definition under_wall : t_player Q := mk_player 9.5 12 0 (-1) 0.66 0.

(** [map] with a second marker, and [map] without its marker. *)
Definition two_markers : list string :=
  [ "1111111111111111";
    "11P0000000000001";
    "1101010101010101";
    "1100000000000001";
    "1000000000001101";
    "1011110001111101";
    "1001100000111101";
    "1001000100100001";
    "1111000000100111";
    "1110111110001111";
    "1010001000001111";
    "1011100001111001";
    "1000011000000001";
    "1011001000000001";
    "100110000P000001";
    "1111111111111111" ]%string.

Definition no_marker : list string :=
  [ "1111111111111111";
    "1100000000000001";
    "1101010101010101";
    "1100000000000001";
    "1000000000001101";
    "1011110001111101";
    "1001100000111101";
    "1001000100100001";
    "1111000000100111";
    "1110111110001111";
    "1010001000001111";
    "1011100001111001";
    "1000011000000001";
    "1011001000000001";
    "1001100000000001";
    "1111111111111111" ]%string.

(** The first ray of the first frame: column 0 seen from the spawn point. *)
Definition first_ray : t_ray Q :=
  match init_ray blank_ray 0 spawn with
  | Ok ray => compute_initial_steps ray spawn
  | _ => blank_ray
  end.

(** The distance, in cells, from the coordinate [v] of a cell of index [pos]
    to the grid line that bounds the cell in the direction of [step]. *)
Definition gap (step pos : Z) (v : Q) : Q :=
  if (step =? 1)%Z then inject_Z pos + 1 - v else v - inject_Z pos.

(** The two side distances of [ray] are those of a ray that left the point
    [(px, py)]: as many [deltaDist] as there are cells, along each axis, from
    the point to the next grid line beyond the cell of the ray. *)
Definition on_track (px py : Q) (ray : t_ray Q) : Prop :=
  sideDistX ray == deltaDistX ray * gap (stepX ray) (mapX ray) px /\
  sideDistY ray == deltaDistY ray * gap (stepY ray) (mapY ray) py.

(** [v] is at least [eps] away from the two grid lines of its cell. *)
Definition off_lines (eps v : Q) : Prop :=
  eps <= v - inject_Z (Qfloor v) /\ v - inject_Z (Qfloor v) <= 1 - eps.

End RationalVocabulary.

(** *** On the values of an arithmetic *)

(** What a rotation key can do to the lengths of the direction and of the
    camera plane and to their dot product: an upper bound on each length, a
    lower bound on the square of the length of the plane, and a bound on
    the size of the dot product. *)
Record t_drift : Type := mk_drift {
  len_dir : R;
  len_plane : R;
  low_plane : R;
  max_dot : R
}.

Section ValueVocabulary.

Context {F : Type} {ops : FloatOps F}.
Local Open Scope R_scope.

(** [val a] is the real number that the value [a] of the arithmetic stands
    for.  The arithmetic follows the standard model of rounding with the
    unit [u] and the absolute error [eta], on operands not larger than [M]
    (no overflow): a product, a sum and a difference of such operands are
    the exact ones up to a relative error of [u] and an absolute error of
    [eta]. *)
Variable val : F -> R.

Definition error_model (u eta M : R) : Prop :=
  (forall a b : F,
      Rabs (val a) <= M -> Rabs (val b) <= M ->
      Rabs (val (fmul a b) - val a * val b)
      <= u * Rabs (val a * val b) + eta) /\
  (forall a b : F,
      Rabs (val a) <= M -> Rabs (val b) <= M ->
      Rabs (val (fadd a b) - (val a + val b))
      <= u * Rabs (val a + val b) + eta) /\
  (forall a b : F,
      Rabs (val a) <= M -> Rabs (val b) <= M ->
      Rabs (val (fsub a b) - (val a - val b))
      <= u * Rabs (val a - val b) + eta).

(** The arithmetic rounds monotonically: an absolute value and the
    constant [1e30] are not negative, a product of two values that are not
    negative is not negative, adding a value that is not negative does not
    go below the other term, a difference of [a] and a smaller [b] is not
    negative, and the [int] that a value casts to and its successor
    enclose the value. *)
Definition order_model : Prop :=
  (forall a : F, 0 <= val (fabs a)) /\
  0 <= val (lit 1e30) /\
  (forall a b : F, 0 <= val a -> 0 <= val b -> 0 <= val (fmul a b)) /\
  (forall a b : F, 0 <= val a -> val b <= val (fadd a b)) /\
  (forall a b : F, val b <= val a -> 0 <= val (fsub a b)) /\
  (forall (a : F) (z : Z),
      to_int a = Some z -> 0 <= val a ->
      val (of_int z) <= val a /\
      val a <= val (fadd (of_int z) (lit 1.0))).

(** The cast to [int]: when it gives a positive [int], that [int] and its
    successor enclose the value; and a value that is not negative and below
    [INT_MAX] has a cast, which encloses it in the same way. *)
Definition cast_model : Prop :=
  (forall (a : F) (z : Z),
      to_int a = Some z -> (1 <= z)%Z -> IZR z <= val a < IZR z + 1) /\
  (forall a : F,
      0 <= val a -> val a < IZR INT_MAX ->
      exists z : Z, to_int a = Some z /\ IZR z <= val a < IZR z + 1).

(** The cosine and the sine that the arithmetic returns for the angle [a]
    are those of an angle, up to [kappa] on the sum of their squares. *)
Definition unit_circle (kappa : R) (a : F) : Prop :=
  Rabs (val (fcos a) * val (fcos a) + val (fsin a) * val (fsin a) - 1)
  <= kappa.

(** The dot product of the direction and the plane of a player, and the
    square of the length of a vector, as real numbers. *)
Definition value_dot (p : t_player F) : R :=
  val (dirX p) * val (planeX p) + val (dirY p) * val (planeY p).

Definition value_norm2 (a b : F) : R := val a * val a + val b * val b.

(** The player [p] is within the bounds [b]. *)
Definition within_drift (b : t_drift) (p : t_player F) : Prop :=
  0 <= len_dir b /\ 0 <= len_plane b /\
  value_norm2 (dirX p) (dirY p) <= len_dir b * len_dir b /\
  low_plane b <= value_norm2 (planeX p) (planeY p) /\
  value_norm2 (planeX p) (planeY p) <= len_plane b * len_plane b /\
  Rabs (value_dot p) <= max_dot b.

End ValueVocabulary.

(** The error that one rotation can put on a component of a vector not
    longer than [r]. *)
Definition slack (u eta kappa r : R) : R :=
  ((2 * u + u * u) * (1 + kappa) * r + (3 + 2 * u) * eta)%R.

(** Vectors within the bounds [b] give the rotation operands and
    intermediate results not larger than [M]. *)
Definition in_range (u eta M : R) (b : t_drift) : Prop :=
  (2 <= M /\
   (1 + u) * (2 * len_dir b) + eta <= M /\
   (1 + u) * (2 * len_plane b) + eta <= M)%R.

(** The bounds after one more rotation key, and after the keys of a
    session: the rotation keys move them, the other keys do not. *)
Definition drift_step (u eta kappa : R) (b : t_drift) : t_drift :=
  let ed := slack u eta kappa (len_dir b) in
  let ep := slack u eta kappa (len_plane b) in
  {| len_dir := ((1 + kappa) * len_dir b + 2 * ed)%R;
     len_plane := ((1 + kappa) * len_plane b + 2 * ep)%R;
     low_plane := ((1 - kappa) * low_plane b
                   - 4 * (1 + kappa) * len_plane b * ep)%R;
     max_dot := ((1 + kappa) * max_dot b
                 + 2 * (1 + kappa) * (len_dir b * ep + len_plane b * ed)
                 + 2 * ed * ep)%R |}.

Definition session_drift (u eta kappa : R) (keys : list ascii)
    (b : t_drift) : t_drift :=
  fold_left
    (fun b key =>
       if Ascii.eqb key "e" || Ascii.eqb key "q"
       then drift_step u eta kappa b else b)
    keys b.

(** The bounds stay usable all along a session: the two lengths are not
    above 4 and the products of a rotation do not overflow, before each
    key and at the end. *)
Fixpoint session_in_range (u eta kappa M : R) (keys : list ascii)
    (b : t_drift) : Prop :=
  (len_dir b <= 4 /\ len_plane b <= 4 /\ in_range u eta M b)%R /\
  match keys with
  | [] => True
  | key :: rest =>
      session_in_range u eta kappa M rest
        (if Ascii.eqb key "e" || Ascii.eqb key "q"
         then drift_step u eta kappa b else b)
  end.

(** * Properties *)

(** ** The error monad and the grid *)

Lemma bind_Ok_r {A : Type} (r : result A) : (v <- r ;; Ok v) = r.
Proof. destruct r; reflexivity. Qed.

Lemma bind_Ok_inv {A B : Type} (r : result A) (k : A -> result B) (b : B) :
  (v <- r ;; k v) = Ok b -> exists a, r = Ok a /\ k a = Ok b.
Proof. destruct r as [a| |]; simpl; intros E; try discriminate; eauto. Qed.

Lemma of_option_Ok_inv {A : Type} (o : option A) (a : A) :
  of_option o = Ok a -> o = Some a.
Proof. destruct o; simpl; congruence. Qed.

Lemma tile_cell (grid : list string) (row col : Z) (c : ascii) :
  tile grid row col = Some c -> cell grid row col = Ok c.
Proof.
  unfold tile, cell.
  destruct ((row <? 0) || (col <? 0)); [discriminate|].
  destruct (nth_error grid (Z.to_nat row)) as [line|]; [|discriminate].
  intros ->. reflexivity.
Qed.

Lemma string_get_lt (n : nat) (s : string) :
  (n < String.length s)%nat -> exists c, String.get n s = Some c.
Proof.
  revert n. induction s as [|a s IH]; simpl; intros n Hn; [lia|].
  destruct n as [|n]; [eauto|]. apply IH. lia.
Qed.

Lemma In_range (n k : Z) : In k (range n) <-> 0 <= k < n.
Proof.
  unfold range. rewrite in_map_iff. split.
  - intros (i & <- & Hi). apply in_seq in Hi. lia.
  - intros Hk. exists (Z.to_nat k). split; [lia|]. apply in_seq. lia.
Qed.

Lemma rectangular_tile (grid : list string) (W H row col : Z) :
  rectangular grid W H = true ->
  0 <= row < H -> 0 <= col < W ->
  exists c, tile grid row col = Some c.
Proof.
  unfold rectangular. rewrite andb_true_iff, forallb_forall.
  intros [HH HW] Hr Hc. apply Z.eqb_eq in HH.
  unfold tile.
  replace ((row <? 0) || (col <? 0)) with false
    by (symmetry; apply orb_false_iff; split; apply Z.ltb_ge; lia).
  destruct (nth_error grid (Z.to_nat row)) as [line|] eqn:E.
  - apply string_get_lt.
    apply nth_error_In in E. apply HW in E. apply Z.eqb_eq in E. lia.
  - apply nth_error_None in E. lia.
Qed.

Lemma enclosed_wall (grid : list string) (W H row col : Z) :
  enclosed grid W H = true ->
  0 <= row < H -> 0 <= col < W ->
  on_border W H row col = true ->
  tile grid row col = Some "1"%char.
Proof.
  unfold enclosed. rewrite forallb_forall. intros E Hr Hc Hb.
  specialize (E row (proj2 (In_range H row) Hr)).
  rewrite forallb_forall in E.
  specialize (E col (proj2 (In_range W col) Hc)).
  rewrite Hb in E. simpl in E. unfold wall_at in E.
  destruct (tile grid row col) as [c|]; [|discriminate].
  unfold is_wall in E. apply Ascii.eqb_eq in E. now subst.
Qed.

(** ** Movement, for every arithmetic *)

Section Movement.

Context {F : Type} {ops : FloatOps F}.
Local Open Scope float_scope.

Ltac split_key key :=
  destruct (Ascii.eqb_spec key "w"%char) as [ -> | ? ];
  [|destruct (Ascii.eqb_spec key "s"%char) as [ -> | ? ];
    [|destruct (Ascii.eqb_spec key "a"%char) as [ -> | ? ];
      [|destruct (Ascii.eqb_spec key "d"%char) as [ -> | ? ];
        [|destruct (Ascii.eqb_spec key "e"%char) as [ -> | ? ];
          [|destruct (Ascii.eqb_spec key "q"%char) as [ -> | ? ]]]]]].

(** A translation key runs the two collision tests on its candidate and
    nothing else. *)
Lemma move_player_translate (grid : list string) (p : t_player F)
    (key : ascii) (newX newY : F) :
  candidate p key = Some (newX, newY) ->
  move_player grid p key = commit_axes grid p newX newY.
Proof.
  unfold candidate, move_player.
  split_key key; simpl; intros E; try discriminate;
    injection E as <- <-; simpl; apply bind_Ok_r.
Qed.

Lemma move_player_e (grid : list string) (p : t_player F) :
  move_player grid p "e" = Ok (turn p (fcos rotSpeed) (fsin rotSpeed)).
Proof. reflexivity. Qed.

Lemma move_player_q (grid : list string) (p : t_player F) :
  move_player grid p "q"
  = Ok (turn p (fcos (- rotSpeed)) (fsin (- rotSpeed))).
Proof. reflexivity. Qed.

Lemma move_player_other (grid : list string) (p : t_player F) (key : ascii) :
  key <> "w"%char -> key <> "s"%char -> key <> "a"%char ->
  key <> "d"%char -> key <> "e"%char -> key <> "q"%char ->
  move_player grid p key = Ok p.
Proof.
  intros Hw Hs Ha Hd He Hq. unfold move_player.
  apply Ascii.eqb_neq in Hw, Hs, Ha, Hd, He, Hq.
  rewrite Hw, Hs, Ha, Hd, He, Hq. reflexivity.
Qed.

Lemma candidate_keys (p : t_player F) (key : ascii) :
  (key = "w" \/ key = "s" \/ key = "a" \/ key = "d")%char ->
  exists newX newY, candidate p key = Some (newX, newY).
Proof.
  unfold candidate. intros [ -> | [ -> | [ -> | -> ] ] ]; simpl; eauto.
Qed.

(** What the two collision tests do when every read is defined: the row is
    tested first, against the column the player is in; the column is tested
    second, against the row the first test left. *)
Lemma commit_axes_defined (grid : list string) (p : t_player F)
    (newX newY : F) (row col row' col' : Z) (cY cX : ascii) :
  to_int newY = Some row ->
  to_int (x p) = Some col ->
  cell grid row col = Ok cY ->
  to_int (if is_wall cY then y p else newY) = Some row' ->
  to_int newX = Some col' ->
  cell grid row' col' = Ok cX ->
  commit_axes grid p newX newY
  = Ok {| x := if is_wall cX then x p else newX;
          y := if is_wall cY then y p else newY;
          dirX := dirX p; dirY := dirY p;
          planeX := planeX p; planeY := planeY p |}.
Proof.
  intros HY HX HcY HY' HX' HcX. unfold commit_axes.
  rewrite HY, HX. simpl. rewrite HcY. simpl.
  destruct (is_wall cY); simpl in *; rewrite HY', HX'; simpl;
    rewrite HcX; simpl; destruct (is_wall cX); simpl; destruct p; reflexivity.
Qed.

Lemma commit_axes_inv (grid : list string) (p p' : t_player F)
    (newX newY : F) :
  commit_axes grid p newX newY = Ok p' ->
  exists row col row' col' cY cX,
    to_int newY = Some row /\
    to_int (x p) = Some col /\
    cell grid row col = Ok cY /\
    to_int (if is_wall cY then y p else newY) = Some row' /\
    to_int newX = Some col' /\
    cell grid row' col' = Ok cX /\
    p' = {| x := if is_wall cX then x p else newX;
            y := if is_wall cY then y p else newY;
            dirX := dirX p; dirY := dirY p;
            planeX := planeX p; planeY := planeY p |}.
Proof.
  unfold commit_axes. intros E.
  apply bind_Ok_inv in E as (row & Hrow & E). apply of_option_Ok_inv in Hrow.
  apply bind_Ok_inv in E as (col & Hcol & E). apply of_option_Ok_inv in Hcol.
  apply bind_Ok_inv in E as (cY & HcY & E).
  apply bind_Ok_inv in E as (row' & Hrow' & E).
  apply of_option_Ok_inv in Hrow'.
  apply bind_Ok_inv in E as (col' & Hcol' & E).
  apply of_option_Ok_inv in Hcol'.
  apply bind_Ok_inv in E as (cX & HcX & E).
  exists row, col, row', col', cY, cX.
  repeat split; try assumption.
  - destruct (is_wall cY); assumption.
  - injection E as <-.
    destruct (is_wall cY), (is_wall cX); destruct p; reflexivity.
Qed.

Lemma turn_position (p : t_player F) (c s : F) :
  x (turn p c s) = x p /\ y (turn p c s) = y p.
Proof. split; reflexivity. Qed.

Lemma tile_inside (grid : list string) (W H row col : Z) (c : ascii) :
  rectangular grid W H = true ->
  tile grid row col = Some c ->
  0 <= row < H /\ 0 <= col < W.
Proof.
  unfold rectangular, tile. rewrite andb_true_iff, forallb_forall.
  intros [HH HW] E. apply Z.eqb_eq in HH.
  destruct ((row <? 0)%Z || (col <? 0)%Z) eqn:Hneg; [discriminate|].
  apply orb_false_iff in Hneg as [Hr Hc].
  apply Z.ltb_ge in Hr, Hc.
  destruct (nth_error grid (Z.to_nat row)) as [line|] eqn:En; [|discriminate].
  assert (Hlen : (Z.to_nat row < List.length grid)%nat)
    by (apply nth_error_Some; congruence).
  apply nth_error_In in En. apply HW in En. apply Z.eqb_eq in En.
  assert (Hcol : (Z.to_nat col < String.length line)%nat).
  { clear - E. revert E. generalize (Z.to_nat col) as n.
    induction line as [|a line IH]; simpl; intros n E; [discriminate|].
    destruct n as [|n]; [lia|]. apply IH in E. lia. }
  lia.
Qed.

(** C10.  Frame effect of [move_player].  The keys 'e' and 'q' always return,
    with the player at the same position; the keys 'w', 's', 'a' and 'd',
    when they return, leave the direction and the camera plane as they
    were; every other key returns the player unchanged. *)
Theorem move_player_frame (grid : list string) (p : t_player F)
    (key : ascii) :
  ((key = "e" \/ key = "q")%char ->
   exists p', move_player grid p key = Ok p' /\ x p' = x p /\ y p' = y p)
  /\
  ((key = "w" \/ key = "s" \/ key = "a" \/ key = "d")%char ->
   forall p', move_player grid p key = Ok p' ->
     dirX p' = dirX p /\ dirY p' = dirY p /\
     planeX p' = planeX p /\ planeY p' = planeY p)
  /\
  (key <> "w"%char -> key <> "s"%char -> key <> "a"%char ->
   key <> "d"%char -> key <> "e"%char -> key <> "q"%char ->
   move_player grid p key = Ok p).
Proof.
  split; [|split].
  - intros [ -> | -> ].
    + rewrite move_player_e. eexists. split; [reflexivity|]. split; reflexivity.
    + rewrite move_player_q. eexists. split; [reflexivity|]. split; reflexivity.
  - intros Hkey p' E.
    destruct (candidate_keys p key Hkey) as (newX & newY & Hc).
    rewrite (move_player_translate grid p key newX newY Hc) in E.
    apply commit_axes_inv in E
      as (row & col & row' & col' & cY & cX & _ & _ & _ & _ & _ & _ & ->).
    repeat split; reflexivity.
  - apply move_player_other.
Qed.

(** C1, as the code has it.  For a translation key whose reads are defined,
    the candidate row [newY] is tested first, against the column the player
    is in, and committed when that cell is not a wall; the candidate column
    [newX] is tested second, against the row that the first test left (the
    new row when it was committed), and committed when that cell is not a
    wall.  Direction and plane stay.  In particular a player whose row test
    passes and whose column test meets a wall slides: [y] moves, [x] stays. *)
Theorem translation_tests_row_then_column (grid : list string)
    (p : t_player F) (key : ascii) (newX newY : F)
    (row col row' col' : Z) (cY cX : ascii) :
  candidate p key = Some (newX, newY) ->
  to_int newY = Some row ->
  to_int (x p) = Some col ->
  cell grid row col = Ok cY ->
  to_int (if is_wall cY then y p else newY) = Some row' ->
  to_int newX = Some col' ->
  cell grid row' col' = Ok cX ->
  exists p',
    move_player grid p key = Ok p' /\
    y p' = (if is_wall cY then y p else newY) /\
    x p' = (if is_wall cX then x p else newX) /\
    dirX p' = dirX p /\ dirY p' = dirY p /\
    planeX p' = planeX p /\ planeY p' = planeY p /\
    (is_wall cY = false -> is_wall cX = true -> y p' = newY /\ x p' = x p).
Proof.
  intros Hc HY HX HcY HY' HX' HcX.
  rewrite (move_player_translate grid p key newX newY Hc).
  rewrite (commit_axes_defined grid p newX newY row col row' col' cY cX)
    by assumption.
  eexists. split; [reflexivity|]. simpl.
  do 6 (split; [reflexivity|]).
  intros HwY HwX. rewrite HwY, HwX. split; reflexivity.
Qed.

(** C2, as the code has it.  On a rectangular grid, a player on a cell that
    is not a wall, given a key whose candidate position (when the key has
    one) falls in a row and a column of the grid, is moved by a call that
    returns, and stands on a cell of the grid that is not a wall
    afterwards. *)
Theorem move_player_keeps_open_cell (grid : list string) (W H : Z)
    (p : t_player F) (key : ascii) :
  rectangular grid W H = true ->
  open_cell grid p = true ->
  (forall newX newY,
      candidate p key = Some (newX, newY) ->
      lands_on_grid W H newX newY = true) ->
  exists p', move_player grid p key = Ok p' /\ open_cell grid p' = true.
Proof.
  intros Hrect Hopen Hland.
  destruct (candidate p key) as [[newX newY]|] eqn:Hc.
  - specialize (Hland newX newY eq_refl).
    rewrite (move_player_translate grid p key newX newY Hc).
    unfold lands_on_grid in Hland.
    destruct (to_int newY) as [row|] eqn:HY; [|discriminate].
    destruct (to_int newX) as [col'|] eqn:HX'; [|discriminate].
    repeat rewrite andb_true_iff in Hland.
    destruct Hland as [[[Hr0 Hr1] Hc0] Hc1].
    apply Z.leb_le in Hr0, Hc0. apply Z.ltb_lt in Hr1, Hc1.
    unfold open_cell in Hopen.
    destruct (to_int (y p)) as [row0|] eqn:HY0; [|discriminate].
    destruct (to_int (x p)) as [col|] eqn:HX; [|discriminate].
    destruct (tile grid row0 col) as [c0|] eqn:Ht0; [|discriminate].
    destruct (tile_inside grid W H row0 col c0 Hrect Ht0) as [Hrow0 Hcol].
    destruct (rectangular_tile grid W H row col Hrect) as [cY HtY]; [lia..|].
    assert (Hrow' : exists row',
               to_int (if is_wall cY then y p else newY) = Some row'
               /\ 0 <= row' < H
               /\ (is_wall cY = true -> row' = row0)
               /\ (is_wall cY = false -> row' = row)).
    { destruct (is_wall cY); eexists; (split; [eassumption|]);
        repeat split; intros; try lia; try discriminate. }
    destruct Hrow' as (row' & HY' & Hrow'b & Hwall & Hfree).
    destruct (rectangular_tile grid W H row' col' Hrect) as [cX HtX]; [lia..|].
    rewrite (commit_axes_defined grid p newX newY row col row' col' cY cX)
      by auto using tile_cell.
    eexists. split; [reflexivity|].
    unfold open_cell. simpl. rewrite HY'.
    destruct (is_wall cX) eqn:HwX.
    + rewrite HX.
      destruct (is_wall cY) eqn:HwY.
      * rewrite (Hwall eq_refl), Ht0. assumption.
      * rewrite (Hfree eq_refl), HtY, HwY. reflexivity.
    + rewrite HX', HtX, HwX. reflexivity.
  - clear Hland. revert Hc. unfold candidate.
    split_key key; simpl; try discriminate; intros _.
    + rewrite move_player_e. eexists. split; [reflexivity|]. exact Hopen.
    + rewrite move_player_q. eexists. split; [reflexivity|]. exact Hopen.
    + rewrite move_player_other by assumption. eauto.
Qed.

End Movement.

(** ** The grid traversal, for every arithmetic *)

Section Traversal.

Context {F : Type} {ops : FloatOps F}.
Local Open Scope float_scope.

Lemma dda_loop_hit (grid : list string) (fuel : nat) (ray : t_ray F) :
  hit ray <> 0%Z -> dda_loop grid fuel ray = Ok ray.
Proof.
  intros Hh. apply Z.eqb_neq in Hh.
  destruct fuel; simpl; rewrite Hh; reflexivity.
Qed.

Lemma dda_loop_more_fuel (grid : list string) (n m : nat) (ray ray' : t_ray F) :
  dda_loop grid n ray = Ok ray' -> (n <= m)%nat ->
  dda_loop grid m ray = Ok ray'.
Proof.
  revert m ray. induction n as [|n IH]; intros m ray E Hnm.
  - simpl in E. destruct (hit ray =? 0)%Z eqn:Hh; [discriminate|].
    injection E as <-. apply dda_loop_hit. now apply Z.eqb_neq.
  - destruct m as [|m]; [lia|]. simpl in *.
    destruct (hit ray =? 0)%Z; [|assumption].
    apply bind_Ok_inv in E as (ray1 & E1 & E). rewrite E1. simpl.
    apply IH; [assumption|lia].
Qed.

Lemma dda_advance_cell (ray : t_ray F) :
  let ray' := dda_advance ray in
  stepX ray' = stepX ray /\ stepY ray' = stepY ray /\ hit ray' = hit ray /\
  ((mapX ray' = (mapX ray + stepX ray)%Z /\ mapY ray' = mapY ray)
   \/ (mapX ray' = mapX ray /\ mapY ray' = (mapY ray + stepY ray)%Z)).
Proof.
  unfold dda_advance.
  destruct (sideDistX ray <? sideDistY ray); simpl;
    (do 3 (split; [reflexivity|])); [left|right]; split; reflexivity.
Qed.

Lemma dda_loop_reaches_wall (grid : list string) (W H : Z) :
  rectangular grid W H = true ->
  enclosed grid W H = true ->
  forall (fuel : nat) (ray : t_ray F),
    hit ray = 0%Z ->
    (stepX ray = 1 \/ stepX ray = -1)%Z ->
    (stepY ray = 1 \/ stepY ray = -1)%Z ->
    (0 < mapX ray < W - 1)%Z ->
    (0 < mapY ray < H - 1)%Z ->
    (room W (mapX ray) (stepX ray) + room H (mapY ray) (stepY ray) - 1
     <= Z.of_nat fuel)%Z ->
    exists ray',
      dda_loop grid fuel ray = Ok ray' /\
      hit ray' = 1%Z /\
      tile grid (mapY ray') (mapX ray') = Some "1"%char.
Proof.
  intros Hrect Hencl. induction fuel as [|fuel IH];
    intros ray Hhit HsX HsY HX HY Hroom.
  - exfalso. unfold room in Hroom.
    destruct HsX as [EX | EX], HsY as [EY | EY];
      rewrite EX, EY in Hroom; simpl in Hroom; lia.
  - simpl. rewrite Hhit. simpl. unfold dda_step.
    destruct (dda_advance_cell ray) as (EsX & EsY & Eh & Emove).
    set (ray1 := dda_advance ray) in *.
    assert (Hin : (0 <= mapY ray1 < H /\ 0 <= mapX ray1 < W)%Z).
    { destruct Emove as [[E1 E2] | [E1 E2]]; rewrite E1, E2;
        destruct HsX as [EX | EX], HsY as [EY | EY]; lia. }
    destruct (rectangular_tile grid W H (mapY ray1) (mapX ray1) Hrect)
      as [c Hc]; [lia..|].
    rewrite (tile_cell _ _ _ _ Hc). simpl.
    destruct (is_wall c) eqn:Hw.
    + exists (set_hit ray1 1). split; [|split].
      * apply dda_loop_hit. simpl. discriminate.
      * reflexivity.
      * simpl. unfold is_wall in Hw. apply Ascii.eqb_eq in Hw. now subst.
    + assert (Hb : on_border W H (mapY ray1) (mapX ray1) = false).
      { destruct (on_border W H (mapY ray1) (mapX ray1)) eqn:Hb; [|reflexivity].
        rewrite (enclosed_wall grid W H _ _ Hencl (proj1 Hin) (proj2 Hin) Hb)
          in Hc.
        injection Hc as <-. discriminate. }
      unfold on_border in Hb. repeat rewrite orb_false_iff in Hb.
      destruct Hb as [[[Hb1 Hb2] Hb3] Hb4].
      apply Z.eqb_neq in Hb1, Hb2, Hb3, Hb4.
      apply IH; try congruence; try lia.
      rewrite EsX, EsY. unfold room in *.
      destruct Emove as [[E1 E2] | [E1 E2]]; rewrite E1, E2;
        destruct HsX as [EX | EX], HsY as [EY | EY];
        rewrite EX, EY in *; simpl in *; lia.
Qed.

(** C3.  On a rectangular [W] x [H] grid whose outer border is all walls, a
    ray that starts on a cell strictly inside the grid, with steps [+1] or
    [-1] on each axis and whatever side distances, leaves the loop of
    [perform_dda] after at most [W + H] passes: every budget of [W + H]
    passes or more gives the same returned ray, no read leaves the grid,
    and the ray stops on a wall cell of the grid. *)
Theorem perform_dda_terminates (grid : list string) (W H : Z)
    (ray : t_ray F) :
  rectangular grid W H = true ->
  enclosed grid W H = true ->
  (0 < mapX ray < W - 1)%Z ->
  (0 < mapY ray < H - 1)%Z ->
  hit ray = 0%Z ->
  (stepX ray = 1 \/ stepX ray = -1)%Z ->
  (stepY ray = 1 \/ stepY ray = -1)%Z ->
  exists ray',
    (forall fuel : nat,
        (Z.to_nat (W + H) <= fuel)%nat ->
        perform_dda grid fuel ray = Ok ray') /\
    hit ray' = 1%Z /\
    tile grid (mapY ray') (mapX ray') = Some "1"%char.
Proof.
  intros Hrect Hencl HX HY Hhit HsX HsY.
  destruct (dda_loop_reaches_wall grid W H Hrect Hencl (Z.to_nat (W + H)) ray)
    as (ray1 & Eloop & Hh & Hwall); try assumption.
  { unfold room. destruct HsX as [EX | EX], HsY as [EY | EY];
      rewrite EX, EY; simpl; lia. }
  eexists. split; [|split].
  - intros fuel Hfuel. unfold perform_dda.
    rewrite (dda_loop_more_fuel grid _ fuel ray ray1 Eloop Hfuel).
    simpl. reflexivity.
  - exact Hh.
  - exact Hwall.
Qed.

(** The steps that [compute_initial_steps] sets are [+1] or [-1], and it
    leaves the cell and the hit flag of the ray. *)
Lemma compute_initial_steps_signs (ray : t_ray F) (player : t_player F) :
  let ray' := compute_initial_steps ray player in
  (stepX ray' = 1 \/ stepX ray' = -1)%Z /\
  (stepY ray' = 1 \/ stepY ray' = -1)%Z /\
  mapX ray' = mapX ray /\ mapY ray' = mapY ray /\ hit ray' = hit ray.
Proof.
  unfold compute_initial_steps.
  destruct (rayDirX ray <? of_int 0), (rayDirY ray <? of_int 0); simpl;
    repeat split; auto.
Qed.

Lemma init_ray_cell (ray ray' : t_ray F) (column : Z) (player : t_player F) :
  init_ray ray column player = Ok ray' ->
  to_int (x player) = Some (mapX ray') /\
  to_int (y player) = Some (mapY ray') /\
  hit ray' = 0%Z.
Proof.
  unfold init_ray. intros E.
  apply bind_Ok_inv in E as (q & _ & E).
  apply bind_Ok_inv in E as (mx & Hx & E). apply of_option_Ok_inv in Hx.
  apply bind_Ok_inv in E as (my & Hy & E). apply of_option_Ok_inv in Hy.
  apply bind_Ok_inv in E as (dx & _ & E).
  apply bind_Ok_inv in E as (dy & _ & E).
  injection E as <-. simpl. auto.
Qed.

(** The distance that [perform_dda] returns undoes the last addition on the
    axis of the last step. *)
Lemma perform_dda_distance (grid : list string) (fuel : nat)
    (ray ray' : t_ray F) :
  perform_dda grid fuel ray = Ok ray' ->
  perpWallDist ray'
  = (if (side ray' =? 0)%Z
     then sideDistX ray' - deltaDistX ray'
     else sideDistY ray' - deltaDistY ray').
Proof.
  unfold perform_dda. intros E.
  apply bind_Ok_inv in E as (ray1 & _ & E). injection E as <-. reflexivity.
Qed.

(** One pass of the loop when the x side is nearer, and when it is not. *)
Lemma dda_step_x (grid : list string) (ray : t_ray F) (c : ascii) :
  (sideDistX ray <? sideDistY ray) = true ->
  cell grid (mapY ray) (mapX ray + stepX ray) = Ok c ->
  exists ray',
    dda_step grid ray = Ok ray' /\
    mapX ray' = (mapX ray + stepX ray)%Z /\ mapY ray' = mapY ray /\
    sideDistX ray' = sideDistX ray + deltaDistX ray /\
    sideDistY ray' = sideDistY ray /\
    deltaDistX ray' = deltaDistX ray /\ deltaDistY ray' = deltaDistY ray /\
    stepX ray' = stepX ray /\ stepY ray' = stepY ray /\
    side ray' = 0%Z /\
    hit ray' = (if is_wall c then 1%Z else hit ray).
Proof.
  intros Hlt Hc. unfold dda_step, dda_advance. rewrite Hlt. simpl.
  rewrite Hc. simpl. eexists. split; [reflexivity|].
  destruct (is_wall c); simpl; repeat split; reflexivity.
Qed.

Lemma dda_step_y (grid : list string) (ray : t_ray F) (c : ascii) :
  (sideDistX ray <? sideDistY ray) = false ->
  cell grid (mapY ray + stepY ray) (mapX ray) = Ok c ->
  exists ray',
    dda_step grid ray = Ok ray' /\
    mapX ray' = mapX ray /\ mapY ray' = (mapY ray + stepY ray)%Z /\
    sideDistX ray' = sideDistX ray /\
    sideDistY ray' = sideDistY ray + deltaDistY ray /\
    deltaDistX ray' = deltaDistX ray /\ deltaDistY ray' = deltaDistY ray /\
    stepX ray' = stepX ray /\ stepY ray' = stepY ray /\
    side ray' = 1%Z /\
    hit ray' = (if is_wall c then 1%Z else hit ray).
Proof.
  intros Hlt Hc. unfold dda_step, dda_advance. rewrite Hlt. simpl.
  rewrite Hc. simpl. eexists. split; [reflexivity|].
  destruct (is_wall c); simpl; repeat split; reflexivity.
Qed.

Lemma dda_loop_pass (grid : list string) (fuel : nat) (ray ray' : t_ray F) :
  hit ray = 0%Z ->
  dda_step grid ray = Ok ray' ->
  dda_loop grid (S fuel) ray = dda_loop grid fuel ray'.
Proof. intros Hh Hs. simpl. rewrite Hh, Hs. reflexivity. Qed.

(** A player on an open cell of an enclosed grid is strictly inside it. *)
Lemma open_cell_interior (grid : list string) (W H : Z) (p : t_player F) :
  rectangular grid W H = true ->
  enclosed grid W H = true ->
  open_cell grid p = true ->
  exists row col,
    to_int (y p) = Some row /\ to_int (x p) = Some col /\
    (0 < col < W - 1)%Z /\ (0 < row < H - 1)%Z.
Proof.
  intros Hrect Hencl Hopen. unfold open_cell in Hopen.
  destruct (to_int (y p)) as [row|]; [|discriminate].
  destruct (to_int (x p)) as [col|]; [|discriminate].
  destruct (tile grid row col) as [c|] eqn:Hc; [|discriminate].
  destruct (tile_inside grid W H row col c Hrect Hc) as [Hr Hcl].
  exists row, col. split; [reflexivity|]. split; [reflexivity|].
  destruct (on_border W H row col) eqn:Hb.
  - rewrite (enclosed_wall grid W H row col Hencl Hr Hcl Hb) in Hc.
    injection Hc as <-. discriminate.
  - unfold on_border in Hb. repeat rewrite orb_false_iff in Hb.
    destruct Hb as [[[Hb1 Hb2] Hb3] Hb4].
    apply Z.eqb_neq in Hb1, Hb2, Hb3, Hb4. lia.
Qed.

(** The ray of any column, set up by [init_ray] and [compute_initial_steps]
    for a player on an open cell of an enclosed grid, reaches a wall within
    [W + H] passes. *)
Lemma cast_ray_reaches_wall (grid : list string) (W H : Z)
    (ray0 ray1 : t_ray F) (column : Z) (p : t_player F) :
  rectangular grid W H = true ->
  enclosed grid W H = true ->
  open_cell grid p = true ->
  init_ray ray0 column p = Ok ray1 ->
  exists ray',
    (forall fuel : nat,
        (Z.to_nat (W + H) <= fuel)%nat ->
        cast_ray grid fuel ray0 column p = Ok ray') /\
    hit ray' = 1%Z /\
    tile grid (mapY ray') (mapX ray') = Some "1"%char.
Proof.
  intros Hrect Hencl Hopen Hinit.
  destruct (open_cell_interior grid W H p Hrect Hencl Hopen)
    as (row & col & Hy & Hx & Hcol & Hrow).
  destruct (init_ray_cell _ _ _ _ Hinit) as (Hx1 & Hy1 & Hh1).
  rewrite Hx in Hx1. rewrite Hy in Hy1.
  injection Hx1 as Hx1. injection Hy1 as Hy1.
  destruct (compute_initial_steps_signs ray1 p)
    as (HsX & HsY & HmX & HmY & Hh).
  set (ray2 := compute_initial_steps ray1 p) in *.
  destruct (dda_loop_reaches_wall grid W H Hrect Hencl
              (Z.to_nat (W + H)) ray2)
    as (ray3 & Eloop & Hh3 & Hwall); try assumption; try lia.
  { unfold room. rewrite HmX, HmY.
    destruct HsX as [EX | EX], HsY as [EY | EY];
      rewrite EX, EY; simpl; lia. }
  eexists. split; [|split].
  - intros fuel Hfuel. unfold cast_ray. rewrite Hinit. cbn [bind].
    fold ray2. unfold perform_dda.
    rewrite (dda_loop_more_fuel grid _ fuel ray2 ray3 Eloop Hfuel).
    reflexivity.
  - exact Hh3.
  - exact Hwall.
Qed.

End Traversal.

(** ** Start-up, for every arithmetic *)

Section Startup.

Context {F : Type} {ops : FloatOps F}.

Lemma scan_cells_failed (grid : list string) (cells : list (Z * Z))
    (acc : result (option (t_player F))) :
  (forall player, acc <> Ok player) ->
  fold_left (scan_cell grid) cells acc = acc.
Proof.
  revert acc. induction cells as [|pos cells IH]; intros acc Hacc;
    [reflexivity|].
  simpl. destruct acc as [player| |]; [now destruct (Hacc player)| |];
    simpl; apply IH; discriminate.
Qed.

Lemma scan_row_fold (grid : list string) (row : Z)
    (acc : result (option (t_player F))) :
  (player <- acc ;; scan_row grid row player)
  = fold_left (scan_cell grid)
      (List.map (fun col => (row, col)) (range MAP_WIDTH)) acc.
Proof.
  assert (E : forall cols a,
             fold_left
               (fun acc col =>
                  player <- acc ;;
                  c <- cell grid row col ;;
                  Ok (if Ascii.eqb c "P"
                      then Some (spawn_at col row) else player))
               cols a
             = fold_left (scan_cell grid)
                 (List.map (fun col => (row, col)) cols) a).
  { induction cols as [|col cols IH]; intros a; [reflexivity|].
    simpl. rewrite IH. reflexivity. }
  unfold scan_row. destruct acc as [player| |].
  - exact (E _ _).
  - rewrite scan_cells_failed by discriminate. reflexivity.
  - rewrite scan_cells_failed by discriminate. reflexivity.
Qed.

Lemma find_spawn_fold (grid : list string) :
  find_spawn grid = fold_left (scan_cell grid) scan_order (Ok None).
Proof.
  unfold find_spawn, scan_order.
  generalize (Ok None : result (option (t_player F))) as acc.
  generalize (range MAP_HEIGHT) as rows.
  induction rows as [|row rows IH]; intros acc; [reflexivity|].
  cbn [fold_left flat_map].
  rewrite fold_left_app, IH, scan_row_fold. reflexivity.
Qed.

Lemma last_of_cons (pos : Z * Z) (ms : list (Z * Z)) :
  last_of (pos :: ms)
  = match last_of ms with
    | Some m => Some m
    | None => Some pos
    end.
Proof.
  unfold last_of. revert pos. induction ms as [|m ms IH]; intros pos.
  - reflexivity.
  - change (last (List.map Some (pos :: m :: ms)) None)
      with (last (List.map Some (m :: ms)) None).
    rewrite (IH m). destruct (last (List.map Some ms) None); reflexivity.
Qed.

Lemma scan_cell_tile (grid : list string) (pos : Z * Z)
    (acc : option (t_player F)) :
  tile grid (fst pos) (snd pos) <> None ->
  scan_cell grid (Ok acc) pos
  = Ok (if marked grid pos
        then Some (spawn_at (snd pos) (fst pos)) else acc).
Proof.
  unfold scan_cell, marked. intros Ht.
  destruct (tile grid (fst pos) (snd pos)) as [c|] eqn:Hc; [|congruence].
  rewrite (tile_cell _ _ _ _ Hc). reflexivity.
Qed.

Lemma scan_cells (grid : list string) (cells : list (Z * Z))
    (acc : option (t_player F)) :
  (forall pos, In pos cells -> tile grid (fst pos) (snd pos) <> None) ->
  fold_left (scan_cell grid) cells (Ok acc)
  = Ok (match last_of (filter (marked grid) cells) with
        | Some (row, col) => Some (spawn_at col row)
        | None => acc
        end).
Proof.
  revert acc. induction cells as [|pos cells IH]; intros acc Hall.
  - reflexivity.
  - cbn [fold_left filter].
    rewrite scan_cell_tile by (apply Hall; now left).
    rewrite IH by (intros q Hq; apply Hall; now right).
    destruct (marked grid pos); [|reflexivity].
    rewrite last_of_cons.
    destruct (last_of (filter (marked grid) cells)) as [[r c]|];
      [reflexivity|]. destruct pos; reflexivity.
Qed.

(** C9, as the code has it.  On a 16 x 16 grid the scan of [main] always
    returns and reports no error: the player is placed at the centre of the
    last cell holding ['P'] in the order of the scan (rows from the top,
    columns from the left), facing (0, -1) with plane (0.66, 0).  So a grid
    with one marker starts the player at the centre of that cell, a grid
    with several starts it at the last one, and a grid with none leaves the
    player unassigned. *)
Theorem find_spawn_takes_last_marker (grid : list string) :
  rectangular grid MAP_WIDTH MAP_HEIGHT = true ->
  find_spawn grid
  = Ok (match last_of (markers grid) with
        | Some (row, col) => Some (spawn_at col row)
        | None => None
        end)
  /\ (forall row col,
        markers grid = [(row, col)] ->
        find_spawn grid = Ok (Some (spawn_at col row)))
  /\ (forall ms row col,
        markers grid = ms ++ [(row, col)] ->
        find_spawn grid = Ok (Some (spawn_at col row)))
  /\ (markers grid = [] -> find_spawn grid = Ok None).
Proof.
  intros Hrect.
  assert (E : find_spawn grid
              = Ok (match last_of (markers grid) with
                    | Some (row, col) => Some (spawn_at col row)
                    | None => None
                    end)).
  { rewrite find_spawn_fold. apply scan_cells.
    intros [row col] Hin. unfold scan_order in Hin.
    apply in_flat_map in Hin as (r & Hr & Hin).
    apply in_map_iff in Hin as (c & Hpos & Hc).
    injection Hpos as <- <-. apply In_range in Hr, Hc. simpl.
    destruct (rectangular_tile grid _ _ r c Hrect Hr Hc) as [ch ->].
    discriminate. }
  split; [exact E|]. split; [|split].
  - intros row col Hm. rewrite E, Hm. reflexivity.
  - intros ms row col Hm. rewrite E, Hm. unfold last_of.
    rewrite map_app. simpl. rewrite last_last. reflexivity.
  - intros Hm. rewrite E, Hm. reflexivity.
Qed.

End Startup.

(** ** Shades *)

Section Projection.

Context {F : Type} {ops : FloatOps F}.
Local Open Scope float_scope.

(** The bands of [get_shade] never brighten with the distance, whatever the
    arithmetic, as soon as its comparison is transitive. *)
Lemma get_shade_monotone_any :
  (forall a b c : F, (a <? b) = true -> (b <? c) = true -> (a <? c) = true) ->
  forall d1 d2 : F,
    (d1 <? d2) = true ->
    (intensity (get_shade d2) <= intensity (get_shade d1))%Z.
Proof.
  intros T d1 d2 Hlt. unfold get_shade.
  destruct (d2 <? lit 1.5) eqn:E1.
  { rewrite (T _ _ _ Hlt E1). apply Z.le_refl. }
  destruct (d2 <? lit 3.0) eqn:E2.
  { rewrite (T _ _ _ Hlt E2). destruct (d1 <? lit 1.5); vm_compute; discriminate. }
  destruct (d2 <? lit 5.0) eqn:E3.
  { rewrite (T _ _ _ Hlt E3).
    destruct (d1 <? lit 1.5), (d1 <? lit 3.0); vm_compute; discriminate. }
  destruct (d2 <? lit 7.0) eqn:E4.
  { rewrite (T _ _ _ Hlt E4).
    destruct (d1 <? lit 1.5), (d1 <? lit 3.0), (d1 <? lit 5.0);
      vm_compute; discriminate. }
  destruct (d1 <? lit 1.5), (d1 <? lit 3.0), (d1 <? lit 5.0),
    (d1 <? lit 7.0); vm_compute; discriminate.
Qed.

(** The slice of [compute_wall_slice] is the slice of the height that the
    division and the cast give. *)
Lemma compute_wall_slice_height (ray : t_ray F) (q : F) (lineHeight : Z) :
  fdiv (of_int SCREEN_HEIGHT) (perpWallDist ray) = Some q ->
  to_int q = Some lineHeight ->
  lineHeight <> INT_MIN ->
  compute_wall_slice ray
  = Ok {| draw_start := fst (clip_rows (slice_rows lineHeight));
          draw_end := snd (clip_rows (slice_rows lineHeight));
          wallColor := get_shade (perpWallDist ray) |}.
Proof.
  intros Hq HL Hmin. unfold compute_wall_slice. rewrite Hq. simpl.
  rewrite HL. simpl. apply Z.eqb_neq in Hmin. rewrite Hmin.
  destruct (clip_rows (slice_rows lineHeight)); reflexivity.
Qed.

End Projection.

(** The rows of a slice of height [lineHeight >= 0]. *)
Lemma slice_rows_centred (lineHeight : Z) :
  0 <= lineHeight ->
  let half := SCREEN_HEIGHT ÷ 2 in
  let rows := slice_rows lineHeight in
  let shown := clip_rows rows in
  fst rows = half - lineHeight ÷ 2 /\
  snd rows = half + lineHeight ÷ 2 /\
  fst shown = clamp 0 (SCREEN_HEIGHT - 1) (fst rows) /\
  snd shown = clamp 0 (SCREEN_HEIGHT - 1) (snd rows) /\
  fst rows + snd rows = SCREEN_HEIGHT /\
  SCREEN_HEIGHT - 1 <= fst shown + snd shown <= SCREEN_HEIGHT.
Proof.
  intros HL. unfold slice_rows, clip_rows, clamp, SCREEN_HEIGHT.
  rewrite Z.quot_opp_l by discriminate.
  assert (Hq : 0 <= lineHeight ÷ 2) by (apply Z.quot_pos; lia).
  change (50 ÷ 2) with 25. cbn [fst snd].
  destruct (Z.ltb_spec (- (lineHeight ÷ 2) + 25) 0),
    (Z.geb_spec (lineHeight ÷ 2 + 25) 50); cbn [fst snd]; lia.
Qed.

(** The rows of a slice of any height: C's [/] truncates towards zero, so
    the halves of [lineHeight] and of [- lineHeight] are opposite. *)
Lemma slice_rows_halves (lineHeight : Z) :
  fst (slice_rows lineHeight) = SCREEN_HEIGHT ÷ 2 - lineHeight ÷ 2 /\
  snd (slice_rows lineHeight) = SCREEN_HEIGHT ÷ 2 + lineHeight ÷ 2 /\
  fst (slice_rows lineHeight) + snd (slice_rows lineHeight) = SCREEN_HEIGHT.
Proof.
  unfold slice_rows, SCREEN_HEIGHT. cbn [fst snd].
  rewrite Z.quot_opp_l by discriminate.
  change (50 ÷ 2) with 25. repeat split; lia.
Qed.

Lemma clip_rows_bounds (rows : Z * Z) :
  fst (clip_rows rows) = Z.max 0 (fst rows) /\
  snd (clip_rows rows) = Z.min (SCREEN_HEIGHT - 1) (snd rows).
Proof.
  destruct rows as [start end_]. unfold clip_rows, SCREEN_HEIGHT.
  cbn [fst snd].
  destruct (Z.ltb_spec start 0); destruct (Z.geb_spec end_ 50); split; lia.
Qed.

(** ** The wall slice, for every arithmetic *)

Section Slices.

Context {F : Type} {ops : FloatOps F}.
Local Open Scope float_scope.

(** C5, as the code has it.  [compute_wall_slice] divides [SCREEN_HEIGHT] by
    the distance as the ray holds it: no lower bound is put on it first, and
    the call depends on the ray through that distance alone.  When the
    quotient is not a number, or is a number that the cast to [int] gives
    no value, or one that it turns into [INT_MIN], the call has no defined
    result; otherwise the height is the [int] that the cast gives. *)
Theorem wall_slice_divides_by_distance (ray : t_ray F) :
  (fdiv (of_int SCREEN_HEIGHT) (perpWallDist ray) = None ->
   compute_wall_slice ray = Undefined) /\
  (forall q : F,
      fdiv (of_int SCREEN_HEIGHT) (perpWallDist ray) = Some q ->
      to_int q = None ->
      compute_wall_slice ray = Undefined) /\
  (forall (q : F) (lineHeight : Z),
      fdiv (of_int SCREEN_HEIGHT) (perpWallDist ray) = Some q ->
      to_int q = Some lineHeight ->
      compute_wall_slice ray
      = if (lineHeight =? INT_MIN)%Z then Undefined
        else Ok {| draw_start := fst (clip_rows (slice_rows lineHeight));
                   draw_end := snd (clip_rows (slice_rows lineHeight));
                   wallColor := get_shade (perpWallDist ray) |}) /\
  (forall ray' : t_ray F,
      perpWallDist ray' = perpWallDist ray ->
      compute_wall_slice ray' = compute_wall_slice ray).
Proof.
  split; [|split; [|split]].
  - intros E. unfold compute_wall_slice. rewrite E. reflexivity.
  - intros q E N. unfold compute_wall_slice. rewrite E. cbn [of_option bind].
    rewrite N. reflexivity.
  - intros q lineHeight E N. unfold compute_wall_slice.
    rewrite E. cbn [of_option bind]. rewrite N. cbn [of_option bind].
    destruct (lineHeight =? INT_MIN)%Z; [reflexivity|].
    destruct (clip_rows (slice_rows lineHeight)); reflexivity.
  - intros ray' E. unfold compute_wall_slice. rewrite E. reflexivity.
Qed.

(** C6, as the code has it.  For a distance whose quotient
    [SCREEN_HEIGHT / perpWallDist] is a number that the cast turns into an
    [int] [lineHeight] other than [INT_MIN], [compute_wall_slice] returns.
    The rows it computes first are [H/2 - lineHeight/2] and
    [H/2 + lineHeight/2], which add up to [H]; it stores the first one
    raised to 0 when negative and the second one lowered to [H - 1] when
    beyond; for [lineHeight >= 0] both stored rows are the computed ones
    brought into [[0, H - 1]], and they add up to [H - 1] or [H]. *)
Theorem wall_slice_centred (ray : t_ray F) (q : F) (lineHeight : Z) :
  fdiv (of_int SCREEN_HEIGHT) (perpWallDist ray) = Some q ->
  to_int q = Some lineHeight ->
  lineHeight <> INT_MIN ->
  exists slice,
    compute_wall_slice ray = Ok slice /\
    let rows := slice_rows lineHeight in
    fst rows = (SCREEN_HEIGHT ÷ 2 - lineHeight ÷ 2)%Z /\
    snd rows = (SCREEN_HEIGHT ÷ 2 + lineHeight ÷ 2)%Z /\
    (fst rows + snd rows = SCREEN_HEIGHT)%Z /\
    draw_start slice = Z.max 0 (fst rows) /\
    draw_end slice = Z.min (SCREEN_HEIGHT - 1) (snd rows) /\
    ((0 <= lineHeight)%Z ->
     draw_start slice = clamp 0 (SCREEN_HEIGHT - 1) (fst rows) /\
     draw_end slice = clamp 0 (SCREEN_HEIGHT - 1) (snd rows) /\
     (SCREEN_HEIGHT - 1 <= draw_start slice + draw_end slice
      <= SCREEN_HEIGHT)%Z).
Proof.
  intros E N M.
  rewrite (compute_wall_slice_height ray q lineHeight E N M).
  eexists. split; [reflexivity|]. cbv zeta. cbn [draw_start draw_end].
  destruct (slice_rows_halves lineHeight) as (H1 & H2 & H3).
  destruct (clip_rows_bounds (slice_rows lineHeight)) as [C1 C2].
  split; [exact H1|]. split; [exact H2|]. split; [exact H3|].
  split; [exact C1|]. split; [exact C2|].
  intros HL.
  assert (Hq : (0 <= lineHeight ÷ 2)%Z) by (apply Z.quot_pos; lia).
  rewrite C1, C2, H1, H2. unfold clamp, SCREEN_HEIGHT.
  change (50 ÷ 2)%Z with 25%Z. repeat split; lia.
Qed.

End Slices.

(** ** The program on the rationals *)

Section Rationals.

Local Open Scope Q_scope.

Lemma Q_lt_spec (a b : Q) : Q_lt a b = true <-> a < b.
Proof.
  unfold Q_lt. rewrite Qlt_alt. destruct (a ?= b); split; congruence.
Qed.

Lemma Q_lt_false (a b : Q) : Q_lt a b = false <-> b <= a.
Proof.
  rewrite <- Bool.not_true_iff_false, Q_lt_spec. split.
  - apply Qnot_lt_le.
  - intros H1 H2. apply (Qlt_irrefl a). eapply Qlt_le_trans; eassumption.
Qed.

Lemma Q_div_defined (a b : Q) : ~ b == 0 -> Q_div a b = Some (a / b).
Proof.
  intros Hb. unfold Q_div. destruct (Qeq_bool b 0) eqn:E; [|reflexivity].
  apply Qeq_bool_eq in E. contradiction.
Qed.

Lemma Q_div_zero (a b : Q) : b == 0 -> Q_div a b = None.
Proof.
  intros Hb. unfold Q_div. now rewrite (Qeq_eq_bool _ _ Hb).
Qed.

Lemma Qtrunc_floor (q : Q) : 0 <= q -> Qtrunc q = Qfloor q.
Proof.
  destruct q as [n d]. unfold Qle, Qtrunc, Qfloor. simpl. intros Hn.
  apply Z.quot_div_nonneg; lia.
Qed.

Lemma Qtrunc_nonneg (q : Q) : 0 <= q -> (0 <= Qtrunc q)%Z.
Proof.
  destruct q as [n d]. unfold Qle, Qtrunc. simpl. intros Hn.
  apply Z.quot_pos; lia.
Qed.

(** Settles the comparisons of the goal that linear arithmetic decides. *)
Ltac decide_lt :=
  repeat match goal with
    | |- context [Q_lt ?a ?b] =>
        let E := fresh "E" in
        first [ assert (E : Q_lt a b = true) by (apply Q_lt_spec; Lqa.lra)
              | assert (E : Q_lt a b = false) by (apply Q_lt_false; Lqa.lra) ];
        rewrite E
    end.

(** C7.  The shade never brightens with the distance: for [d1 < d2] the
    intensity of the shade of [d1] is at least that of [d2].  The shades
    come in five bands, cut at the distances 1.5, 3, 5 and 7, of
    intensities 355, 260, 190, 120 and 70. *)
Theorem get_shade_monotone (d1 d2 : Q) :
  d1 < d2 ->
  (intensity (get_shade d2) <= intensity (get_shade d1))%Z /\
  (forall d : Q,
      (d < 1.5 -> get_shade d = RED_1) /\
      (1.5 <= d -> d < 3 -> get_shade d = RED_2) /\
      (3 <= d -> d < 5 -> get_shade d = RED_3) /\
      (5 <= d -> d < 7 -> get_shade d = RED_4) /\
      (7 <= d -> get_shade d = RED_5)) /\
  List.map intensity [RED_1; RED_2; RED_3; RED_4; RED_5]
  = [355; 260; 190; 120; 70]%Z.
Proof.
  intros Hlt. split; [|split].
  - apply get_shade_monotone_any.
    + intros a b c Hab Hbc. apply Q_lt_spec in Hab, Hbc. apply Q_lt_spec.
      eapply Qlt_trans; eassumption.
    + now apply Q_lt_spec.
  - intros d. unfold get_shade. cbn [flt lit Q_ops].
    repeat split; intros; decide_lt; reflexivity.
  - reflexivity.
Qed.

Lemma Q_to_int_defined (q : Q) :
  (INT_MIN <= Qtrunc q <= INT_MAX)%Z -> Q_to_int q = Some (Qtrunc q).
Proof.
  intros [Hlo Hhi]. unfold Q_to_int, in_int.
  apply Z.leb_le in Hlo, Hhi. now rewrite Hlo, Hhi.
Qed.

Lemma Q_to_int_inv (q : Q) (z : Z) :
  Q_to_int q = Some z -> z = Qtrunc q /\ in_int z = true.
Proof.
  unfold Q_to_int. destruct (in_int (Qtrunc q)) eqn:E; [|discriminate].
  intros H. injection H as <-. auto.
Qed.

Lemma height_nonneg (dist : Q) :
  0 < dist -> 0 <= inject_Z SCREEN_HEIGHT / dist.
Proof.
  intros Hd. apply Qlt_le_weak. apply Qlt_shift_div_l; [assumption|].
  rewrite Qmult_0_l. reflexivity.
Qed.

(** *** Integer parts *)

Lemma Qtrunc_opp (q : Q) : Qtrunc (- q) = (- Qtrunc q)%Z.
Proof.
  destruct q as [n d]. unfold Qtrunc. simpl.
  apply Z.quot_opp_l. discriminate.
Qed.

Lemma Qtrunc_comp (q q' : Q) : q == q' -> Qtrunc q = Qtrunc q'.
Proof.
  intros E. destruct (Qlt_le_dec q 0) as [Hneg|Hpos].
  - assert (H1 : 0 <= - q) by Lqa.lra.
    assert (H2 : 0 <= - q') by Lqa.lra.
    apply Z.opp_inj. rewrite <- !Qtrunc_opp.
    rewrite (Qtrunc_floor _ H1), (Qtrunc_floor _ H2).
    apply Qfloor_comp. now rewrite E.
  - assert (H2 : 0 <= q') by Lqa.lra.
    rewrite (Qtrunc_floor _ Hpos), (Qtrunc_floor _ H2).
    now apply Qfloor_comp.
Qed.

Lemma Qfloor_unique (z : Z) (q : Q) :
  inject_Z z <= q -> q < inject_Z z + 1 -> Qfloor q = z.
Proof.
  intros Hlo Hhi.
  pose proof (Qfloor_le q) as H1. pose proof (Qlt_floor q) as H2.
  assert (A : (Qfloor q < z + 1)%Z).
  { rewrite Zlt_Qlt, inject_Z_plus.
    apply (Qle_lt_trans _ q); [exact H1 | exact Hhi]. }
  assert (B : (z < Qfloor q + 1)%Z).
  { rewrite Zlt_Qlt. apply (Qle_lt_trans _ q); assumption. }
  lia.
Qed.

Lemma Qtrunc_unique (z : Z) (q : Q) :
  (0 <= z)%Z -> inject_Z z <= q -> q < inject_Z z + 1 -> Qtrunc q = z.
Proof.
  intros Hz Hlo Hhi. rewrite Qtrunc_floor.
  - now apply Qfloor_unique.
  - apply (Qle_trans _ (inject_Z z)); [|assumption].
    change 0 with (inject_Z 0). now rewrite <- Zle_Qle.
Qed.

(** The centre of the cell of a non-negative [int] index lies in it. *)
Lemma Q_to_int_centre (q : Q) (z : Z) :
  (0 <= z <= INT_MAX)%Z -> q == inject_Z z + 0.5 -> Q_to_int q = Some z.
Proof.
  intros Hz E.
  assert (T : Qtrunc q = z) by (apply Qtrunc_unique; [lia|Lqa.lra..]).
  unfold Q_to_int, in_int. rewrite T.
  replace (INT_MIN <=? z)%Z with true
    by (symmetry; apply Z.leb_le; unfold INT_MIN; lia).
  replace (z <=? INT_MAX)%Z with true by (symmetry; apply Z.leb_le; lia).
  reflexivity.
Qed.

(** *** Rays along an axis *)

Lemma inject_Z_succ (n : nat) :
  inject_Z (Z.of_nat (S n)) == inject_Z (Z.of_nat n) + 1.
Proof.
  rewrite Nat2Z.inj_succ. unfold Z.succ. rewrite inject_Z_plus. reflexivity.
Qed.

(** A ray whose x side stays nearer walks along its row: after [n] open
    cells it stops on the wall that follows them. *)
Lemma walk_x (grid : list string) (n : nat) :
  forall (ray : t_ray Q) (fuel : nat),
    hit ray = 0%Z ->
    deltaDistX ray == 1 ->
    sideDistX ray + inject_Z (Z.of_nat n) < sideDistY ray ->
    (forall k, (1 <= k <= Z.of_nat n)%Z ->
       exists c, cell grid (mapY ray) (mapX ray + k * stepX ray) = Ok c
                 /\ is_wall c = false) ->
    cell grid (mapY ray) (mapX ray + (Z.of_nat n + 1) * stepX ray)
    = Ok "1"%char ->
    (n < fuel)%nat ->
    exists ray',
      dda_loop grid fuel ray = Ok ray' /\
      side ray' = 0%Z /\
      mapX ray' = (mapX ray + (Z.of_nat n + 1) * stepX ray)%Z /\
      mapY ray' = mapY ray /\
      sideDistX ray' - deltaDistX ray' == sideDistX ray + inject_Z (Z.of_nat n).
Proof.
  induction n as [|n IH]; intros ray fuel Hh Hd Hnear Hopen Hwall Hfuel;
    (destruct fuel as [|fuel]; [lia|]).
  - assert (Hlt : flt (sideDistX ray) (sideDistY ray) = true).
    { apply Q_lt_spec. change (inject_Z (Z.of_nat 0)) with 0 in Hnear.
      Lqa.lra. }
    replace (mapX ray + (Z.of_nat 0 + 1) * stepX ray)%Z
      with (mapX ray + stepX ray)%Z in * by lia.
    destruct (dda_step_x grid ray _ Hlt Hwall)
      as (ray' & Hs & HmX & HmY & HsX & HsY & HdX & HdY & HtX & HtY & Hside & Hh').
    rewrite (dda_loop_pass grid fuel ray ray' Hh Hs).
    rewrite dda_loop_hit by (rewrite Hh'; discriminate).
    eexists. split; [reflexivity|]. repeat split; try assumption.
    rewrite HsX, HdX. cbn [fadd Q_ops].
    change (inject_Z (Z.of_nat 0)) with 0. Lqa.lra.
  - assert (Hlt : flt (sideDistX ray) (sideDistY ray) = true).
    { apply Q_lt_spec. rewrite inject_Z_succ in Hnear.
      assert (0 <= inject_Z (Z.of_nat n)).
      { change 0 with (inject_Z 0). rewrite <- Zle_Qle. lia. }
      Lqa.lra. }
    destruct (Hopen 1%Z) as (c & Hc & Hfree); [lia|].
    replace (mapX ray + 1 * stepX ray)%Z with (mapX ray + stepX ray)%Z in Hc
      by lia.
    destruct (dda_step_x grid ray _ Hlt Hc)
      as (ray1 & Hs & HmX & HmY & HsX & HsY & HdX & HdY & HtX & HtY & Hside & Hh').
    rewrite Hfree in Hh'.
    rewrite (dda_loop_pass grid fuel ray ray1 Hh Hs).
    destruct (IH ray1 fuel) as (ray' & El & Es & EmX & EmY & Ed).
    + congruence.
    + now rewrite HdX.
    + rewrite HsX, HsY. cbn [fadd Q_ops]. rewrite inject_Z_succ in Hnear.
      Lqa.lra.
    + intros k Hk. rewrite HmX, HmY, HtX.
      destruct (Hopen (k + 1)%Z) as (c' & Hc' & Hf'); [lia|].
      exists c'. split; [|assumption]. rewrite <- Hc'. f_equal. lia.
    + rewrite HmX, HmY, HtX. rewrite <- Hwall. f_equal. lia.
    + lia.
    + exists ray'. split; [assumption|]. split; [assumption|].
      split; [rewrite EmX, HmX, HtX; lia|]. split; [congruence|].
      rewrite Ed, HsX. cbn [fadd Q_ops]. rewrite inject_Z_succ. Lqa.lra.
Qed.

(** A ray whose x side is never nearer walks along its column. *)
Lemma walk_y (grid : list string) (n : nat) :
  forall (ray : t_ray Q) (fuel : nat),
    hit ray = 0%Z ->
    deltaDistY ray == 1 ->
    sideDistY ray + inject_Z (Z.of_nat n) <= sideDistX ray ->
    (forall k, (1 <= k <= Z.of_nat n)%Z ->
       exists c, cell grid (mapY ray + k * stepY ray) (mapX ray) = Ok c
                 /\ is_wall c = false) ->
    cell grid (mapY ray + (Z.of_nat n + 1) * stepY ray) (mapX ray)
    = Ok "1"%char ->
    (n < fuel)%nat ->
    exists ray',
      dda_loop grid fuel ray = Ok ray' /\
      side ray' = 1%Z /\
      mapX ray' = mapX ray /\
      mapY ray' = (mapY ray + (Z.of_nat n + 1) * stepY ray)%Z /\
      sideDistY ray' - deltaDistY ray' == sideDistY ray + inject_Z (Z.of_nat n).
Proof.
  induction n as [|n IH]; intros ray fuel Hh Hd Hnear Hopen Hwall Hfuel;
    (destruct fuel as [|fuel]; [lia|]).
  - assert (Hlt : flt (sideDistX ray) (sideDistY ray) = false).
    { apply Q_lt_false. change (inject_Z (Z.of_nat 0)) with 0 in Hnear.
      Lqa.lra. }
    replace (mapY ray + (Z.of_nat 0 + 1) * stepY ray)%Z
      with (mapY ray + stepY ray)%Z in * by lia.
    destruct (dda_step_y grid ray _ Hlt Hwall)
      as (ray' & Hs & HmX & HmY & HsX & HsY & HdX & HdY & HtX & HtY & Hside & Hh').
    rewrite (dda_loop_pass grid fuel ray ray' Hh Hs).
    rewrite dda_loop_hit by (rewrite Hh'; discriminate).
    eexists. split; [reflexivity|]. repeat split; try assumption.
    rewrite HsY, HdY. cbn [fadd Q_ops].
    change (inject_Z (Z.of_nat 0)) with 0. Lqa.lra.
  - assert (Hlt : flt (sideDistX ray) (sideDistY ray) = false).
    { apply Q_lt_false. rewrite inject_Z_succ in Hnear.
      assert (0 <= inject_Z (Z.of_nat n)).
      { change 0 with (inject_Z 0). rewrite <- Zle_Qle. lia. }
      Lqa.lra. }
    destruct (Hopen 1%Z) as (c & Hc & Hfree); [lia|].
    replace (mapY ray + 1 * stepY ray)%Z with (mapY ray + stepY ray)%Z in Hc
      by lia.
    destruct (dda_step_y grid ray _ Hlt Hc)
      as (ray1 & Hs & HmX & HmY & HsX & HsY & HdX & HdY & HtX & HtY & Hside & Hh').
    rewrite Hfree in Hh'.
    rewrite (dda_loop_pass grid fuel ray ray1 Hh Hs).
    destruct (IH ray1 fuel) as (ray' & El & Es & EmX & EmY & Ed).
    + congruence.
    + now rewrite HdY.
    + rewrite HsX, HsY. cbn [fadd Q_ops]. rewrite inject_Z_succ in Hnear.
      Lqa.lra.
    + intros k Hk. rewrite HmX, HmY, HtY.
      destruct (Hopen (k + 1)%Z) as (c' & Hc' & Hf'); [lia|].
      exists c'. split; [|assumption]. rewrite <- Hc'. f_equal. lia.
    + rewrite HmX, HmY, HtY. rewrite <- Hwall. f_equal. lia.
    + lia.
    + exists ray'. split; [assumption|]. split; [assumption|].
      split; [congruence|]. split; [rewrite EmY, HmY, HtY; lia|].
      rewrite Ed, HsY. cbn [fadd Q_ops]. rewrite inject_Z_succ. Lqa.lra.
Qed.

Lemma delta_dist_Q (r : Q) : delta_dist r = Ok (delta r).
Proof.
  unfold delta_dist, delta. cbn [feq fdiv fabs of_int lit Q_ops].
  change (inject_Z 0) with 0. change (inject_Z 1) with 1.
  destruct (Qeq_bool r 0) eqn:E; cbn [negb]; [reflexivity|].
  rewrite Q_div_defined; [reflexivity|].
  intros H. apply Qeq_eq_bool in H. congruence.
Qed.

Lemma init_ray_Q (ray : t_ray Q) (column : Z) (p : t_player Q)
    (col row : Z) :
  Q_to_int (x p) = Some col ->
  Q_to_int (y p) = Some row ->
  init_ray ray column p
  = Ok {| cameraX := camera column;
          rayDirX := dirX p + planeX p * camera column;
          rayDirY := dirY p + planeY p * camera column;
          mapX := col;
          mapY := row;
          deltaDistX := delta (dirX p + planeX p * camera column);
          deltaDistY := delta (dirY p + planeY p * camera column);
          sideDistX := sideDistX ray;
          sideDistY := sideDistY ray;
          stepX := stepX ray;
          stepY := stepY ray;
          hit := 0;
          side := side ray;
          perpWallDist := perpWallDist ray |}.
Proof.
  intros Hx Hy. unfold init_ray.
  cbn [fdiv fsub fadd fmul of_int to_int Q_ops].
  rewrite Q_div_defined by discriminate. cbn [of_option bind].
  rewrite Hx, Hy. cbn [of_option bind]. rewrite !delta_dist_Q. reflexivity.
Qed.

Lemma camera_centre : camera (SCREEN_WIDTH ÷ 2) == 0.
Proof. reflexivity. Qed.

Lemma delta_zero (r : Q) : r == 0 -> delta r = 1e30.
Proof. intros E. unfold delta. now rewrite (Qeq_eq_bool _ _ E). Qed.

Lemma delta_unit (r : Q) : Qabs r == 1 -> delta r == 1.
Proof.
  intros E. unfold delta.
  destruct (Qeq_bool r 0) eqn:E0.
  - apply Qeq_bool_eq in E0. rewrite E0 in E. discriminate.
  - unfold Qdiv. rewrite Qmult_1_l, Qabs_Qinv, E. reflexivity.
Qed.

Lemma dda_loop_keeps_camera (grid : list string) (fuel : nat) :
  forall ray ray' : t_ray Q,
    dda_loop grid fuel ray = Ok ray' -> cameraX ray' = cameraX ray.
Proof.
  induction fuel as [|fuel IH]; intros ray ray' E; simpl in E;
    destruct (hit ray =? 0)%Z; try discriminate;
    try (injection E as <-; reflexivity).
  apply bind_Ok_inv in E as (ray1 & E1 & E). rewrite (IH _ _ E).
  unfold dda_step in E1. apply bind_Ok_inv in E1 as (c & _ & E1).
  injection E1 as <-. unfold dda_advance.
  destruct (is_wall c), (flt (sideDistX ray) (sideDistY ray)); reflexivity.
Qed.

(** The common part of the four directions of a ray along an axis, once the
    signs and the deltas of the ray are known: [walk] is [walk_x] or
    [walk_y]. *)
Ltac ride walk :=
  match goal with
  | |- context [perform_dda ?grid ?fuel ?r] =>
      let ray2 := fresh "ray2" in
      set (ray2 := r);
      let ray' := fresh "ray'" in
      let El := fresh "El" in
      let Es := fresh "Es" in
      let EmX := fresh "EmX" in
      let EmY := fresh "EmY" in
      let Ed := fresh "Ed" in
      match goal with
      | Hn : inject_Z (Z.of_nat ?n) == _ |- _ =>
          destruct (walk grid n ray2 fuel)
            as (ray' & El & Es & EmX & EmY & Ed)
      end;
      [ reflexivity
      | first [ match goal with H : delta _ == 1 |- _ => exact H end ]
      | subst ray2; cbn [sideDistX sideDistY];
        repeat match goal with
          | H : _ == _ |- _ => rewrite H
          | H : delta _ = _ |- _ => rewrite H
          end;
        set (far := 1e30) in *; clearbody far; Lqa.lra
      | intros k Hk;
        match goal with
        | Hopen : forall k : Z, _ -> exists c : ascii, _ |- _ =>
            let c := fresh "c" in
            let Hc := fresh "Hc" in
            let Hf := fresh "Hf" in
            destruct (Hopen k) as (c & Hc & Hf); [lia|];
            exists c; split; [|exact Hf]; rewrite <- Hc;
            subst ray2; cbn [mapX mapY stepX stepY]; f_equal; lia
        end
      | match goal with
        | Hwall : cell _ _ _ = Ok "1"%char |- _ =>
            rewrite <- Hwall; subst ray2; cbn [mapX mapY stepX stepY];
            f_equal; lia
        end
      | lia
      | unfold perform_dda; rewrite El; cbn [bind]; rewrite Es;
        eexists; split; [reflexivity|];
        cbn [cameraX perpWallDist side mapX mapY set_perpWallDist Z.eqb];
        split;
        [ rewrite (dda_loop_keeps_camera _ _ _ _ El); assumption |];
        split;
        [ cbn [fsub Q_ops]; rewrite Ed; subst ray2;
          cbn [sideDistX sideDistY];
          repeat match goal with
            | H : _ == _ |- _ => rewrite H
            end;
          ring |];
        split; [exact Es|];
        split; [ rewrite EmX | rewrite EmY ];
        subst ray2; cbn [mapX mapY stepX stepY]; lia ]
  end.

Lemma sentinel_beyond_int : 4294967296 < 1e30.
Proof. reflexivity. Qed.

(** C4, as the code has it.  [perform_dda] returns as distance the side
    distance of the axis of the last step, less one delta of that axis.
    For a player at the centre of the cell ([col], [row]) who faces along a
    grid axis, with every cell before the [d]-th one open and the [d]-th one
    a wall, the ray of the middle column (camera coordinate 0) stops on that
    wall, on the side of the axis faced, and its distance is [d - 1/2]: the
    distance from the centre of the cell to the near face of the wall, not
    the whole number [d]. *)
Theorem straight_ray_distance (grid : list string) (p : t_player Q)
    (col row dX dY d : Z) (ray0 : t_ray Q) (fuel : nat) :
  x p == inject_Z col + 0.5 ->
  y p == inject_Z row + 0.5 ->
  (0 <= col <= INT_MAX)%Z ->
  (0 <= row <= INT_MAX)%Z ->
  dirX p == inject_Z dX ->
  dirY p == inject_Z dY ->
  (dX = 1 /\ dY = 0 \/ dX = -1 /\ dY = 0 \/
   dX = 0 /\ dY = 1 \/ dX = 0 /\ dY = -1)%Z ->
  (1 <= d <= INT_MAX)%Z ->
  (forall k, (1 <= k < d)%Z ->
     exists c, cell grid (row + k * dY) (col + k * dX) = Ok c
               /\ is_wall c = false) ->
  cell grid (row + d * dY) (col + d * dX) = Ok "1"%char ->
  (Z.to_nat d <= fuel)%nat ->
  (forall (fuel' : nat) (r r' : t_ray Q),
      perform_dda grid fuel' r = Ok r' ->
      perpWallDist r'
      = if (side r' =? 0)%Z
        then sideDistX r' - deltaDistX r'
        else sideDistY r' - deltaDistY r') /\
  exists ray,
    cast_ray grid fuel ray0 (SCREEN_WIDTH ÷ 2) p = Ok ray /\
    cameraX ray == 0 /\
    perpWallDist ray == inject_Z d - 0.5 /\
    side ray = (if (dX =? 0)%Z then 1 else 0)%Z /\
    mapX ray = (col + d * dX)%Z /\
    mapY ray = (row + d * dY)%Z.
Proof.
  intros Hx Hy Hcol Hrow HdX HdY Hdir Hd Hopen Hwall Hfuel.
  split; [intros fuel' r r' E; exact (perform_dda_distance grid fuel' r r' E)|].
  unfold cast_ray.
  rewrite (init_ray_Q ray0 _ p col row)
    by (apply Q_to_int_centre; assumption).
  cbn [bind].
  set (cam := camera (SCREEN_WIDTH ÷ 2)).
  assert (Hcam : cam == 0) by apply camera_centre.
  assert (HrX : dirX p + planeX p * cam == inject_Z dX)
    by (rewrite Hcam, HdX; ring).
  assert (HrY : dirY p + planeY p * cam == inject_Z dY)
    by (rewrite Hcam, HdY; ring).
  set (rX := dirX p + planeX p * cam) in *.
  set (rY := dirY p + planeY p * cam) in *.
  unfold compute_initial_steps. cbn [rayDirX rayDirY mapX mapY deltaDistX deltaDistY sideDistX sideDistY stepX stepY hit side perpWallDist cameraX].
  cbn [flt fsub fadd fmul of_int lit Q_ops].
  assert (Hn : inject_Z (Z.of_nat (Z.to_nat (d - 1))) == inject_Z d - 1).
  { rewrite Z2Nat.id by lia. unfold Zminus. rewrite inject_Z_plus. reflexivity. }
  assert (Hbig : inject_Z d <= inject_Z INT_MAX) by (rewrite <- Zle_Qle; lia).
  change (inject_Z INT_MAX) with 2147483647 in Hbig.
  change (inject_Z 0) with 0.
  assert (Hnn : (Z.of_nat (Z.to_nat (d - 1)) + 1 = d)%Z)
    by (rewrite Z2Nat.id; lia).
  pose proof sentinel_beyond_int as Hfar.
  destruct Hdir as [[-> ->]|[[-> ->]|[[-> ->]|[-> ->]]]].
  - assert (BX : Q_lt rX 0 = false)
      by (apply Q_lt_false; rewrite HrX; discriminate).
    assert (BY : Q_lt rY 0 = false)
      by (apply Q_lt_false; rewrite HrY; discriminate).
    assert (DX : delta rX == 1) by (apply delta_unit; rewrite HrX; reflexivity).
    assert (DY : delta rY = 1e30) by (apply delta_zero; exact HrY).
    rewrite BX, BY. cbv iota beta. ride walk_x.
  - assert (BX : Q_lt rX 0 = true)
      by (apply Q_lt_spec; rewrite HrX; reflexivity).
    assert (BY : Q_lt rY 0 = false)
      by (apply Q_lt_false; rewrite HrY; discriminate).
    assert (DX : delta rX == 1) by (apply delta_unit; rewrite HrX; reflexivity).
    assert (DY : delta rY = 1e30) by (apply delta_zero; exact HrY).
    rewrite BX, BY. cbv iota beta. ride walk_x.
  - assert (BX : Q_lt rX 0 = false)
      by (apply Q_lt_false; rewrite HrX; discriminate).
    assert (BY : Q_lt rY 0 = false)
      by (apply Q_lt_false; rewrite HrY; discriminate).
    assert (DX : delta rX = 1e30) by (apply delta_zero; exact HrX).
    assert (DY : delta rY == 1) by (apply delta_unit; rewrite HrY; reflexivity).
    rewrite BX, BY. cbv iota beta. ride walk_y.
  - assert (BX : Q_lt rX 0 = false)
      by (apply Q_lt_false; rewrite HrX; discriminate).
    assert (BY : Q_lt rY 0 = true)
      by (apply Q_lt_spec; rewrite HrY; reflexivity).
    assert (DX : delta rX = 1e30) by (apply delta_zero; exact HrX).
    assert (DY : delta rY == 1) by (apply delta_unit; rewrite HrY; reflexivity).
    rewrite BX, BY. cbv iota beta. ride walk_y.
Qed.
(** *** Every column, every short step *)

(** On the rationals the set-up of a ray never fails for a player on an open
    cell, so every column of the screen gets a ray that stops on a wall. *)
Lemma cast_ray_total (grid : list string) (W H : Z) (ray0 : t_ray Q)
    (column : Z) (p : t_player Q) :
  rectangular grid W H = true ->
  enclosed grid W H = true ->
  open_cell grid p = true ->
  exists ray',
    (forall fuel : nat,
        (Z.to_nat (W + H) <= fuel)%nat ->
        cast_ray grid fuel ray0 column p = Ok ray') /\
    hit ray' = 1%Z /\
    tile grid (mapY ray') (mapX ray') = Some "1"%char.
Proof.
  intros Hrect Hencl Hopen.
  destruct (open_cell_interior grid W H p Hrect Hencl Hopen)
    as (row & col & Hy & Hx & _).
  eapply cast_ray_reaches_wall; try eassumption.
  apply (init_ray_Q ray0 column p col row); assumption.
Qed.

Lemma Qtrunc_cell (q : Q) (z : Z) :
  Qtrunc q = z -> (1 <= z)%Z -> inject_Z z <= q /\ q < inject_Z z + 1.
Proof.
  intros E Hz. destruct (Qlt_le_dec q 0) as [Hneg|Hpos].
  - exfalso. assert (H0 : 0 <= - q) by Lqa.lra.
    pose proof (Qtrunc_nonneg _ H0) as H1. rewrite Qtrunc_opp in H1. lia.
  - rewrite (Qtrunc_floor _ Hpos) in E. subst z. split.
    + apply Qfloor_le.
    + pose proof (Qlt_floor q) as H1. rewrite inject_Z_plus in H1. exact H1.
Qed.

(** A step of at most one cell from a cell strictly inside [0 .. n - 1]
    lands in [0 .. n - 1]. *)
Lemma short_step_cell (q d : Q) (z n : Z) :
  Qtrunc q = z -> (1 <= z <= n - 2)%Z -> (n <= INT_MAX)%Z ->
  -1 <= d -> d <= 1 ->
  exists z', Q_to_int (q + d) = Some z' /\ (0 <= z' < n)%Z.
Proof.
  intros E Hz Hn Hlo Hhi.
  destruct (Qtrunc_cell q z E) as [H1 H2]; [lia|].
  assert (Hz0 : 0 <= inject_Z (z - 1)).
  { change 0 with (inject_Z 0). rewrite <- Zle_Qle. lia. }
  assert (Hm : inject_Z (z - 1) == inject_Z z - 1).
  { unfold Z.sub. rewrite inject_Z_plus. reflexivity. }
  assert (Hge : inject_Z (z - 1) <= q + d) by (rewrite Hm; Lqa.lra).
  assert (Hpos : 0 <= q + d) by (apply (Qle_trans _ _ _ Hz0 Hge)).
  assert (L : (z - 1 <= Qfloor (q + d))%Z).
  { rewrite <- (Qfloor_Z (z - 1)). now apply Qfloor_resp_le. }
  assert (U : (Qfloor (q + d) < z + 2)%Z).
  { rewrite Zlt_Qlt. apply (Qle_lt_trans _ (q + d)); [apply Qfloor_le|].
    rewrite inject_Z_plus. change (inject_Z 2) with 2. Lqa.lra. }
  exists (Qtrunc (q + d)). rewrite (Qtrunc_floor _ Hpos).
  split; [|lia].
  rewrite <- (Qtrunc_floor _ Hpos). apply Q_to_int_defined.
  rewrite (Qtrunc_floor _ Hpos). unfold INT_MIN. lia.
Qed.

(** On an enclosed grid, for a player on an open cell whose direction and
    plane have no component beyond 10 in size (so that no step is longer
    than a cell: the program's vectors have lengths 1 and 0.66), every
    candidate of a translation key falls on the grid. *)
Lemma short_step_lands_on_grid (grid : list string) (W H : Z)
    (p : t_player Q) (key : ascii) (newX newY : Q) :
  rectangular grid W H = true ->
  enclosed grid W H = true ->
  (W <= INT_MAX)%Z -> (H <= INT_MAX)%Z ->
  open_cell grid p = true ->
  Qabs (dirX p) <= 10 -> Qabs (dirY p) <= 10 ->
  Qabs (planeX p) <= 10 -> Qabs (planeY p) <= 10 ->
  candidate p key = Some (newX, newY) ->
  lands_on_grid W H newX newY = true.
Proof.
  intros Hrect Hencl HW HH Hopen HdX HdY HpX HpY Hc.
  destruct (open_cell_interior grid W H p Hrect Hencl Hopen)
    as (row & col & Hy & Hx & Hcol & Hrow).
  apply Q_to_int_inv in Hy as [Hy _]. apply Q_to_int_inv in Hx as [Hx _].
  apply Qabs_Qle_condition in HdX, HdY, HpX, HpY.
  assert (Hstep : forall q d z n,
             Qtrunc q = z -> (1 <= z <= n - 2)%Z -> (n <= INT_MAX)%Z ->
             -10 <= d /\ d <= 10 ->
             (exists z', Q_to_int (q + d * 0.1) = Some z' /\ (0 <= z' < n)%Z)
             /\ (exists z', Q_to_int (q - d * 0.1) = Some z'
                            /\ (0 <= z' < n)%Z)).
  { intros q d z n E Hz Hn [Hlo Hhi]. split.
    - apply (short_step_cell q (d * 0.1) z n); try assumption; Lqa.lra.
    - change (q - d * 0.1) with (q + - (d * 0.1)).
      apply (short_step_cell q (- (d * 0.1)) z n); try assumption; Lqa.lra. }
  assert (Hland : forall X Y col' row',
             Q_to_int X = Some col' -> (0 <= col' < W)%Z ->
             Q_to_int Y = Some row' -> (0 <= row' < H)%Z ->
             lands_on_grid W H X Y = true).
  { intros X Y col' row' EX HX EY HY. unfold lands_on_grid.
    cbn [to_int Q_ops]. rewrite EX, EY.
    repeat rewrite andb_true_iff. repeat split;
      first [apply Z.leb_le | apply Z.ltb_lt]; lia. }
  symmetry in Hx, Hy.
  destruct (Hstep (x p) (dirX p) col W Hx) as [(a1 & A1 & A1') (a2 & A2 & A2')];
    [lia|assumption|assumption|].
  destruct (Hstep (y p) (dirY p) row H Hy) as [(b1 & B1 & B1') (b2 & B2 & B2')];
    [lia|assumption|assumption|].
  destruct (Hstep (x p) (planeX p) col W Hx)
    as [(c1 & C1 & C1') (c2 & C2 & C2')]; [lia|assumption|assumption|].
  destruct (Hstep (y p) (planeY p) row H Hy)
    as [(d1 & D1 & D1') (d2 & D2 & D2')]; [lia|assumption|assumption|].
  revert Hc. unfold candidate, moveSpeed. cbn [fadd fsub fmul lit Q_ops].
  destruct (Ascii.eqb key "w");
    [intros E; injection E as <- <-; eapply Hland; eassumption|].
  destruct (Ascii.eqb key "s");
    [intros E; injection E as <- <-; eapply Hland; eassumption|].
  destruct (Ascii.eqb key "a");
    [intros E; injection E as <- <-; eapply Hland; eassumption|].
  destruct (Ascii.eqb key "d");
    [intros E; injection E as <- <-; eapply Hland; eassumption|].
  discriminate.
Qed.

(** *** The cosine and the sine *)

(** The polynomials that stand for the cosine and the sine on the rationals
    miss [c * c + s * s = 1] at [rotSpeed] by less than 10^-12. *)
Lemma Q_cos_sin_rotSpeed :
  Qabs (Q_cos 0.05 * Q_cos 0.05 + Q_sin 0.05 * Q_sin 0.05 - 1)
  < 1 / 1000000000000.
Proof. vm_compute. reflexivity. Qed.

End Rationals.

(** ** Rotation, for every arithmetic *)

Section Rotation.

Context {F : Type} {ops : FloatOps F}.
Local Open Scope float_scope.

Lemma turn_rotate (p : t_player F) (c s : F) :
  turn p c s
  = {| x := x p; y := y p;
       dirX := fst (rotate c s (dirX p, dirY p));
       dirY := snd (rotate c s (dirX p, dirY p));
       planeX := fst (rotate c s (planeX p, planeY p));
       planeY := snd (rotate c s (planeX p, planeY p)) |}.
Proof. reflexivity. Qed.

Lemma move_player_rotation (grid : list string) (p : t_player F)
    (key : ascii) :
  (key = "e" \/ key = "q")%char ->
  move_player grid p key = Ok (turn p (key_cos key) (key_sin key)).
Proof.
  intros [ -> | -> ]; [apply move_player_e | apply move_player_q].
Qed.

(** A sequence of rotation keys leaves the position and applies to the
    direction and to the plane the rotations of its keys, in order. *)
Lemma move_players_rotations (grid : list string) (keys : list ascii) :
  Forall (fun key : ascii => key = "e" \/ key = "q")%char keys ->
  forall p : t_player F,
    move_players grid p keys
    = Ok {| x := x p; y := y p;
            dirX := fst (rotations keys (dirX p, dirY p));
            dirY := snd (rotations keys (dirX p, dirY p));
            planeX := fst (rotations keys (planeX p, planeY p));
            planeY := snd (rotations keys (planeX p, planeY p)) |}.
Proof.
  induction 1 as [|key keys Hkey _ IH]; intros p.
  - destruct p; reflexivity.
  - cbn [move_players]. rewrite (move_player_rotation grid p key Hkey).
    cbn [bind]. rewrite IH, turn_rotate.
    cbn [x y dirX dirY planeX planeY]. unfold rotations. cbn [fold_left].
    repeat rewrite <- surjective_pairing. reflexivity.
Qed.

End Rotation.

(** ** Rotation, under the standard model of rounding *)

Section Rounding.

Context {F : Type} {ops : FloatOps F}.
Local Open Scope R_scope.

Variable val : F -> R.
Variables u eta kappa M : R.

Hypothesis Hu : 0 <= u.
Hypothesis Heta : 0 <= eta.
Hypothesis Hkappa : 0 <= kappa <= 1.
Hypothesis Hmodel : error_model val u eta M.

Lemma product_bound (v w a b : R) :
  - a <= v <= a -> - b <= w <= b -> - (a * b) <= v * w <= a * b.
Proof. intros [A1 A2] [B1 B2]. split; Lra.nra. Qed.

Lemma Rabs_le_inv (v a : R) : Rabs v <= a -> - a <= v <= a.
Proof.
  unfold Rabs. destruct (Rcase_abs v); intros H; split; Lra.lra.
Qed.

Lemma Rabs_interval (v : R) : - Rabs v <= v <= Rabs v.
Proof. apply Rabs_le_inv, Rle_refl. Qed.

Lemma Rabs_square (v : R) : Rabs v * Rabs v = v * v.
Proof.
  rewrite <- Rabs_mult. apply Rabs_pos_eq. Lra.nra.
Qed.

Lemma slack_nonneg (r : R) : 0 <= r -> 0 <= slack u eta kappa r.
Proof.
  intros Hr. unfold slack. destruct Hkappa as [K0 _].
  assert (A : 0 <= (2 * u + u * u) * (1 + kappa)) by Lra.nra.
  assert (B : 0 <= (2 * u + u * u) * (1 + kappa) * r)
    by (apply Rmult_le_pos; assumption).
  assert (C : 0 <= (3 + 2 * u) * eta) by Lra.nra.
  Lra.lra.
Qed.

(** The error of [a * c - b * s] and of [a * s + b * c]. *)
Lemma combination_error (sub : bool) (a b c s : F) :
  Rabs (val a) <= M -> Rabs (val b) <= M ->
  Rabs (val c) <= M -> Rabs (val s) <= M ->
  (1 + u) * Rabs (val a * val c) + eta <= M ->
  (1 + u) * Rabs (val b * val s) + eta <= M ->
  Rabs (val (if sub then fsub (fmul a c) (fmul b s)
             else fadd (fmul a c) (fmul b s))
        - (if sub then val a * val c - val b * val s
           else val a * val c + val b * val s))
  <= (2 * u + u * u) * (Rabs (val a * val c) + Rabs (val b * val s))
     + (3 + 2 * u) * eta.
Proof.
  intros Ra Rb Rc Rs RP1 RP2.
  destruct Hmodel as (Hmul & Hadd & Hsub).
  pose proof (Hmul a c Ra Rc) as H1. pose proof (Hmul b s Rb Rs) as H2.
  pose proof (Rabs_interval (val a * val c)) as I1.
  pose proof (Rabs_interval (val b * val s)) as I2.
  pose proof (Rabs_pos (val a * val c)) as P1.
  pose proof (Rabs_pos (val b * val s)) as P2.
  set (X1 := Rabs (val a * val c)) in *.
  set (X2 := Rabs (val b * val s)) in *.
  apply Rabs_le_inv in H1, H2.
  assert (U1 : 0 <= u * X1) by (apply Rmult_le_pos; assumption).
  assert (U2 : 0 <= u * X2) by (apply Rmult_le_pos; assumption).
  assert (UU1 : 0 <= u * (u * X1)) by (apply Rmult_le_pos; assumption).
  assert (UU2 : 0 <= u * (u * X2)) by (apply Rmult_le_pos; assumption).
  assert (UE : 0 <= u * eta) by (apply Rmult_le_pos; assumption).
  assert (R1 : Rabs (val (fmul a c)) <= M)
    by (apply Rabs_le; split; Lra.lra).
  assert (R2 : Rabs (val (fmul b s)) <= M)
    by (apply Rabs_le; split; Lra.lra).
  destruct sub.
  - pose proof (Hsub (fmul a c) (fmul b s) R1 R2) as H3.
    assert (B : Rabs (val (fmul a c) - val (fmul b s))
                <= X1 + X2 + (u * X1 + eta) + (u * X2 + eta))
      by (apply Rabs_le; split; Lra.lra).
    assert (MU : u * Rabs (val (fmul a c) - val (fmul b s))
                <= u * (X1 + X2 + (u * X1 + eta) + (u * X2 + eta)))
      by (apply Rmult_le_compat_l; assumption).
    apply Rabs_le_inv in H3.
    apply Rabs_le. split; Lra.lra.
  - pose proof (Hadd (fmul a c) (fmul b s) R1 R2) as H3.
    assert (B : Rabs (val (fmul a c) + val (fmul b s))
                <= X1 + X2 + (u * X1 + eta) + (u * X2 + eta))
      by (apply Rabs_le; split; Lra.lra).
    assert (MU : u * Rabs (val (fmul a c) + val (fmul b s))
                <= u * (X1 + X2 + (u * X1 + eta) + (u * X2 + eta)))
      by (apply Rmult_le_compat_l; assumption).
    apply Rabs_le_inv in H3.
    apply Rabs_le. split; Lra.lra.
Qed.

(** Cauchy and Schwarz, for two products. *)
Lemma two_products (A B C S r : R) :
  0 <= r ->
  A * A + B * B <= r * r ->
  C * C + S * S <= 1 + kappa ->
  Rabs (A * C) + Rabs (B * S) <= (1 + kappa) * r.
Proof.
  intros Hr HN HC. destruct Hkappa as [K0 _].
  rewrite !Rabs_mult.
  pose proof (Rabs_pos A) as PA. pose proof (Rabs_pos B) as PB.
  pose proof (Rabs_pos C) as PC. pose proof (Rabs_pos S) as PS.
  pose proof (Rabs_square A) as SA. pose proof (Rabs_square B) as SB.
  pose proof (Rabs_square C) as SC. pose proof (Rabs_square S) as SS.
  set (a := Rabs A) in *. set (b := Rabs B) in *.
  set (c := Rabs C) in *. set (s := Rabs S) in *.
  assert (CS : (a * c + b * s) * (a * c + b * s)
               <= (a * a + b * b) * (c * c + s * s)).
  { pose proof (Rle_0_sqr (a * s - b * c)) as D. unfold Rsqr in D.
    Lra.lra. }
  assert (T : (a * a + b * b) * (c * c + s * s)
              <= ((1 + kappa) * r) * ((1 + kappa) * r)).
  { assert (T1 : (a * a + b * b) * (c * c + s * s)
                 <= (r * r) * (1 + kappa)).
    { apply Rmult_le_compat; Lra.nra. }
    assert (T2 : 0 <= kappa * (1 + kappa) * (r * r)).
    { apply Rmult_le_pos; Lra.nra. }
    Lra.nra. }
  assert (P : 0 <= a * c + b * s).
  { assert (0 <= a * c) by (apply Rmult_le_pos; assumption).
    assert (0 <= b * s) by (apply Rmult_le_pos; assumption).
    Lra.lra. }
  assert (Q : 0 <= (1 + kappa) * r) by (apply Rmult_le_pos; Lra.lra).
  apply Rsqr_incr_0_var; [|exact Q].
  unfold Rsqr. Lra.lra.
Qed.

Lemma square_bound (A r : R) : 0 <= r -> A * A <= r * r -> Rabs A <= r.
Proof.
  intros Hr H. apply Rsqr_incr_0_var; [|exact Hr].
  unfold Rsqr. rewrite Rabs_square. exact H.
Qed.

(** The two components of a rotated vector: the exact ones, each with an
    error within the slack of the length of the vector. *)
Lemma rotate_components (a b c s : F) (r : R) :
  0 <= r ->
  2 <= M -> (1 + u) * (2 * r) + eta <= M ->
  value_norm2 val a b <= r * r ->
  val c * val c + val s * val s <= 1 + kappa ->
  let X := val a * val c - val b * val s in
  let Y := val a * val s + val b * val c in
  let e1 := val (fst (rotate c s (a, b))) - X in
  let e2 := val (snd (rotate c s (a, b))) - Y in
  (- slack u eta kappa r <= e1 <= slack u eta kappa r) /\
  (- slack u eta kappa r <= e2 <= slack u eta kappa r) /\
  (- ((1 + kappa) * r) <= X <= (1 + kappa) * r) /\
  (- ((1 + kappa) * r) <= Y <= (1 + kappa) * r).
Proof.
  intros Hr HM2 HMr HN HC X Y e1 e2. unfold value_norm2 in HN.
  destruct Hkappa as [K0 K1].
  pose proof (two_products _ _ _ _ r Hr HN HC) as T1.
  assert (HC' : val s * val s + val c * val c <= 1 + kappa) by Lra.lra.
  pose proof (two_products _ _ _ _ r Hr HN HC') as T2.
  assert (SqA : 0 <= val a * val a) by Lra.nra.
  assert (SqB : 0 <= val b * val b) by Lra.nra.
  assert (SqC : 0 <= val c * val c) by Lra.nra.
  assert (SqS : 0 <= val s * val s) by Lra.nra.
  assert (UR : 0 <= u * (2 * r)) by (apply Rmult_le_pos; Lra.lra).
  assert (Ra : Rabs (val a) <= M).
  { apply Rle_trans with r; [apply square_bound; Lra.lra | Lra.lra]. }
  assert (Rb : Rabs (val b) <= M).
  { apply Rle_trans with r; [apply square_bound; Lra.lra | Lra.lra]. }
  assert (Rc : Rabs (val c) <= M).
  { apply Rle_trans with 2; [apply square_bound; Lra.lra | Lra.lra]. }
  assert (Rs : Rabs (val s) <= M).
  { apply Rle_trans with 2; [apply square_bound; Lra.lra | Lra.lra]. }
  assert (KR : (1 + kappa) * r <= 2 * r)
    by (apply Rmult_le_compat_r; Lra.lra).
  assert (Fits : forall v : R,
             0 <= v -> v <= (1 + kappa) * r -> (1 + u) * v + eta <= M).
  { intros v V0 V1.
    assert (W : (1 + u) * v <= (1 + u) * (2 * r))
      by (apply Rmult_le_compat_l; Lra.lra).
    Lra.lra. }
  pose proof (Rabs_pos (val a * val c)) as Q1.
  pose proof (Rabs_pos (val b * val s)) as Q2.
  pose proof (Rabs_pos (val a * val s)) as Q3.
  pose proof (Rabs_pos (val b * val c)) as Q4.
  pose proof (combination_error true a b c s Ra Rb Rc Rs
                (Fits _ Q1 ltac:(Lra.lra)) (Fits _ Q2 ltac:(Lra.lra))) as E1.
  pose proof (combination_error false a b s c Ra Rb Rs Rc
                (Fits _ Q3 ltac:(Lra.lra)) (Fits _ Q4 ltac:(Lra.lra))) as E2.
  cbv iota in E1, E2. clear Fits.
  pose proof (Rabs_interval (val a * val c)) as I1.
  pose proof (Rabs_interval (val b * val s)) as I2.
  pose proof (Rabs_interval (val a * val s)) as I3.
  pose proof (Rabs_interval (val b * val c)) as I4.
  set (m1 := Rabs (val a * val c) + Rabs (val b * val s)) in *.
  set (m2 := Rabs (val a * val s) + Rabs (val b * val c)) in *.
  assert (G : 0 <= 2 * u + u * u) by Lra.nra.
  assert (M1 : (2 * u + u * u) * m1 <= (2 * u + u * u) * ((1 + kappa) * r))
    by (apply Rmult_le_compat_l; assumption).
  assert (M2 : (2 * u + u * u) * m2 <= (2 * u + u * u) * ((1 + kappa) * r))
    by (apply Rmult_le_compat_l; assumption).
  apply Rabs_le_inv in E1, E2.
  cbn [rotate fst snd]. unfold slack.
  subst e1 e2 X Y. cbn [rotate fst snd].
  repeat split; unfold m1, m2 in *; Lra.lra.
Qed.

Lemma norm_upper (X Y e1 e2 t e : R) :
  0 <= t -> 0 <= e ->
  X * X + Y * Y <= t * t ->
  - t <= X <= t -> - t <= Y <= t ->
  - e <= e1 <= e -> - e <= e2 <= e ->
  (X + e1) * (X + e1) + (Y + e2) * (Y + e2) <= (t + 2 * e) * (t + 2 * e).
Proof.
  intros Ht He HN HX HY H1 H2.
  pose proof (product_bound X e1 t e HX H1) as P1.
  pose proof (product_bound Y e2 t e HY H2) as P2.
  pose proof (product_bound e1 e1 e e H1 H1) as P3.
  pose proof (product_bound e2 e2 e e H2 H2) as P4.
  pose proof (Rmult_le_pos e e He He) as P5.
  Lra.lra.
Qed.

Lemma norm_lower (X Y e1 e2 t e : R) :
  - t <= X <= t -> - t <= Y <= t ->
  - e <= e1 <= e -> - e <= e2 <= e ->
  X * X + Y * Y - 4 * t * e
  <= (X + e1) * (X + e1) + (Y + e2) * (Y + e2).
Proof.
  intros HX HY H1 H2.
  pose proof (product_bound X e1 t e HX H1) as P1.
  pose proof (product_bound Y e2 t e HY H2) as P2.
  pose proof (Rle_0_sqr e1) as P3. pose proof (Rle_0_sqr e2) as P4.
  unfold Rsqr in P3, P4. Lra.lra.
Qed.

Lemma dot_error (Xd Yd Xp Yp e1 e2 e3 e4 td tp ed ep : R) :
  - td <= Xd <= td -> - td <= Yd <= td ->
  - tp <= Xp <= tp -> - tp <= Yp <= tp ->
  - ed <= e1 <= ed -> - ed <= e2 <= ed ->
  - ep <= e3 <= ep -> - ep <= e4 <= ep ->
  Rabs ((Xd + e1) * (Xp + e3) + (Yd + e2) * (Yp + e4)
        - (Xd * Xp + Yd * Yp))
  <= 2 * (td * ep + tp * ed) + 2 * ed * ep.
Proof.
  intros HXd HYd HXp HYp H1 H2 H3 H4.
  pose proof (product_bound Xd e3 td ep HXd H3) as P1.
  pose proof (product_bound e1 Xp ed tp H1 HXp) as P2.
  pose proof (product_bound e1 e3 ed ep H1 H3) as P3.
  pose proof (product_bound Yd e4 td ep HYd H4) as P4.
  pose proof (product_bound e2 Yp ed tp H2 HYp) as P5.
  pose proof (product_bound e2 e4 ed ep H2 H4) as P6.
  apply Rabs_le. split; Lra.lra.
Qed.

(** One rotation key keeps a player within the bounds of one more step. *)
Lemma turn_within (b : t_drift) (p : t_player F) (a : F) :
  unit_circle val kappa a ->
  in_range u eta M b ->
  within_drift val b p ->
  within_drift val (drift_step u eta kappa b) (turn p (fcos a) (fsin a)).
Proof.
  intros HC (HM2 & HMd & HMp) (Rd & Rp & Nd & Lp & Np & D).
  unfold unit_circle in HC. apply Rabs_le_inv in HC.
  destruct Hkappa as [K0 K1].
  set (c := fcos a) in *. set (s := fsin a) in *.
  assert (HC1 : val c * val c + val s * val s <= 1 + kappa) by Lra.lra.
  destruct (rotate_components (dirX p) (dirY p) c s _ Rd HM2 HMd Nd HC1)
    as (D1 & D2 & D3 & D4).
  destruct (rotate_components (planeX p) (planeY p) c s _ Rp HM2 HMp Np HC1)
    as (P1 & P2 & P3 & P4).
  cbv zeta in D1, D2, D3, D4, P1, P2, P3, P4.
  rewrite turn_rotate.
  pose proof (slack_nonneg _ Rd) as Sd. pose proof (slack_nonneg _ Rp) as Sp.
  unfold within_drift, drift_step, value_norm2, value_dot in *.
  cbn [len_dir len_plane low_plane max_dot dirX dirY planeX planeY].
  set (ed := slack u eta kappa (len_dir b)) in *.
  set (ep := slack u eta kappa (len_plane b)) in *.
  set (td := (1 + kappa) * len_dir b) in *.
  set (tp := (1 + kappa) * len_plane b) in *.
  set (Ad := val (dirX p)) in *. set (Bd := val (dirY p)) in *.
  set (Ap := val (planeX p)) in *. set (Bp := val (planeY p)) in *.
  set (C := val c) in *. set (S := val s) in *.
  set (xd := val (fst (rotate c s (dirX p, dirY p)))) in *.
  set (yd := val (snd (rotate c s (dirX p, dirY p)))) in *.
  set (xp := val (fst (rotate c s (planeX p, planeY p)))) in *.
  set (yp := val (snd (rotate c s (planeX p, planeY p)))) in *.
  set (Xd := Ad * C - Bd * S) in *. set (Yd := Ad * S + Bd * C) in *.
  set (Xp := Ap * C - Bp * S) in *. set (Yp := Ap * S + Bp * C) in *.
  set (rho := C * C + S * S) in *.
  assert (Td : 0 <= td) by (apply Rmult_le_pos; Lra.lra).
  assert (Tp : 0 <= tp) by (apply Rmult_le_pos; Lra.lra).
  assert (ENd : Xd * Xd + Yd * Yd = rho * (Ad * Ad + Bd * Bd))
    by (unfold Xd, Yd, rho; ring).
  assert (ENp : Xp * Xp + Yp * Yp = rho * (Ap * Ap + Bp * Bp))
    by (unfold Xp, Yp, rho; ring).
  assert (ED : Xd * Xp + Yd * Yp = rho * (Ad * Ap + Bd * Bp))
    by (unfold Xd, Yd, Xp, Yp, rho; ring).
  assert (N0d : 0 <= Ad * Ad + Bd * Bd) by Lra.nra.
  assert (N0p : 0 <= Ap * Ap + Bp * Bp) by Lra.nra.
  assert (UNd : Xd * Xd + Yd * Yd <= td * td).
  { rewrite ENd. unfold td.
    assert (A1 : rho * (Ad * Ad + Bd * Bd)
                 <= (1 + kappa) * (len_dir b * len_dir b))
      by (apply Rmult_le_compat; Lra.lra).
    assert (A2 : 0 <= kappa * (1 + kappa) * (len_dir b * len_dir b))
      by (apply Rmult_le_pos; Lra.nra).
    Lra.lra. }
  assert (UNp : Xp * Xp + Yp * Yp <= tp * tp).
  { rewrite ENp. unfold tp.
    assert (A1 : rho * (Ap * Ap + Bp * Bp)
                 <= (1 + kappa) * (len_plane b * len_plane b))
      by (apply Rmult_le_compat; Lra.lra).
    assert (A2 : 0 <= kappa * (1 + kappa) * (len_plane b * len_plane b))
      by (apply Rmult_le_pos; Lra.nra).
    Lra.lra. }
  assert (Exd : xd = Xd + (xd - Xd)) by ring.
  assert (Eyd : yd = Yd + (yd - Yd)) by ring.
  assert (Exp : xp = Xp + (xp - Xp)) by ring.
  assert (Eyp : yp = Yp + (yp - Yp)) by ring.
  split; [Lra.lra|]. split; [Lra.lra|].
  split; [|split; [|split]].
  - rewrite Exd, Eyd.
    replace (td + 2 * ed + 0) with (td + 2 * ed) by ring.
    pose proof (norm_upper Xd Yd _ _ td ed Td Sd UNd D3 D4 D1 D2) as U.
    Lra.lra.
  - rewrite Exp, Eyp.
    pose proof (norm_lower Xp Yp _ _ tp ep P3 P4 P1 P2) as L.
    assert (A1 : (1 - kappa) * low_plane b
                 <= rho * (Ap * Ap + Bp * Bp)).
    { apply Rle_trans with ((1 - kappa) * (Ap * Ap + Bp * Bp)).
      - apply Rmult_le_compat_l; Lra.lra.
      - apply Rmult_le_compat_r; Lra.lra. }
    unfold tp in L. Lra.lra.
  - rewrite Exp, Eyp.
    pose proof (norm_upper Xp Yp _ _ tp ep Tp Sp UNp P3 P4 P1 P2) as U.
    Lra.lra.
  - rewrite Exd, Eyd, Exp, Eyp.
    pose proof (dot_error Xd Yd Xp Yp _ _ _ _ td tp ed ep
                  D3 D4 P3 P4 D1 D2 P1 P2) as E.
    apply Rabs_le_inv in E. apply Rabs_le_inv in D.
    rewrite ED in E.
    assert (R0 : 0 <= rho) by Lra.lra.
    assert (B1 : - ((1 + kappa) * max_dot b)
                 <= rho * (Ad * Ap + Bd * Bp)
                 <= (1 + kappa) * max_dot b).
    { assert (M0 : 0 <= max_dot b) by Lra.lra.
      pose proof (product_bound rho (Ad * Ap + Bd * Bp)
                    (1 + kappa) (max_dot b)) as PB.
      apply PB; [Lra.lra | exact D]. }
    unfold td, tp in E. apply Rabs_le. split; Lra.lra.
Qed.

End Rounding.

Section RotationKeys.

Context {F : Type} {ops : FloatOps F}.
Local Open Scope R_scope.

Lemma drift_step_exact (b : t_drift) : drift_step 0 0 0 b = b.
Proof.
  destruct b as [rd rp lp md]. unfold drift_step, slack.
  cbn [len_dir len_plane low_plane max_dot]. f_equal; ring.
Qed.

Lemma drift_exact (n : nat) (b : t_drift) :
  Nat.iter n (drift_step 0 0 0) b = b.
Proof.
  induction n as [|n IH]; [reflexivity|].
  rewrite Nat.iter_succ, IH. apply drift_step_exact.
Qed.

(** The bounds on the lengths widen from step to step, so that bounds in
    range after [n] steps were in range all along. *)
Lemma drift_step_grows (u eta kappa : R) (b : t_drift) :
  0 <= u -> 0 <= eta -> 0 <= kappa <= 1 ->
  0 <= len_dir b -> 0 <= len_plane b ->
  len_dir b <= len_dir (drift_step u eta kappa b) /\
  len_plane b <= len_plane (drift_step u eta kappa b).
Proof.
  intros Hu Heta Hk Rd Rp.
  pose proof (slack_nonneg u eta kappa Hu Heta Hk _ Rd) as Sd.
  pose proof (slack_nonneg u eta kappa Hu Heta Hk _ Rp) as Sp.
  unfold drift_step. cbn [len_dir len_plane].
  assert (0 <= kappa * len_dir b) by (apply Rmult_le_pos; Lra.lra).
  assert (0 <= kappa * len_plane b) by (apply Rmult_le_pos; Lra.lra).
  split; Lra.lra.
Qed.

Lemma in_range_iter (u eta kappa M : R) (n : nat) :
  0 <= u -> 0 <= eta -> 0 <= kappa <= 1 ->
  forall b : t_drift,
    0 <= len_dir b -> 0 <= len_plane b ->
    in_range u eta M (Nat.iter n (drift_step u eta kappa) b) ->
    in_range u eta M b.
Proof.
  intros Hu Heta Hk. induction n as [|n IH]; intros b Rd Rp H; [exact H|].
  rewrite Nat.iter_succ_r in H.
  destruct (drift_step_grows u eta kappa b Hu Heta Hk Rd Rp) as [Gd Gp].
  assert (Rd' : 0 <= len_dir (drift_step u eta kappa b)) by Lra.lra.
  assert (Rp' : 0 <= len_plane (drift_step u eta kappa b)) by Lra.lra.
  destruct (IH _ Rd' Rp' H) as (H2 & Hd & Hp).
  assert (Md : (1 + u) * (2 * len_dir b)
               <= (1 + u) * (2 * len_dir (drift_step u eta kappa b)))
    by (apply Rmult_le_compat_l; Lra.lra).
  assert (Mp : (1 + u) * (2 * len_plane b)
               <= (1 + u) * (2 * len_plane (drift_step u eta kappa b)))
    by (apply Rmult_le_compat_l; Lra.lra).
  repeat split; Lra.lra.
Qed.

Lemma move_players_within (grid : list string) (val : F -> R)
    (u eta kappa M : R) (keys : list ascii) :
  Forall (fun key : ascii => key = "e" \/ key = "q")%char keys ->
  0 <= u -> 0 <= eta -> 0 <= kappa <= 1 ->
  error_model val u eta M ->
  unit_circle val kappa rotSpeed ->
  unit_circle val kappa (fneg rotSpeed) ->
  forall (b : t_drift) (p : t_player F),
    in_range u eta M
      (Nat.iter (List.length keys) (drift_step u eta kappa) b) ->
    within_drift val b p ->
    exists p',
      move_players grid p keys = Ok p' /\
      within_drift val
        (Nat.iter (List.length keys) (drift_step u eta kappa) b) p'.
Proof.
  intros Hkeys Hu Heta Hk Hm He Hq.
  induction Hkeys as [|key keys Hkey _ IH]; intros b p Hr Hb.
  - exists p. split; [reflexivity | exact Hb].
  - assert (Hr0 : in_range u eta M b).
    { destruct Hb as (Rd & Rp & _).
      exact (in_range_iter u eta kappa M _ Hu Heta Hk b Rd Rp Hr). }
    assert (H1 : within_drift val (drift_step u eta kappa b)
                   (turn p (key_cos key) (key_sin key))).
    { destruct Hkey as [ -> | -> ].
      - apply (turn_within val u eta kappa M Hu Heta Hk Hm b p rotSpeed
                 He Hr0 Hb).
      - apply (turn_within val u eta kappa M Hu Heta Hk Hm b p
                 (fneg rotSpeed) Hq Hr0 Hb). }
    cbn [List.length] in Hr. rewrite Nat.iter_succ_r in Hr.
    destruct (IH _ _ Hr H1) as (p' & E & W).
    exists p'. cbn [move_players List.length].
    rewrite (move_player_rotation grid p key Hkey). cbn [bind].
    split; [exact E|]. rewrite Nat.iter_succ_r. exact W.
Qed.

(** C8.  A sequence of rotation keys leaves the position and applies to the
    direction and to the camera plane one and the same rotations, those of
    its keys in order: with the cosine and the sine of [rotSpeed] for
    ['e'], of [- rotSpeed] for ['q'].  Under the standard model of rounding
    (unit [u], absolute error [eta], no overflow below [M]) and with a
    cosine and a sine whose squares add up to 1 within [kappa], a player
    that starts within the bounds [b] is, after [n] keys, within the bounds
    that [n] steps of [drift_step] make of [b]: the dot product of the two
    vectors and the length of the plane stay where they were up to a
    tolerance that grows with [n], [u], [eta] and [kappa], and exactly
    where they were when the three are zero. *)
Theorem rotations_keep_camera_frame (grid : list string) (val : F -> R)
    (u eta kappa M : R) (p : t_player F) (keys : list ascii)
    (b : t_drift) :
  Forall (fun key : ascii => key = "e" \/ key = "q")%char keys ->
  0 <= u -> 0 <= eta -> 0 <= kappa <= 1 ->
  error_model val u eta M ->
  unit_circle val kappa rotSpeed ->
  unit_circle val kappa (fneg rotSpeed) ->
  in_range u eta M (Nat.iter (List.length keys) (drift_step u eta kappa) b) ->
  within_drift val b p ->
  exists p',
    move_players grid p keys = Ok p' /\
    x p' = x p /\ y p' = y p /\
    (dirX p', dirY p') = rotations keys (dirX p, dirY p) /\
    (planeX p', planeY p') = rotations keys (planeX p, planeY p) /\
    within_drift val
      (Nat.iter (List.length keys) (drift_step u eta kappa) b) p' /\
    (u = 0 -> eta = 0 -> kappa = 0 ->
     within_drift val b p').
Proof.
  intros Hkeys Hu Heta Hk Hm He Hq Hr Hb.
  destruct (move_players_within grid val u eta kappa M keys
              Hkeys Hu Heta Hk Hm He Hq b p Hr Hb) as (p' & E & W).
  exists p'. split; [exact E|].
  rewrite (move_players_rotations grid keys Hkeys p) in E.
  injection E as <-. cbn [x y dirX dirY planeX planeY] in *.
  split; [reflexivity|]. split; [reflexivity|].
  split; [symmetry; apply surjective_pairing|].
  split; [symmetry; apply surjective_pairing|].
  split; [exact W|].
  intros -> -> ->. rewrite drift_exact in W. exact W.
Qed.

End RotationKeys.

(** ** The scene of the program *)

Section Scene.

Local Open Scope Q_scope.

(** Closed goals are settled by evaluation. *)
Ltac run := vm_compute; reflexivity.

Ltac run_all := repeat split; try run; intros H; vm_compute in H; discriminate.

(** Gives [exists r, t = Ok r /\ _] the value that [t] evaluates to. *)
Ltac exists_result :=
  match goal with
  | |- exists r, ?t = Ok r /\ _ =>
      let v := eval vm_compute in t in
      match v with
      | Ok ?r => exists r
      end
  end.

Lemma map_rectangular : rectangular map MAP_WIDTH MAP_HEIGHT = true.
Proof. reflexivity. Qed.

Lemma map_enclosed : enclosed map MAP_WIDTH MAP_HEIGHT = true.
Proof. reflexivity. Qed.

Lemma map_markers : markers map = [(14, 9)%Z].
Proof. reflexivity. Qed.

Lemma map_spawn : find_spawn map = Ok (Some spawn).
Proof. reflexivity. Qed.

(** C1: the statement of the spec fails on [map].  Going forward from
    [above_pillar] the candidate column is 3 and the player is in row 1; the
    cell of row 1, column 3 is open, and yet [x] is not committed, because
    the test read row 2, the row just committed.  Going forward from
    [below_pillar] the cell of the candidate column and of the row the
    player is in is a wall, and yet [x] is committed. *)
Lemma column_test_reads_committed_row :
  (exists newX newY p',
      candidate above_pillar "w" = Some (newX, newY) /\
      Q_to_int newX = Some 3%Z /\ Q_to_int (y above_pillar) = Some 1%Z /\
      tile map 1 3 = Some "0"%char /\
      move_player map above_pillar "w" = Ok p' /\
      y p' = newY /\ x p' = x above_pillar /\ ~ newX == x above_pillar) /\
  (exists newX newY p',
      candidate below_pillar "w" = Some (newX, newY) /\
      Q_to_int newX = Some 3%Z /\ Q_to_int (y below_pillar) = Some 2%Z /\
      tile map 2 3 = Some "1"%char /\
      move_player map below_pillar "w" = Ok p' /\
      y p' = newY /\ x p' = newX /\ ~ newX == x below_pillar).
Proof.
  split.
  - exists (2.95 + 0.6 * 0.1), (1.95 + 0.8 * 0.1).
    exists (mk_player 2.95 (1.95 + 0.8 * 0.1) 0.6 0.8 0.8 (-0.6)). run_all.
  - exists (2.95 + 0.6 * 0.1), (2.05 + -0.8 * 0.1).
    exists (mk_player (2.95 + 0.6 * 0.1) (2.05 + -0.8 * 0.1)
              0.6 (-0.8) 0.8 0.6). run_all.
Qed.

(** C1: an instance on [map].  From [above_pillar] the row test passes and
    the column test meets the pillar: the player slides along it. *)
Lemma translation_on_map :
  exists p',
    move_player map above_pillar "w" = Ok p' /\
    y p' == 2.03 /\ x p' == 2.95.
Proof.
  destruct (translation_tests_row_then_column map above_pillar "w"
              (2.95 + 0.6 * 0.1) (1.95 + 0.8 * 0.1) 2 2 2 3 "0" "1")
    as (p' & E & Hy & Hx & _); try run.
  exists p'. split; [exact E|]. rewrite Hy, Hx. split; run.
Defined.

(** C2: the statement of the spec fails on [map].  [long_stride] stands on
    an open cell; going forward its candidate column is 16, the byte that
    ends the row: it is not a wall, the move is committed, and the player
    then stands on no cell of the grid.  With a direction 100 cells long the
    read falls outside the row and the call has no defined result. *)
Lemma long_stride_leaves_grid :
  open_cell map long_stride = true /\
  (exists p',
      move_player map long_stride "w" = Ok p' /\
      Q_to_int (x p') = Some 16%Z /\ Q_to_int (y p') = Some 14%Z /\
      tile map 14 16 = None /\
      open_cell map p' = false) /\
  move_player map (mk_player 14.5 14.5 100 0 0 0.66) "w" = Undefined.
Proof.
  split; [run|]. split; [|run].
  exists_result. repeat split; run.
Qed.

(** C2: an instance on [map], from the spawn point. *)
Lemma spawn_step_keeps_open_cell :
  exists p', move_player map spawn "w" = Ok p' /\ open_cell map p' = true.
Proof.
  apply (move_player_keeps_open_cell map MAP_WIDTH MAP_HEIGHT spawn "w").
  - run.
  - run.
  - intros newX newY H. vm_compute in H. injection H as <- <-. run.
Defined.

(** C3: an instance on [map]. *)
Lemma first_ray_terminates :
  exists ray',
    (forall fuel : nat,
        (Z.to_nat (MAP_WIDTH + MAP_HEIGHT) <= fuel)%nat ->
        perform_dda map fuel first_ray = Ok ray') /\
    hit ray' = 1%Z /\
    tile map (mapY ray') (mapX ray') = Some "1"%char.
Proof.
  apply (perform_dda_terminates map MAP_WIDTH MAP_HEIGHT first_ray).
  - run.
  - run.
  - vm_compute. split; reflexivity.
  - vm_compute. split; reflexivity.
  - run.
  - right. run.
  - right. run.
Defined.

(** C4: the statement of the spec fails on [map].  The spawn point is the
    centre of a cell, the player faces north, the cells one and two rows up
    are open and the cell three rows up is a wall; the distance of the
    middle ray is 2.5, half a cell short of 3. *)
Lemma spawn_wall_is_two_and_a_half_away :
  find_spawn map = Ok (Some spawn) /\
  x spawn == 9 + 0.5 /\ y spawn == 14 + 0.5 /\
  dirX spawn == 0 /\ dirY spawn == -1 /\
  tile map 13 9 = Some "0"%char /\
  tile map 12 9 = Some "0"%char /\
  tile map 11 9 = Some "1"%char /\
  exists ray,
    cast_ray map 32 blank_ray (SCREEN_WIDTH ÷ 2) spawn = Ok ray /\
    cameraX ray == 0 /\
    mapX ray = 9%Z /\ mapY ray = 11%Z /\ side ray = 1%Z /\
    perpWallDist ray == 2.5 /\
    Qabs (perpWallDist ray - 3) == 0.5.
Proof.
  do 8 (split; [run|]).
  exists_result. repeat split; run.
Qed.

(** C4: an instance on [map], from the spawn point. *)
Lemma spawn_straight_ray :
  exists ray,
    cast_ray map 32 blank_ray (SCREEN_WIDTH ÷ 2) spawn = Ok ray /\
    perpWallDist ray == 3 - 0.5 /\
    side ray = 1%Z.
Proof.
  destruct (straight_ray_distance map spawn 9 14 0 (-1) 3 blank_ray 32)
    as (_ & ray & E & _ & Hd & Hs & _).
  - run.
  - run.
  - split; discriminate.
  - split; discriminate.
  - run.
  - run.
  - right. right. right. split; reflexivity.
  - split; discriminate.
  - intros k Hk. assert (Hc : k = 1%Z \/ k = 2%Z) by lia.
    destruct Hc as [-> | ->]; exists "0"%char; split; run.
  - run.
  - vm_compute. repeat constructor.
  - exists ray. repeat split; assumption.
Defined.

(** C5: the statement of the spec fails on [map].  From [at_wall] the ray of
    the middle column stops on the wall at distance 0, and
    [compute_wall_slice] divides by it: the column has no defined slice. *)
Lemma wall_at_distance_zero :
  open_cell map at_wall = true /\
  (exists ray,
      cast_ray map 32 blank_ray (SCREEN_WIDTH ÷ 2) at_wall = Ok ray /\
      perpWallDist ray == 0 /\
      compute_wall_slice ray = Undefined) /\
  cast_column map 32 blank_ray (SCREEN_WIDTH ÷ 2) at_wall = Undefined.
Proof.
  split; [run|]. split; [|run].
  exists_result. repeat split; run.
Qed.

(** C5: an instance, for a ray at distance 2.5. *)
Lemma slice_at_two_and_a_half :
  exists ray,
    cast_ray map 32 blank_ray (SCREEN_WIDTH ÷ 2) spawn = Ok ray /\
    compute_wall_slice ray
    = Ok {| draw_start := 15; draw_end := 35; wallColor := RED_2 |}.
Proof.
  exists_result. split; [run|].
  match goal with
  | |- compute_wall_slice ?r = _ =>
      destruct (wall_slice_divides_by_distance r) as (_ & _ & T & _);
      let v := eval vm_compute in
                 (fdiv (of_int SCREEN_HEIGHT) (perpWallDist r)) in
      match v with
      | Some ?q => rewrite (T q 20%Z)
      end
  end.
  - run.
  - run.
  - run.
Defined.

(** C6: the statement of the spec fails on [map].  From [under_wall] the
    ray of the middle column stops on the wall at distance 0, the quotient
    [SCREEN_HEIGHT / 0] is not a number, and the column gets no rows at
    all. *)
Lemma no_slice_at_distance_zero :
  open_cell map under_wall = true /\
  exists ray,
    cast_ray map 32 blank_ray (SCREEN_WIDTH ÷ 2) under_wall = Ok ray /\
    side ray = 1%Z /\ mapX ray = 9%Z /\ mapY ray = 11%Z /\
    perpWallDist ray == 0 /\
    fdiv (of_int SCREEN_HEIGHT) (perpWallDist ray) = None /\
    compute_wall_slice ray = Undefined.
Proof.
  split; [run|].
  exists_result. repeat split; run.
Qed.

(** C6: an instance, for a ray at distance 2.5. *)
Lemma slice_centred_at_two_and_a_half :
  exists slice,
    compute_wall_slice (set_perpWallDist blank_ray 2.5) = Ok slice /\
    draw_start slice = 15%Z /\ draw_end slice = 35%Z.
Proof.
  assert (E : exists q : Q,
             fdiv (of_int SCREEN_HEIGHT)
               (perpWallDist (set_perpWallDist blank_ray 2.5)) = Some q
             /\ to_int q = Some 20%Z).
  { eexists. split; [run | run]. }
  destruct E as (q & Eq & Eh).
  destruct (wall_slice_centred (set_perpWallDist blank_ray 2.5) q 20 Eq Eh)
    as (slice & E & _ & _ & _ & Hs & He & _).
  - discriminate.
  - exists slice. split; [exact E|]. rewrite Hs, He. split; run.
Defined.

(** C7: an instance, for the distances 1 and 4. *)
Lemma shade_of_one_and_four :
  (intensity (get_shade 4%Q) <= intensity (get_shade 1%Q))%Z.
Proof.
  apply (get_shade_monotone 1 4). run.
Defined.

(** C9: the statement of the spec fails.  On [two_markers] the scan returns
    the player of the second marker and reports nothing; on [no_marker] it
    returns with the player unassigned and reports nothing. *)
Lemma markers_are_not_validated :
  markers two_markers = [(1, 2)%Z; (14, 9)%Z] /\
  find_spawn two_markers = Ok (Some spawn) /\
  markers no_marker = [] /\
  @find_spawn Q Q_ops no_marker = Ok None.
Proof. repeat split; run. Qed.

(** C9: an instance on [map]. *)
Lemma spawn_is_centre_of_marker :
  find_spawn map
  = Ok (Some (mk_player (9 + 0.5) (14 + 0.5) 0 (-1) 0.66 0)).
Proof.
  destruct (find_spawn_takes_last_marker (F := Q) map) as (_ & H & _).
  - run.
  - apply (H 14%Z 9%Z). run.
Defined.

(** C10: instances on [map]. *)
Lemma frame_on_map :
  (exists p',
      move_player map spawn "e" = Ok p' /\ x p' = x spawn /\ y p' = y spawn)
  /\ (forall p',
        move_player map spawn "w" = Ok p' ->
        dirX p' = dirX spawn /\ dirY p' = dirY spawn /\
        planeX p' = planeX spawn /\ planeY p' = planeY spawn)
  /\ move_player map spawn "x" = Ok spawn.
Proof.
  split; [|split].
  - apply (move_player_frame map spawn "e"). left. reflexivity.
  - apply (move_player_frame map spawn "w"). left. reflexivity.
  - apply (move_player_frame map spawn "x"); discriminate.
Defined.

End Scene.

(** ** Exact arithmetic as an instance of the model of rounding *)

Section ExactRotation.

Local Open Scope R_scope.

Lemma exact_error_model (M : R) : error_model Q2R 0 0 M.
Proof.
  unfold error_model. cbn [fmul fadd fsub Q_ops].
  repeat split; intros a b _ _.
  - rewrite Q2R_mult, Rminus_diag, Rabs_R0. Lra.lra.
  - rewrite Q2R_plus, Rminus_diag, Rabs_R0. Lra.lra.
  - rewrite Q2R_minus, Rminus_diag, Rabs_R0. Lra.lra.
Qed.

Lemma Q2R_within (q k : Q) :
  (- k <= q)%Q -> (q <= k)%Q -> Rabs (Q2R q) <= Q2R k.
Proof.
  intros H1 H2. apply Qle_Rle in H1, H2. rewrite Q2R_opp in H1.
  apply Rabs_le. split; assumption.
Qed.

Lemma Q_unit_circle (a : Q) :
  (- (1 # 1000000000000) <= Q_cos a * Q_cos a + Q_sin a * Q_sin a - 1)%Q ->
  (Q_cos a * Q_cos a + Q_sin a * Q_sin a - 1 <= 1 # 1000000000000)%Q ->
  unit_circle Q2R (1 / 1000000000000) a.
Proof.
  intros H1 H2. unfold unit_circle. cbn [fcos fsin Q_ops].
  replace (Q2R (Q_cos a) * Q2R (Q_cos a) + Q2R (Q_sin a) * Q2R (Q_sin a) - 1)
    with (Q2R (Q_cos a * Q_cos a + Q_sin a * Q_sin a - 1)).
  - replace (1 / 1000000000000) with (Q2R (1 # 1000000000000)).
    + apply Q2R_within; assumption.
    + unfold Q2R. cbn [Qnum Qden]. Lra.lra.
  - rewrite Q2R_minus, Q2R_plus, !Q2R_mult.
    replace (Q2R 1) with 1 by (unfold Q2R; cbn [Qnum Qden]; Lra.lra).
    reflexivity.
Qed.

(** C8: an instance, from the spawn point, in exact arithmetic with the
    polynomials for the cosine and the sine. *)
Lemma spawn_turns :
  exists p' : t_player Q,
    move_players map spawn ["e"; "e"; "q"]%char = Ok p' /\
    x p' = x spawn /\ y p' = y spawn /\
    Rabs (value_dot Q2R p')
    <= max_dot
         (Nat.iter 3 (drift_step 0 0 (1 / 1000000000000))
            (mk_drift 1 (66 / 100) ((66 / 100) * (66 / 100)) 0)).
Proof.
  destruct (rotations_keep_camera_frame map Q2R 0 0 (1 / 1000000000000) 4
              spawn ["e"; "e"; "q"]%char
              (mk_drift 1 (66 / 100) ((66 / 100) * (66 / 100)) 0))
    as (p' & E & Ex & Ey & _ & _ & W & _).
  - repeat (apply Forall_cons;
              [first [left; reflexivity | right; reflexivity]|]).
    apply Forall_nil.
  - Lra.lra.
  - Lra.lra.
  - Lra.lra.
  - exact (exact_error_model 4).
  - apply Q_unit_circle; vm_compute; discriminate.
  - apply Q_unit_circle; vm_compute; discriminate.
  - unfold in_range, drift_step, slack.
    cbn [List.length Nat.iter nat_rect len_dir len_plane].
    repeat split; Lra.lra.
  - unfold within_drift, value_norm2, value_dot, spawn, spawn_at.
    cbn [len_dir len_plane low_plane max_dot dirX dirY planeX planeY
         of_int lit Q_ops].
    unfold Q2R. cbn [Qnum Qden inject_Z].
    rewrite Rabs_pos_eq by Lra.lra.
    repeat split; Lra.lra.
  - exists p'. split; [exact E|]. split; [exact Ex|]. split; [exact Ey|].
    destruct W as (_ & _ & _ & _ & _ & D). exact D.
Defined.

Lemma Q2R_zero : Q2R 0 = 0.
Proof. unfold Q2R. cbn [Qnum Qden]. Lra.lra. Qed.

Lemma Q2R_nonneg (q : Q) : (0 <= q)%Q -> 0 <= Q2R q.
Proof. intros H. apply Qle_Rle in H. rewrite Q2R_zero in H. exact H. Qed.

Lemma exact_order_model : order_model Q2R.
Proof.
  unfold order_model. cbn [fabs fmul fadd fsub lit of_int to_int Q_ops].
  repeat split.
  - intros a. apply Q2R_nonneg, Qabs_nonneg.
  - apply Q2R_nonneg. vm_compute. discriminate.
  - intros a b Ha Hb. rewrite Q2R_mult. apply Rmult_le_pos; assumption.
  - intros a b Ha. rewrite Q2R_plus. Lra.lra.
  - intros a b Hab. rewrite Q2R_minus. Lra.lra.
  - apply Qle_Rle. apply Q_to_int_inv in H as [-> _].
    rewrite <- Q2R_zero in H0. apply Rle_Qle in H0.
    rewrite (Qtrunc_floor _ H0). apply Qfloor_le.
  - apply Qle_Rle. apply Q_to_int_inv in H as [-> _].
    rewrite <- Q2R_zero in H0. apply Rle_Qle in H0.
    rewrite (Qtrunc_floor _ H0).
    pose proof (Qlt_floor a) as L. rewrite inject_Z_plus in L.
    change (inject_Z 1) with 1%Q in L. Lqa.lra.
Qed.

Lemma Q2R_inject_Z (z : Z) : Q2R (inject_Z z) = IZR z.
Proof. unfold Q2R. cbn [Qnum Qden inject_Z]. Lra.lra. Qed.

Lemma Q_floor_encloses (a : Q) :
  IZR (Qfloor a) <= Q2R a < IZR (Qfloor a) + 1.
Proof.
  pose proof (Qfloor_le a) as L. pose proof (Qlt_floor a) as U.
  apply Qle_Rle in L. apply Qlt_Rlt in U.
  rewrite Q2R_inject_Z in L. rewrite Q2R_inject_Z, plus_IZR in U.
  split; Lra.lra.
Qed.

Lemma Qtrunc_positive (a : Q) : (1 <= Qtrunc a)%Z -> (0 <= a)%Q.
Proof.
  destruct a as [n d]. unfold Qtrunc, Qle. cbn [Qnum Qden]. intros Hq.
  destruct (Z.lt_ge_cases n 0) as [Hn|Hn]; [|lia].
  pose proof (Z.quot_opp_l n (Z.pos d) ltac:(lia)) as E.
  pose proof (Z.quot_pos (- n) (Z.pos d) ltac:(lia) ltac:(lia)) as P.
  lia.
Qed.

Lemma exact_cast_model : cast_model Q2R.
Proof.
  unfold cast_model. cbn [to_int Q_ops]. split.
  - intros a z E Hz. apply Q_to_int_inv in E as [-> _].
    rewrite (Qtrunc_floor a (Qtrunc_positive a Hz)).
    apply Q_floor_encloses.
  - intros a H0 H1. exists (Qfloor a).
    pose proof (Q_floor_encloses a) as [L U].
    rewrite <- Q2R_zero in H0. apply Rle_Qle in H0.
    assert (B0 : (0 <= Qfloor a)%Z).
    { rewrite <- (Qtrunc_floor a H0). apply Qtrunc_nonneg. exact H0. }
    assert (B1 : (Qfloor a < INT_MAX)%Z) by (apply lt_IZR; Lra.lra).
    split; [|split; assumption].
    unfold Q_to_int. rewrite (Qtrunc_floor a H0).
    replace (in_int (Qfloor a)) with true; [reflexivity|].
    symmetry. unfold in_int. apply andb_true_iff.
    split; apply Z.leb_le; unfold INT_MIN, INT_MAX in *; lia.
Qed.

End ExactRotation.

(** * More of the program *)

(** ** The ray structure of [render], for every arithmetic *)

Section Scratch.

Context {F : Type} {ops : FloatOps F}.
Local Open Scope float_scope.

Lemma init_ray_rest (ray ray' : t_ray F) (column : Z) (p : t_player F) :
  init_ray ray' column p
  = (ray1 <- init_ray ray column p ;; Ok (with_rest ray1 ray')).
Proof.
  unfold init_ray.
  destruct (fdiv (of_int (2 * column)%Z) (of_int SCREEN_WIDTH)) as [q|];
    [|reflexivity].
  cbn [of_option bind].
  destruct (to_int (x p)) as [mx|]; [|reflexivity].
  destruct (to_int (y p)) as [my|]; [|reflexivity].
  cbn [of_option bind].
  destruct (delta_dist _) as [dx| |]; [|reflexivity..].
  cbn [bind].
  destruct (delta_dist _) as [dy| |]; reflexivity.
Qed.

Lemma compute_initial_steps_rest (ray other : t_ray F) (p : t_player F) :
  compute_initial_steps (with_rest ray other) p
  = with_scratch (compute_initial_steps ray p)
      (side other) (perpWallDist other).
Proof.
  unfold compute_initial_steps, with_rest, with_scratch. simpl.
  destruct (rayDirX ray <? of_int 0), (rayDirY ray <? of_int 0); reflexivity.
Qed.

Lemma dda_step_scratch (grid : list string) (ray : t_ray F) (s : Z) (d : F) :
  dda_step grid (with_scratch ray s d)
  = (ray' <- dda_step grid ray ;; Ok (set_perpWallDist ray' d)).
Proof.
  unfold dda_step, dda_advance, with_scratch. simpl.
  destruct (sideDistX ray <? sideDistY ray); simpl;
    (destruct (cell grid _ _) as [c| |]; [|reflexivity..]);
    simpl; destruct (is_wall c); reflexivity.
Qed.

Lemma with_scratch_same (ray : t_ray F) (d : F) :
  set_perpWallDist ray d = with_scratch ray (side ray) d.
Proof. reflexivity. Qed.

Lemma dda_loop_scratch (grid : list string) (fuel : nat) :
  forall (ray : t_ray F) (d : F),
    dda_loop grid fuel (set_perpWallDist ray d)
    = (ray' <- dda_loop grid fuel ray ;; Ok (set_perpWallDist ray' d)).
Proof.
  induction fuel as [|fuel IH]; intros ray d; simpl;
    destruct (hit ray =? 0)%Z; try reflexivity.
  rewrite with_scratch_same, dda_step_scratch.
  destruct (dda_step grid ray) as [ray1| |]; simpl; [|reflexivity..].
  apply IH.
Qed.

Lemma perform_dda_scratch (grid : list string) (fuel : nat) (ray : t_ray F)
    (s : Z) (d : F) :
  hit ray = 0%Z ->
  perform_dda grid fuel (with_scratch ray s d) = perform_dda grid fuel ray.
Proof.
  intros Hh. unfold perform_dda. destruct fuel as [|fuel]; simpl.
  - rewrite Hh. reflexivity.
  - rewrite Hh. simpl. rewrite dda_step_scratch.
    destruct (dda_step grid ray) as [ray1| |]; simpl; [|reflexivity..].
    rewrite dda_loop_scratch.
    destruct (dda_loop grid fuel ray1) as [ray2| |]; reflexivity.
Qed.

Lemma cast_ray_any_ray (grid : list string) (fuel : nat) (ray ray' : t_ray F)
    (column : Z) (p : t_player F) :
  cast_ray grid fuel ray' column p = cast_ray grid fuel ray column p.
Proof.
  unfold cast_ray. rewrite (init_ray_rest ray ray').
  destruct (init_ray ray column p) as [ray1| |] eqn:E; [|reflexivity..].
  cbn [bind]. rewrite compute_initial_steps_rest.
  apply perform_dda_scratch.
  destruct (compute_initial_steps_signs ray1 p) as (_ & _ & _ & _ & ->).
  apply (init_ray_cell _ _ _ _ E).
Qed.

(** X1.  [render] declares its [t_ray] without initialising it and reuses
    it from column to column.  Nothing of what the structure held reaches
    the result: the ray of a column, the slice of a column and the buffers
    of the frame are the same whatever the structure held before. *)
Theorem render_ignores_old_ray (grid : list string) (fuel : nat)
    (ray ray' : t_ray F) (p : t_player F) :
  (forall column,
      cast_ray grid fuel ray' column p = cast_ray grid fuel ray column p) /\
  (forall column,
      cast_column grid fuel ray' column p
      = cast_column grid fuel ray column p) /\
  (forall columns,
      render_columns grid fuel ray' columns p
      = render_columns grid fuel ray columns p) /\
  render grid fuel ray' p = render grid fuel ray p.
Proof.
  assert (C : forall r r' column,
             cast_column grid fuel r' column p
             = cast_column grid fuel r column p).
  { intros r r' column. unfold cast_column.
    now rewrite (cast_ray_any_ray grid fuel r r'). }
  assert (R : forall columns r r',
             render_columns grid fuel r' columns p
             = render_columns grid fuel r columns p).
  { induction columns as [|column columns IH]; intros r r';
      [reflexivity|].
    cbn [render_columns]. rewrite (C r r').
    destruct (cast_column grid fuel r column p) as [[r1 c]| |];
      reflexivity. }
  split; [intros column; apply cast_ray_any_ray|].
  split; [intros column; apply C|].
  split; [intros columns; apply R|].
  apply R.
Qed.

End Scratch.

(** ** The path of a ray, for every arithmetic *)

Section Path.

Context {F : Type} {ops : FloatOps F}.
Local Open Scope float_scope.

Lemma dda_loop_path (grid : list string) (fuel : nat) :
  forall ray ray' : t_ray F,
    hit ray = 0%Z ->
    dda_loop grid fuel ray = Ok ray' ->
    exists n : nat,
      (1 <= n <= fuel)%nat /\
      ray' = set_hit (Nat.iter n dda_advance ray) 1 /\
      cell grid (mapY ray') (mapX ray') = Ok "1"%char /\
      forall k : nat,
        (1 <= k < n)%nat ->
        exists c,
          cell grid (mapY (Nat.iter k dda_advance ray))
                    (mapX (Nat.iter k dda_advance ray)) = Ok c
          /\ is_wall c = false.
Proof.
  induction fuel as [|fuel IH]; intros ray ray' Hh E; simpl in E;
    rewrite Hh in E; simpl in E; [discriminate|].
  apply bind_Ok_inv in E as (ray1 & E1 & E).
  unfold dda_step in E1. apply bind_Ok_inv in E1 as (c & Hc & E1).
  injection E1 as <-.
  destruct (is_wall c) eqn:Hw.
  - rewrite dda_loop_hit in E by (simpl; discriminate).
    injection E as <-. exists 1%nat. split; [lia|]. split; [reflexivity|].
    split.
    + simpl. rewrite Hc. unfold is_wall in Hw. apply Ascii.eqb_eq in Hw.
      now subst.
    + intros k Hk. lia.
  - destruct (dda_advance_cell ray) as (_ & _ & Hh1 & _).
    destruct (IH (dda_advance ray) ray') as (n & Hn & -> & Hwall & Hopen);
      [congruence|assumption|].
    exists (S n). split; [lia|]. rewrite Nat.iter_succ_r.
    split; [reflexivity|]. split; [exact Hwall|].
    intros k Hk. destruct k as [|k]; [lia|]. rewrite Nat.iter_succ_r.
    destruct k as [|k].
    + exists c. split; assumption.
    + apply Hopen. lia.
Qed.

Lemma iter_advance_cells (ray : t_ray F) (n : nat) :
  exists a b : nat,
    (a + b = n)%nat /\
    stepX (Nat.iter n dda_advance ray) = stepX ray /\
    stepY (Nat.iter n dda_advance ray) = stepY ray /\
    mapX (Nat.iter n dda_advance ray)
    = (mapX ray + Z.of_nat a * stepX ray)%Z /\
    mapY (Nat.iter n dda_advance ray)
    = (mapY ray + Z.of_nat b * stepY ray)%Z.
Proof.
  induction n as [|n (a & b & Hab & HsX & HsY & HmX & HmY)].
  - exists 0%nat, 0%nat. simpl. repeat split; lia.
  - rewrite Nat.iter_succ.
    destruct (dda_advance_cell (Nat.iter n dda_advance ray))
      as (EsX & EsY & _ & [[EX EY] | [EX EY]]).
    + exists (S a), b. rewrite EsX, EsY, EX, EY, HsX, HsY, HmX, HmY.
      repeat split; lia.
    + exists a, (S b). rewrite EsX, EsY, EX, EY, HsX, HsY, HmX, HmY.
      repeat split; lia.
Qed.

(** X2.  A ray that [perform_dda] returns has made some number [n >= 1] of
    passes, each one cell along one axis in the direction of its step; the
    cell it stops on is a wall and none of the cells it crossed before is:
    the ray stops on the first wall of its path. *)
Theorem perform_dda_first_wall (grid : list string) (fuel : nat)
    (ray ray' : t_ray F) :
  hit ray = 0%Z ->
  perform_dda grid fuel ray = Ok ray' ->
  exists n a b : nat,
    (1 <= n <= fuel)%nat /\ (a + b = n)%nat /\
    mapX ray' = (mapX ray + Z.of_nat a * stepX ray)%Z /\
    mapY ray' = (mapY ray + Z.of_nat b * stepY ray)%Z /\
    mapX ray' = mapX (Nat.iter n dda_advance ray) /\
    mapY ray' = mapY (Nat.iter n dda_advance ray) /\
    side ray' = side (Nat.iter n dda_advance ray) /\
    hit ray' = 1%Z /\
    cell grid (mapY ray') (mapX ray') = Ok "1"%char /\
    forall k : nat,
      (1 <= k < n)%nat ->
      exists c,
        cell grid (mapY (Nat.iter k dda_advance ray))
                  (mapX (Nat.iter k dda_advance ray)) = Ok c
        /\ is_wall c = false.
Proof.
  intros Hh E. unfold perform_dda in E.
  apply bind_Ok_inv in E as (ray1 & E1 & E). injection E as <-.
  destruct (dda_loop_path grid fuel ray ray1 Hh E1)
    as (n & Hn & -> & Hwall & Hopen).
  destruct (iter_advance_cells ray n) as (a & b & Hab & _ & _ & HmX & HmY).
  exists n, a, b. simpl in *.
  repeat split; try assumption; try lia.
Qed.

End Path.

(** ** The sign of the distance, under monotone rounding *)

Section Monotone.

Context {F : Type} {ops : FloatOps F}.
Local Open Scope R_scope.

Variable val : F -> R.
Hypothesis Horder : order_model val.

Lemma delta_dist_nonneg (d delta : F) :
  delta_dist d = Ok delta -> 0 <= val delta.
Proof.
  destruct Horder as (Oabs & Ofar & _).
  unfold delta_dist. destruct (negb (feq d (of_int 0))).
  - intros E. apply bind_Ok_inv in E as (q & _ & E).
    injection E as <-. apply Oabs.
  - intros E. injection E as <-. exact Ofar.
Qed.

Lemma init_ray_deltas (ray0 ray1 : t_ray F) (column : Z) (p : t_player F) :
  init_ray ray0 column p = Ok ray1 ->
  to_int (x p) = Some (mapX ray1) /\
  to_int (y p) = Some (mapY ray1) /\
  hit ray1 = 0%Z /\
  0 <= val (deltaDistX ray1) /\ 0 <= val (deltaDistY ray1).
Proof.
  unfold init_ray. intros E.
  apply bind_Ok_inv in E as (q & _ & E).
  apply bind_Ok_inv in E as (mx & Hx & E). apply of_option_Ok_inv in Hx.
  apply bind_Ok_inv in E as (my & Hy & E). apply of_option_Ok_inv in Hy.
  apply bind_Ok_inv in E as (dx & Hdx & E).
  apply bind_Ok_inv in E as (dy & Hdy & E).
  injection E as <-. cbn [mapX mapY hit deltaDistX deltaDistY].
  repeat split; try assumption; eapply delta_dist_nonneg; eassumption.
Qed.

Lemma compute_initial_steps_nonneg (ray : t_ray F) (p : t_player F) :
  to_int (x p) = Some (mapX ray) ->
  to_int (y p) = Some (mapY ray) ->
  0 <= val (x p) -> 0 <= val (y p) ->
  0 <= val (deltaDistX ray) -> 0 <= val (deltaDistY ray) ->
  let ray' := compute_initial_steps ray p in
  0 <= val (sideDistX ray') /\ 0 <= val (sideDistY ray') /\
  0 <= val (deltaDistX ray') /\ 0 <= val (deltaDistY ray') /\
  hit ray' = hit ray.
Proof.
  intros Ex Ey Px Py Dx Dy.
  destruct Horder as (_ & _ & Omul & _ & Osub & Oint).
  destruct (Oint _ _ Ex Px) as [Lx Ux].
  destruct (Oint _ _ Ey Py) as [Ly Uy].
  unfold compute_initial_steps.
  destruct (flt (rayDirX ray) (of_int 0)), (flt (rayDirY ray) (of_int 0));
    cbn [sideDistX sideDistY deltaDistX deltaDistY hit];
    repeat split; try assumption; apply Omul; try assumption;
    apply Osub; assumption.
Qed.

(** One pass keeps the side distances and the strides from going negative,
    and the distance read off after it is not negative either. *)
Lemma dda_advance_nonneg (ray : t_ray F) :
  0 <= val (sideDistX ray) -> 0 <= val (sideDistY ray) ->
  0 <= val (deltaDistX ray) -> 0 <= val (deltaDistY ray) ->
  let ray' := dda_advance ray in
  0 <= val (sideDistX ray') /\ 0 <= val (sideDistY ray') /\
  0 <= val (deltaDistX ray') /\ 0 <= val (deltaDistY ray') /\
  0 <= val (if (side ray' =? 0)%Z
            then fsub (sideDistX ray') (deltaDistX ray')
            else fsub (sideDistY ray') (deltaDistY ray')).
Proof.
  intros Sx Sy Dx Dy.
  destruct Horder as (_ & _ & _ & Oadd & Osub & _).
  pose proof (Oadd _ (deltaDistX ray) Sx) as Ax.
  pose proof (Oadd _ (deltaDistY ray) Sy) as Ay.
  unfold dda_advance. destruct (flt (sideDistX ray) (sideDistY ray));
    cbn [sideDistX sideDistY deltaDistX deltaDistY side];
    simpl Z.eqb; cbv iota;
    repeat split; try assumption; try Lra.lra; apply Osub; assumption.
Qed.

Lemma iter_advance_nonneg (ray : t_ray F) (n : nat) :
  0 <= val (sideDistX ray) -> 0 <= val (sideDistY ray) ->
  0 <= val (deltaDistX ray) -> 0 <= val (deltaDistY ray) ->
  0 <= val (sideDistX (Nat.iter n dda_advance ray)) /\
  0 <= val (sideDistY (Nat.iter n dda_advance ray)) /\
  0 <= val (deltaDistX (Nat.iter n dda_advance ray)) /\
  0 <= val (deltaDistY (Nat.iter n dda_advance ray)).
Proof.
  intros Sx Sy Dx Dy. induction n as [|n (I1 & I2 & I3 & I4)];
    [repeat split; assumption|].
  rewrite Nat.iter_succ.
  destruct (dda_advance_nonneg _ I1 I2 I3 I4) as (A & B & C & D & _).
  repeat split; assumption.
Qed.

(** X4.  Under monotone rounding, for a player whose coordinates are not
    negative, the distance that a cast ray ends with is never negative. *)
Theorem cast_ray_distance_not_negative (grid : list string) (fuel : nat)
    (ray0 ray : t_ray F) (column : Z) (p : t_player F) :
  0 <= val (x p) -> 0 <= val (y p) ->
  cast_ray grid fuel ray0 column p = Ok ray ->
  0 <= val (perpWallDist ray).
Proof.
  intros Px Py E. unfold cast_ray in E.
  apply bind_Ok_inv in E as (ray1 & E1 & E2).
  destruct (init_ray_deltas _ _ _ _ E1) as (Ex & Ey & Hh & Dx & Dy).
  destruct (compute_initial_steps_nonneg ray1 p Ex Ey Px Py Dx Dy)
    as (Sx & Sy & Dx2 & Dy2 & Hh2).
  cbv zeta in Sx, Sy, Dx2, Dy2, Hh2.
  unfold perform_dda in E2. apply bind_Ok_inv in E2 as (ray3 & El & E3).
  injection E3 as <-. cbn [set_perpWallDist perpWallDist].
  destruct (dda_loop_path grid fuel _ _ (eq_trans Hh2 Hh) El)
    as (n & Hn & -> & _).
  cbn [set_hit side sideDistX sideDistY deltaDistX deltaDistY].
  destruct n as [|n]; [lia|]. rewrite Nat.iter_succ.
  destruct (iter_advance_nonneg _ n Sx Sy Dx2 Dy2) as (I1 & I2 & I3 & I4).
  exact (proj2 (proj2 (proj2 (proj2 (dda_advance_nonneg _ I1 I2 I3 I4))))).
Qed.

End Monotone.

(** ** Rays on the rationals *)

Section RationalRays.

Local Open Scope Q_scope.

Lemma dda_advance_keeps (ray : t_ray Q) :
  deltaDistX (dda_advance ray) = deltaDistX ray /\
  deltaDistY (dda_advance ray) = deltaDistY ray /\
  rayDirX (dda_advance ray) = rayDirX ray /\
  rayDirY (dda_advance ray) = rayDirY ray /\
  stepX (dda_advance ray) = stepX ray /\
  stepY (dda_advance ray) = stepY ray.
Proof.
  unfold dda_advance. destruct (flt _ _); repeat split; reflexivity.
Qed.

Lemma iter_advance_keeps (ray : t_ray Q) (n : nat) :
  deltaDistX (Nat.iter n dda_advance ray) = deltaDistX ray /\
  deltaDistY (Nat.iter n dda_advance ray) = deltaDistY ray /\
  rayDirX (Nat.iter n dda_advance ray) = rayDirX ray /\
  rayDirY (Nat.iter n dda_advance ray) = rayDirY ray /\
  stepX (Nat.iter n dda_advance ray) = stepX ray /\
  stepY (Nat.iter n dda_advance ray) = stepY ray.
Proof.
  induction n as [|n IH]; [repeat split; reflexivity|].
  rewrite Nat.iter_succ.
  destruct (dda_advance_keeps (Nat.iter n dda_advance ray))
    as (A1 & A2 & A3 & A4 & A5 & A6).
  destruct IH as (B1 & B2 & B3 & B4 & B5 & B6).
  repeat split; congruence.
Qed.

Lemma init_ray_fields (ray0 ray1 : t_ray Q) (column : Z) (p : t_player Q) :
  init_ray ray0 column p = Ok ray1 ->
  rayDirX ray1 = dirX p + planeX p * camera column /\
  rayDirY ray1 = dirY p + planeY p * camera column /\
  deltaDistX ray1 = delta (rayDirX ray1) /\
  deltaDistY ray1 = delta (rayDirY ray1) /\
  Q_to_int (x p) = Some (mapX ray1) /\
  Q_to_int (y p) = Some (mapY ray1) /\
  hit ray1 = 0%Z.
Proof.
  intros E. destruct (init_ray_cell _ _ _ _ E) as (Hx & Hy & Hh).
  cbn [to_int Q_ops] in Hx, Hy.
  rewrite (init_ray_Q ray0 column p _ _ Hx Hy) in E.
  injection E as E. rewrite <- E.
  cbn [rayDirX rayDirY deltaDistX deltaDistY mapX mapY hit].
  repeat split; assumption.
Qed.

Lemma compute_initial_steps_track (ray : t_ray Q) (p : t_player Q) :
  let ray' := compute_initial_steps ray p in
  on_track (x p) (y p) ray' /\
  stepX ray' = (if Q_lt (rayDirX ray) 0 then -1 else 1)%Z /\
  stepY ray' = (if Q_lt (rayDirY ray) 0 then -1 else 1)%Z /\
  rayDirX ray' = rayDirX ray /\ rayDirY ray' = rayDirY ray /\
  deltaDistX ray' = deltaDistX ray /\ deltaDistY ray' = deltaDistY ray /\
  mapX ray' = mapX ray /\ mapY ray' = mapY ray /\ hit ray' = hit ray.
Proof.
  unfold compute_initial_steps, on_track.
  cbn [flt of_int Q_ops fsub fadd fmul lit].
  change (inject_Z 0) with 0.
  destruct (Q_lt (rayDirX ray) 0), (Q_lt (rayDirY ray) 0);
    cbn [sideDistX sideDistY deltaDistX deltaDistY stepX stepY mapX mapY
         rayDirX rayDirY hit gap Z.eqb];
    unfold gap; simpl Z.eqb; cbv iota;
    repeat split; ring.
Qed.

Lemma cast_ray_path (grid : list string) (fuel : nat) (ray0 ray : t_ray Q)
    (column : Z) (p : t_player Q) :
  cast_ray grid fuel ray0 column p = Ok ray ->
  exists (ray1 : t_ray Q) (n : nat),
    init_ray ray0 column p = Ok ray1 /\
    (1 <= n <= fuel)%nat /\
    ray = set_perpWallDist
            (set_hit (Nat.iter n dda_advance (compute_initial_steps ray1 p)) 1)
            (if (side (Nat.iter n dda_advance (compute_initial_steps ray1 p))
                 =? 0)%Z
             then sideDistX (Nat.iter n dda_advance (compute_initial_steps ray1 p))
                  - deltaDistX (Nat.iter n dda_advance (compute_initial_steps ray1 p))
             else sideDistY (Nat.iter n dda_advance (compute_initial_steps ray1 p))
                  - deltaDistY (Nat.iter n dda_advance (compute_initial_steps ray1 p))).
Proof.
  intros E. unfold cast_ray in E.
  apply bind_Ok_inv in E as (ray1 & E1 & E2).
  unfold perform_dda in E2. apply bind_Ok_inv in E2 as (ray3 & El & E3).
  injection E3 as <-.
  destruct (init_ray_fields _ _ _ _ E1) as (_ & _ & _ & _ & _ & _ & Hh).
  destruct (compute_initial_steps_track ray1 p)
    as (_ & _ & _ & _ & _ & _ & _ & _ & _ & Hh').
  destruct (dda_loop_path grid fuel _ _ (eq_trans Hh' Hh) El)
    as (n & Hn & -> & _).
  exists ray1, n. repeat split; try assumption; lia.
Qed.

Lemma cast_ray_direction (grid : list string) (fuel : nat)
    (ray0 ray : t_ray Q) (column : Z) (p : t_player Q) :
  cast_ray grid fuel ray0 column p = Ok ray ->
  rayDirX ray = dirX p + planeX p * camera column /\
  rayDirY ray = dirY p + planeY p * camera column.
Proof.
  intros E.
  destruct (cast_ray_path _ _ _ _ _ _ E) as (ray1 & n & E1 & Hn & ->).
  destruct (init_ray_fields _ _ _ _ E1) as (RX & RY & _).
  destruct (compute_initial_steps_track ray1 p)
    as (_ & _ & _ & RX2 & RY2 & _).
  destruct (iter_advance_keeps (compute_initial_steps ray1 p) n)
    as (_ & _ & KRX & KRY & _).
  cbn [set_perpWallDist set_hit rayDirX rayDirY]. split; congruence.
Qed.

(** *** The distance is bounded below *)

Lemma delta_lower (r L : Q) : 1 <= L -> Qabs r <= L -> 1 / L <= delta r.
Proof.
  intros HL Hr.
  assert (L0 : 0 < L) by Lqa.lra.
  apply Qle_shift_div_r; [exact L0|].
  unfold delta. destruct (Qeq_bool r 0) eqn:E.
  - pose proof sentinel_beyond_int as S.
    set (far := 1e30) in *. clearbody far.
    assert (F0 : 0 <= far) by Lqa.lra.
    assert (F1 : far * 1 <= far * L).
    { rewrite Qmult_comm, (Qmult_comm far L).
      apply Qmult_le_compat_r; assumption. }
    Lqa.lra.
  - assert (Hn : ~ r == 0) by (intros H; apply Qeq_eq_bool in H; congruence).
    assert (P : Qabs (1 / r) * Qabs r == 1).
    { rewrite <- Qabs_Qmult.
      assert (I : 1 / r * r == 1) by (field; exact Hn).
      rewrite I. reflexivity. }
    apply Qle_trans with (Qabs (1 / r) * Qabs r).
    { rewrite P. apply Qle_refl. }
    rewrite (Qmult_comm _ (Qabs r)), (Qmult_comm _ L).
    apply Qmult_le_compat_r; [exact Hr | apply Qabs_nonneg].
Qed.

Lemma dda_advance_lower (m : Q) (ray : t_ray Q) :
  0 <= deltaDistX ray -> 0 <= deltaDistY ray ->
  m <= sideDistX ray -> m <= sideDistY ray ->
  m <= sideDistX (dda_advance ray) /\ m <= sideDistY (dda_advance ray) /\
  m <= (if (side (dda_advance ray) =? 0)%Z
        then sideDistX (dda_advance ray) - deltaDistX (dda_advance ray)
        else sideDistY (dda_advance ray) - deltaDistY (dda_advance ray)).
Proof.
  intros DX DY SX SY. unfold dda_advance.
  destruct (flt _ _);
    cbn [sideDistX sideDistY deltaDistX deltaDistY side fadd Q_ops];
    simpl Z.eqb; cbv iota; repeat split; Lqa.lra.
Qed.

Lemma iter_advance_lower (m : Q) (ray : t_ray Q) (n : nat) :
  0 <= deltaDistX ray -> 0 <= deltaDistY ray ->
  m <= sideDistX ray -> m <= sideDistY ray ->
  m <= sideDistX (Nat.iter n dda_advance ray) /\
  m <= sideDistY (Nat.iter n dda_advance ray).
Proof.
  intros DX DY SX SY. induction n as [|n [IX IY]]; [split; assumption|].
  rewrite Nat.iter_succ.
  destruct (iter_advance_keeps ray n) as (KX & KY & _).
  destruct (dda_advance_lower m (Nat.iter n dda_advance ray))
    as (A & B & _); try assumption; [rewrite KX | rewrite KY | split];
    assumption.
Qed.

Lemma gap_lower (eps v : Q) (s z : Z) :
  0 <= v -> off_lines eps v -> Q_to_int v = Some z -> eps <= gap s z v.
Proof.
  intros Hv [Lo Hi] Hz.
  apply Q_to_int_inv in Hz as [-> _]. rewrite (Qtrunc_floor _ Hv).
  unfold gap. destruct (s =? 1)%Z; Lqa.lra.
Qed.

Lemma off_lines_any (v : Q) : off_lines 0 v.
Proof.
  pose proof (Qfloor_le v) as A. pose proof (Qlt_floor v) as B.
  rewrite inject_Z_plus in B. change (inject_Z 1) with 1 in B.
  split; Lqa.lra.
Qed.

Lemma cast_ray_lower (grid : list string) (fuel : nat)
    (ray0 ray : t_ray Q) (column : Z) (p : t_player Q) (eps L : Q) :
  0 <= x p -> 0 <= y p ->
  cast_ray grid fuel ray0 column p = Ok ray ->
  0 <= eps -> 1 <= L ->
  off_lines eps (x p) -> off_lines eps (y p) ->
  Qabs (rayDirX ray) <= L -> Qabs (rayDirY ray) <= L ->
  eps / L <= perpWallDist ray.
Proof.
  intros Px Py E He HL Ox Oy.
  destruct (cast_ray_path _ _ _ _ _ _ E) as (ray1 & n & E1 & Hn & ->).
  clear E.
  destruct (init_ray_fields _ _ _ _ E1) as (_ & _ & DX & DY & MX & MY & _).
  destruct (compute_initial_steps_track ray1 p)
    as ([TX TY] & _ & _ & RX2 & RY2 & DX2 & DY2 & MX2 & MY2 & _).
  set (ray2 := compute_initial_steps ray1 p) in *.
  destruct (iter_advance_keeps ray2 n) as (KDX & KDY & KRX & KRY & _).
  cbn [set_perpWallDist set_hit rayDirX rayDirY perpWallDist].
  rewrite KRX, KRY, RX2, RY2. intros BX BY.
  assert (L0 : 0 < L) by Lqa.lra.
  assert (I0 : 0 <= 1 / L).
  { apply Qle_shift_div_l; [exact L0 | Lqa.lra]. }
  pose proof (delta_lower _ _ HL BX) as LX.
  pose proof (delta_lower _ _ HL BY) as LY.
  rewrite <- DX, <- DX2 in LX. rewrite <- DY, <- DY2 in LY.
  assert (GX : eps <= gap (stepX ray2) (mapX ray2) (x p))
    by (apply gap_lower; [| |rewrite MX2]; assumption).
  assert (GY : eps <= gap (stepY ray2) (mapY ray2) (y p))
    by (apply gap_lower; [| |rewrite MY2]; assumption).
  assert (Q : eps / L == 1 / L * eps) by (field; Lqa.lra).
  assert (SX : eps / L <= sideDistX ray2).
  { rewrite TX, Q. apply Qmult_le_compat_nonneg; split; assumption. }
  assert (SY : eps / L <= sideDistY ray2).
  { rewrite TY, Q. apply Qmult_le_compat_nonneg; split; assumption. }
  destruct n as [|n]; [lia|].
  rewrite Nat.iter_succ.
  destruct (iter_advance_keeps ray2 n) as (KX & KY & _).
  destruct (iter_advance_lower (eps / L) ray2 n) as [IX IY];
    try assumption; try Lqa.lra.
  assert (AX : 0 <= deltaDistX (Nat.iter n dda_advance ray2))
    by (rewrite KX; Lqa.lra).
  assert (AY : 0 <= deltaDistY (Nat.iter n dda_advance ray2))
    by (rewrite KY; Lqa.lra).
  exact (proj2 (proj2 (dda_advance_lower (eps / L) _ AX AY IX IY))).
Qed.

End RationalRays.

(** ** The frame that [render] prints *)

Section Printing.

Local Open Scope string_scope.

Lemma append_empty_r (s : string) : s ++ EmptyString = s.
Proof. induction s as [|c s IH]; cbn; congruence. Qed.

Lemma append_assoc (s t u : string) : (s ++ t) ++ u = s ++ t ++ u.
Proof. induction s as [|c s IH]; cbn; congruence. Qed.

Lemma print_pixels (buffers : list t_column) (y : Z) (l : list t_column) :
  forall (pre rest : list t_column) (acc : string),
    buffers = (pre ++ l ++ rest)%list ->
    fold_left
      (fun acc column =>
         text <- acc ;;
         slot <- of_option (nth_error buffers (Z.to_nat column)) ;;
         Ok (text ++ pixel y slot))
      (List.map Z.of_nat (seq (List.length pre) (List.length l))) (Ok acc)
    = Ok (acc ++ join (List.map (pixel y) l)).
Proof.
  induction l as [|c l IH]; intros pre rest acc E.
  - cbn. now rewrite append_empty_r.
  - cbn [List.length seq List.map fold_left bind join].
    rewrite Nat2Z.id.
    assert (N : nth_error buffers (List.length pre) = Some c).
    { rewrite E, nth_error_app2 by lia. now rewrite Nat.sub_diag. }
    rewrite N. cbn [of_option bind].
    replace (S (List.length pre)) with (List.length (pre ++ [c])%list)
      by (rewrite length_app; cbn; lia).
    rewrite (IH (pre ++ [c])%list rest).
    + now rewrite append_assoc.
    + rewrite E, <- app_assoc. reflexivity.
Qed.

Lemma print_row_text (buffers : list t_column) (y : Z) :
  (Z.to_nat SCREEN_WIDTH <= List.length buffers)%nat ->
  print_row buffers y = Ok (row_text buffers y).
Proof.
  intros HL. unfold print_row, row_text.
  set (l := firstn (Z.to_nat SCREEN_WIDTH) buffers).
  assert (Hl : List.length l = Z.to_nat SCREEN_WIDTH)
    by (apply firstn_length_le; exact HL).
  rewrite <- Hl.
  assert (E : buffers = ([] ++ l ++ skipn (Z.to_nat SCREEN_WIDTH) buffers)%list)
    by (symmetry; apply (firstn_skipn (Z.to_nat SCREEN_WIDTH) buffers)).
  pose proof (print_pixels buffers y l [] _ EmptyString E) as P.
  change (List.length (@nil t_column)) with 0%nat in P.
  rewrite P. reflexivity.
Qed.

Lemma print_rows_fold (buffers : list t_column) (ys : list Z) :
  (Z.to_nat SCREEN_WIDTH <= List.length buffers)%nat ->
  forall acc : string,
    fold_left
      (fun acc y =>
         text <- acc ;;
         row <- print_row buffers y ;;
         Ok (text ++ row))
      ys (Ok acc)
    = Ok (acc ++ join (List.map (row_text buffers) ys)).
Proof.
  intros HL. induction ys as [|y ys IH]; intros acc.
  - cbn. now rewrite append_empty_r.
  - cbn [fold_left List.map join bind].
    rewrite (print_row_text buffers y HL). cbn [bind].
    rewrite IH. now rewrite append_assoc.
Qed.

Lemma print_rows_text (buffers : list t_column) :
  (Z.to_nat SCREEN_WIDTH <= List.length buffers)%nat ->
  print_rows buffers = Ok (frame_text buffers).
Proof.
  intros HL. unfold print_rows. now rewrite (print_rows_fold buffers _ HL).
Qed.

Lemma pixels_of_column (c : t_column) (n : nat) :
  forall (start : nat) (shown : string),
    (forall y : nat, (start <= y < start + n)%nat ->
                     pixel (Z.of_nat y) c = shown) ->
    List.map (fun y => pixel y c) (List.map Z.of_nat (seq start n))
    = repeat shown n.
Proof.
  induction n as [|n IH]; intros start shown H; [reflexivity|].
  cbn [seq List.map repeat]. f_equal.
  - apply H. lia.
  - apply IH. intros y Hy. apply H. lia.
Qed.

(** X7.  With the three buffers filled for the [SCREEN_WIDTH] columns, the
    printing loops of [render] print [SCREEN_HEIGHT] lines, each made of one
    pixel per column, taken from that column's buffers, and an end of
    line. *)
Theorem print_rows_prints_frame (buffers : list t_column) :
  (Z.to_nat SCREEN_WIDTH <= List.length buffers)%nat ->
  print_rows buffers = Ok (frame_text buffers) /\
  (forall y : Z, print_row buffers y = Ok (row_text buffers y)) /\
  frame_text buffers
  = join (List.map
            (fun y => join (List.map (pixel y)
                              (firstn (Z.to_nat SCREEN_WIDTH) buffers))
                      ++ newline)
            (List.map Z.of_nat (seq 0 (Z.to_nat SCREEN_HEIGHT)))).
Proof.
  intros HL. split; [|split].
  - apply print_rows_text, HL.
  - intros y. apply print_row_text, HL.
  - reflexivity.
Qed.

(** X8.  A column of the frame, read from the top: [draw_start] sky
    pixels, then [draw_end - draw_start + 1] pixels of the shade of the wall,
    then floor pixels down to the last line. *)
Theorem column_is_sky_wall_floor (c : t_column) :
  (0 <= draw_start c)%Z ->
  (draw_start c <= draw_end c + 1)%Z ->
  (draw_end c < SCREEN_HEIGHT)%Z ->
  List.map (fun y => pixel y c)
    (List.map Z.of_nat (seq 0 (Z.to_nat SCREEN_HEIGHT)))
  = (repeat sky_pixel (Z.to_nat (draw_start c))
     ++ repeat (wall_pixel (wallColor c))
          (Z.to_nat (draw_end c - draw_start c + 1))
     ++ repeat floor_pixel (Z.to_nat (SCREEN_HEIGHT - 1 - draw_end c)))%list.
Proof.
  intros H0 H1 H2.
  set (a := Z.to_nat (draw_start c)).
  set (b := Z.to_nat (draw_end c - draw_start c + 1)).
  set (d := Z.to_nat (SCREEN_HEIGHT - 1 - draw_end c)).
  replace (Z.to_nat SCREEN_HEIGHT) with (a + (b + d))%nat
    by (unfold a, b, d, SCREEN_HEIGHT in *; lia).
  rewrite !seq_app, !map_app. cbn [Nat.add].
  f_equal; [|f_equal]; apply pixels_of_column; intros y Hy; unfold pixel.
  - destruct (Z.ltb_spec (Z.of_nat y) (draw_start c)); [reflexivity|].
    unfold a in Hy. lia.
  - destruct (Z.ltb_spec (Z.of_nat y) (draw_start c));
      [unfold a in Hy; lia|].
    destruct (Z.leb_spec (Z.of_nat y) (draw_end c)); [reflexivity|].
    unfold a, b in Hy. lia.
  - destruct (Z.ltb_spec (Z.of_nat y) (draw_start c));
      [unfold a, b in Hy; lia|].
    destruct (Z.leb_spec (Z.of_nat y) (draw_end c)); [|reflexivity].
    unfold a, b in Hy. lia.
Qed.

End Printing.

(** ** Slices and frames on the rationals *)

Section RationalFrames.

Local Open Scope Q_scope.

Lemma compute_wall_slice_Q (ray : t_ray Q) :
  0 < perpWallDist ray ->
  (Qfloor (inject_Z SCREEN_HEIGHT / perpWallDist ray) <= INT_MAX)%Z ->
  let lineHeight := Qfloor (inject_Z SCREEN_HEIGHT / perpWallDist ray) in
  (0 <= lineHeight)%Z /\
  compute_wall_slice ray
  = Ok {| draw_start := clamp 0 (SCREEN_HEIGHT - 1)
                          (SCREEN_HEIGHT ÷ 2 - lineHeight ÷ 2);
          draw_end := clamp 0 (SCREEN_HEIGHT - 1)
                        (SCREEN_HEIGHT ÷ 2 + lineHeight ÷ 2);
          wallColor := get_shade (perpWallDist ray) |}.
Proof.
  intros Hpos Hmax.
  pose proof (height_nonneg _ Hpos) as Hq.
  rewrite <- (Qtrunc_floor _ Hq) in *.
  pose proof (Qtrunc_nonneg _ Hq) as HL.
  set (h := Qtrunc (inject_Z SCREEN_HEIGHT / perpWallDist ray)) in *.
  cbv zeta. split; [exact HL|].
  assert (Hnz : ~ perpWallDist ray == 0).
  { intros E. rewrite E in Hpos. discriminate. }
  rewrite (compute_wall_slice_height ray
             (inject_Z SCREEN_HEIGHT / perpWallDist ray) h).
  - destruct (slice_rows_centred h HL) as (E1 & E2 & E3 & E4 & _).
    cbv zeta in *. rewrite E3, E4, E1, E2. reflexivity.
  - apply Q_div_defined, Hnz.
  - apply Q_to_int_defined. unfold INT_MIN in *. fold h. lia.
  - unfold INT_MIN. lia.
Qed.

Lemma height_antitone (d1 d2 : Q) :
  0 < d1 -> d1 <= d2 ->
  inject_Z SCREEN_HEIGHT / d2 <= inject_Z SCREEN_HEIGHT / d1.
Proof.
  intros H1 H12.
  assert (H2 : 0 < d2) by Lqa.lra.
  apply Qle_shift_div_l; [exact H1|].
  assert (E : inject_Z SCREEN_HEIGHT / d2 * d1
              == d1 / d2 * inject_Z SCREEN_HEIGHT) by (field; Lqa.lra).
  rewrite E.
  assert (R : d1 / d2 <= 1).
  { apply Qle_shift_div_r; [exact H2 | Lqa.lra]. }
  assert (S0 : 0 <= inject_Z SCREEN_HEIGHT) by discriminate.
  apply Qle_trans with (1 * inject_Z SCREEN_HEIGHT).
  - apply Qmult_le_compat_r; assumption.
  - rewrite Qmult_1_l. apply Qle_refl.
Qed.

Lemma height_fills (d : Q) :
  0 < d -> d <= 1 -> (25 <= Qfloor (inject_Z SCREEN_HEIGHT / d) ÷ 2)%Z.
Proof.
  intros H0 H1.
  assert (B : (50 <= Qfloor (inject_Z SCREEN_HEIGHT / d))%Z).
  { change 50%Z with (Qfloor (inject_Z 50)) at 1.
    apply Qfloor_resp_le.
    apply Qle_shift_div_l; [exact H0|].
    change (inject_Z SCREEN_HEIGHT) with (inject_Z 50).
    assert (P : 0 <= inject_Z 50) by discriminate.
    assert (M : inject_Z 50 * d <= inject_Z 50 * 1).
    { rewrite !(Qmult_comm (inject_Z 50)).
      apply Qmult_le_compat_r; assumption. }
    Lqa.lra. }
  change 25%Z with (50 ÷ 2)%Z. apply Z.quot_le_mono; lia.
Qed.

Lemma height_vanishes (d : Q) :
  inject_Z SCREEN_HEIGHT < d -> Qfloor (inject_Z SCREEN_HEIGHT / d) = 0%Z.
Proof.
  intros H.
  assert (H0 : 0 < d).
  { apply Qlt_trans with (inject_Z SCREEN_HEIGHT); [reflexivity | exact H]. }
  apply Qfloor_unique.
  - change (inject_Z 0) with 0. apply height_nonneg, H0.
  - change (inject_Z 0 + 1) with 1.
    apply Qlt_shift_div_r; [exact H0 | Lqa.lra].
Qed.

(** X6.  Of two walls, the nearer one gets the slice that contains the
    other's: its first row is not lower and its last row not higher.  Both
    slices contain the middle row of the screen; a wall not farther than one
    cell fills its column, and a wall farther than [SCREEN_HEIGHT] cells
    keeps the middle row alone. *)
Theorem nearer_wall_taller_slice (near far : t_ray Q) :
  0 < perpWallDist near ->
  perpWallDist near <= perpWallDist far ->
  (Qfloor (inject_Z SCREEN_HEIGHT / perpWallDist near) <= INT_MAX)%Z ->
  exists s1 s2 : t_column,
    compute_wall_slice near = Ok s1 /\
    compute_wall_slice far = Ok s2 /\
    (0 <= draw_start s1 <= draw_start s2)%Z /\
    (draw_start s2 <= SCREEN_HEIGHT ÷ 2 <= draw_end s2)%Z /\
    (draw_end s2 <= draw_end s1 <= SCREEN_HEIGHT - 1)%Z /\
    (perpWallDist near <= 1 ->
     draw_start s1 = 0%Z /\ draw_end s1 = (SCREEN_HEIGHT - 1)%Z) /\
    (inject_Z SCREEN_HEIGHT < perpWallDist far ->
     draw_start s2 = (SCREEN_HEIGHT ÷ 2)%Z /\
     draw_end s2 = (SCREEN_HEIGHT ÷ 2)%Z).
Proof.
  intros H1 H12 Hmax.
  assert (H2 : 0 < perpWallDist far) by Lqa.lra.
  pose proof (height_antitone _ _ H1 H12) as HA.
  pose proof (Qfloor_resp_le _ _ HA) as HF.
  destruct (compute_wall_slice_Q near H1 Hmax) as [N1 E1].
  destruct (compute_wall_slice_Q far H2 ltac:(lia)) as [N2 E2].
  cbv zeta in *.
  set (h1 := Qfloor (inject_Z SCREEN_HEIGHT / perpWallDist near)) in *.
  set (h2 := Qfloor (inject_Z SCREEN_HEIGHT / perpWallDist far)) in *.
  assert (Q1 : (0 <= h1 ÷ 2)%Z) by (apply Z.quot_pos; lia).
  assert (Q2 : (0 <= h2 ÷ 2)%Z) by (apply Z.quot_pos; lia).
  assert (Q12 : (h2 ÷ 2 <= h1 ÷ 2)%Z) by (apply Z.quot_le_mono; lia).
  eexists. eexists. split; [exact E1|]. split; [exact E2|].
  cbn [draw_start draw_end]. unfold clamp.
  change (SCREEN_HEIGHT ÷ 2)%Z with 25%Z.
  change (SCREEN_HEIGHT - 1)%Z with 49%Z.
  split; [lia|]. split; [lia|]. split; [lia|]. split; intros H.
  - pose proof (height_fills _ H1 H) as B. fold h1 in B. split; lia.
  - unfold h2. rewrite (height_vanishes _ H). split; reflexivity.
Qed.

(** *** Every column of a frame *)

Lemma camera_bounds (column : Z) :
  (0 <= column < SCREEN_WIDTH)%Z ->
  -1 <= camera column /\ camera column < 1.
Proof.
  intros [H0 H1]. unfold camera.
  rewrite inject_Z_mult.
  change (inject_Z 2) with 2. change (inject_Z SCREEN_WIDTH) with 90.
  assert (A : 0 <= inject_Z column)
    by (change 0 with (inject_Z 0); rewrite <- Zle_Qle; exact H0).
  assert (B : inject_Z column <= 89).
  { change 89 with (inject_Z 89). rewrite <- Zle_Qle.
    unfold SCREEN_WIDTH in H1. lia. }
  assert (E : 2 * inject_Z column / 90 == inject_Z column * (1 # 45))
    by field.
  rewrite E. split; Lqa.lra.
Qed.

Lemma ray_direction_bound (d pl cam L : Q) :
  Qabs cam <= 1 -> Qabs d + Qabs pl <= L -> Qabs (d + pl * cam) <= L.
Proof.
  intros Hc HL.
  eapply Qle_trans; [apply Qabs_triangle|].
  rewrite Qabs_Qmult.
  assert (M : Qabs pl * Qabs cam <= Qabs pl * 1).
  { rewrite !(Qmult_comm (Qabs pl)).
    apply Qmult_le_compat_r; [exact Hc | apply Qabs_nonneg]. }
  Lqa.lra.
Qed.

Lemma open_cell_quadrant (grid : list string) (W H : Z) (p : t_player Q) :
  rectangular grid W H = true ->
  enclosed grid W H = true ->
  open_cell grid p = true ->
  0 <= x p /\ 0 <= y p.
Proof.
  intros Hr He Ho.
  destruct (open_cell_interior grid W H p Hr He Ho)
    as (row & col & Ey & Ex & Hcol & Hrow).
  cbn [to_int Q_ops] in Ex, Ey.
  apply Q_to_int_inv in Ex as [Ex _]. apply Q_to_int_inv in Ey as [Ey _].
  destruct (Qtrunc_cell (x p) col (eq_sym Ex) ltac:(lia)) as [Lx _].
  destruct (Qtrunc_cell (y p) row (eq_sym Ey) ltac:(lia)) as [Ly _].
  assert (A : 0 <= inject_Z col)
    by (change 0 with (inject_Z 0); rewrite <- Zle_Qle; lia).
  assert (B : 0 <= inject_Z row)
    by (change 0 with (inject_Z 0); rewrite <- Zle_Qle; lia).
  split; Lqa.lra.
Qed.

Section Total.

Variables (grid : list string) (W H : Z) (p : t_player Q) (eps L : Q)
          (fuel : nat).

Hypothesis Hrect : rectangular grid W H = true.
Hypothesis Hencl : enclosed grid W H = true.
Hypothesis Hopen : open_cell grid p = true.
Hypothesis Heps : 0 < eps.
Hypothesis HL : 1 <= L.
Hypothesis Hx : off_lines eps (x p).
Hypothesis Hy : off_lines eps (y p).
Hypothesis HdX : Qabs (dirX p) + Qabs (planeX p) <= L.
Hypothesis HdY : Qabs (dirY p) + Qabs (planeY p) <= L.
Hypothesis Hfit : inject_Z SCREEN_HEIGHT * L / eps <= inject_Z INT_MAX.
Hypothesis Hfuel : (Z.to_nat (W + H) <= fuel)%nat.

Lemma cast_column_total (ray0 : t_ray Q) (column : Z) :
  (0 <= column < SCREEN_WIDTH)%Z ->
  exists (ray : t_ray Q) (slice : t_column),
    cast_column grid fuel ray0 column p = Ok (ray, slice) /\
    on_screen slice /\ eps / L <= perpWallDist ray.
Proof.
  intros Hcol.
  destruct (cast_ray_total grid W H ray0 column p Hrect Hencl Hopen)
    as (ray & Hc & _).
  specialize (Hc fuel Hfuel).
  destruct (open_cell_quadrant grid W H p Hrect Hencl Hopen) as [Px Py].
  destruct (cast_ray_direction _ _ _ _ _ _ Hc) as [RX RY].
  destruct (camera_bounds column Hcol) as [C0 C1].
  assert (Ca : Qabs (camera column) <= 1)
    by (apply Qabs_Qle_condition; split; Lqa.lra).
  assert (D : eps / L <= perpWallDist ray).
  { apply (cast_ray_lower grid fuel ray0 ray column p eps L);
      try assumption; try Lqa.lra.
    - rewrite RX. apply ray_direction_bound; assumption.
    - rewrite RY. apply ray_direction_bound; assumption. }
  assert (L0 : 0 < L) by Lqa.lra.
  assert (B0 : 0 < eps / L).
  { apply Qlt_shift_div_l; [exact L0 | Lqa.lra]. }
  assert (P0 : 0 < perpWallDist ray) by Lqa.lra.
  assert (F : (Qfloor (inject_Z SCREEN_HEIGHT / perpWallDist ray)
               <= INT_MAX)%Z).
  { rewrite <- (Qfloor_Z INT_MAX). apply Qfloor_resp_le.
    eapply Qle_trans; [apply (height_antitone _ _ B0 D)|].
    assert (E : inject_Z SCREEN_HEIGHT / (eps / L)
                == inject_Z SCREEN_HEIGHT * L / eps)
      by (field; split; Lqa.lra).
    rewrite E. exact Hfit. }
  destruct (compute_wall_slice_Q ray P0 F) as [N E].
  cbv zeta in N, E.
  assert (Q0 : (0 <= Qfloor (inject_Z SCREEN_HEIGHT / perpWallDist ray) ÷ 2)%Z)
    by (apply Z.quot_pos; lia).
  eexists. eexists. split; [|split; [|exact D]].
  - unfold cast_column. rewrite Hc. cbn [bind]. rewrite E. reflexivity.
  - unfold on_screen, clamp. cbn [draw_start draw_end].
    change (SCREEN_HEIGHT ÷ 2)%Z with 25%Z.
    change (SCREEN_HEIGHT - 1)%Z with 49%Z. lia.
Qed.

Lemma render_columns_total (columns : list Z) :
  Forall (fun column => 0 <= column < SCREEN_WIDTH)%Z columns ->
  forall ray0 : t_ray Q,
  exists buffers : list t_column,
    render_columns grid fuel ray0 columns p = Ok buffers /\
    List.length buffers = List.length columns /\
    Forall on_screen buffers.
Proof.
  induction 1 as [|column columns Hc _ IH]; intros ray0.
  - exists []. repeat split. constructor.
  - destruct (cast_column_total ray0 column Hc) as (ray & slice & E & S & _).
    destruct (IH ray) as (rest & Er & Lr & Fr).
    exists (slice :: rest). cbn [render_columns].
    rewrite E. cbn [bind fst snd]. rewrite Er. cbn [bind].
    repeat split; [cbn; congruence | constructor; assumption].
Qed.

Lemma render_buffers (ray0 : t_ray Q) :
  exists buffers : list t_column,
    render grid fuel ray0 p = Ok buffers /\
    List.length buffers = Z.to_nat SCREEN_WIDTH /\
    Forall on_screen buffers.
Proof.
  assert (R : Forall (fun column => 0 <= column < SCREEN_WIDTH)%Z
                (range SCREEN_WIDTH)).
  { apply Forall_forall. intros column Hc. apply In_range, Hc. }
  destruct (render_columns_total _ R ray0) as (buffers & E & Len & S).
  exists buffers. split; [exact E|]. split; [|exact S].
  rewrite Len. unfold range. now rewrite length_map, length_seq.
Qed.

End Total.

End RationalFrames.

(** ** From the scan of [main] to the first frame *)

Section FirstFrame.

Local Open Scope Q_scope.

Lemma last_of_In (ms : list (Z * Z)) :
  ms <> [] -> exists m, last_of ms = Some m /\ In m ms.
Proof.
  induction ms as [|pos ms IH]; [congruence|]. intros _.
  rewrite last_of_cons. destruct ms as [|pos' ms].
  - exists pos. split; [reflexivity | left; reflexivity].
  - destruct IH as (m & E & Hin); [discriminate|].
    exists m. rewrite E. split; [reflexivity | right; exact Hin].
Qed.

Lemma find_spawn_last (grid : list string) :
  rectangular grid MAP_WIDTH MAP_HEIGHT = true ->
  @find_spawn Q Q_ops grid
  = Ok (match last_of (markers grid) with
        | Some (row, col) => Some (spawn_at col row)
        | None => None
        end).
Proof.
  intros Hrect. rewrite find_spawn_fold. apply scan_cells.
  intros [row col] Hin. unfold scan_order in Hin.
  apply in_flat_map in Hin as (r & Hr & Hin).
  apply in_map_iff in Hin as (c & Hpos & Hc).
  injection Hpos as <- <-. apply In_range in Hr, Hc. simpl.
  destruct (rectangular_tile grid _ _ r c Hrect Hr Hc) as [ch ->].
  discriminate.
Qed.

Lemma markers_marked (grid : list string) (row col : Z) :
  In (row, col) (markers grid) ->
  tile grid row col = Some "P"%char /\
  (0 <= row < MAP_HEIGHT)%Z /\ (0 <= col < MAP_WIDTH)%Z.
Proof.
  unfold markers. rewrite filter_In. intros [Hin Hm].
  unfold marked in Hm. cbn [fst snd] in Hm.
  destruct (tile grid row col) as [c|]; [|discriminate].
  apply Ascii.eqb_eq in Hm. subst c. split; [reflexivity|].
  unfold scan_order in Hin.
  apply in_flat_map in Hin as (r & Hr & Hin).
  apply in_map_iff in Hin as (c & Hpos & Hc).
  injection Hpos as <- <-. apply In_range in Hr, Hc. split; assumption.
Qed.

Lemma centre_off_lines (z : Z) : off_lines (1 # 2) (inject_Z z + 0.5).
Proof.
  unfold off_lines.
  assert (E : Qfloor (inject_Z z + 0.5) = z)
    by (apply Qfloor_unique; Lqa.lra).
  rewrite E. split; Lqa.lra.
Qed.

Lemma spawn_at_open (grid : list string) (row col : Z) :
  tile grid row col = Some "P"%char ->
  (0 <= row < MAP_HEIGHT)%Z -> (0 <= col < MAP_WIDTH)%Z ->
  open_cell grid (@spawn_at Q Q_ops col row) = true.
Proof.
  intros Ht Hr Hc. unfold open_cell, spawn_at.
  cbn [x y to_int of_int lit fadd Q_ops].
  rewrite (Q_to_int_centre (inject_Z row + 0.5) row),
          (Q_to_int_centre (inject_Z col + 0.5) col);
    try reflexivity;
    try (unfold MAP_HEIGHT, MAP_WIDTH, INT_MAX in *; lia).
  rewrite Ht. reflexivity.
Qed.

(** X9.  On every enclosed 16 x 16 grid that holds a marker, the program
    starts well: the scan of [main] places the player at the centre of a
    marked cell, which is an open cell, with a camera plane perpendicular
    to the direction; and the first call of [render] has a defined result,
    a frame whose slices are rows of the screen. *)
Theorem first_frame_is_defined (grid : list string) (ray0 : t_ray Q)
    (fuel : nat) :
  rectangular grid MAP_WIDTH MAP_HEIGHT = true ->
  enclosed grid MAP_WIDTH MAP_HEIGHT = true ->
  markers grid <> [] ->
  (Z.to_nat (MAP_WIDTH + MAP_HEIGHT) <= fuel)%nat ->
  exists (row col : Z) (buffers : list t_column),
    @find_spawn Q Q_ops grid = Ok (Some (spawn_at col row)) /\
    tile grid row col = Some "P"%char /\
    open_cell grid (@spawn_at Q Q_ops col row) = true /\
    dot (@spawn_at Q Q_ops col row) == 0 /\
    render grid fuel ray0 (spawn_at col row) = Ok buffers /\
    List.length buffers = Z.to_nat SCREEN_WIDTH /\
    Forall on_screen buffers /\
    render_screen grid fuel ray0 (spawn_at col row)
    = Ok (clear_screen ++ frame_text buffers)%string.
Proof.
  intros Hrect Hencl Hm Hfuel.
  destruct (last_of_In _ Hm) as ([row col] & El & Hin).
  destruct (markers_marked grid row col Hin) as (Ht & Hr & Hc).
  pose proof (spawn_at_open grid row col Ht Hr Hc) as Ho.
  assert (B1 : 0 < 1 # 2) by reflexivity.
  assert (B2 : 1 <= 1) by apply Qle_refl.
  assert (B3 : Qabs (dirX (@spawn_at Q Q_ops col row))
               + Qabs (planeX (@spawn_at Q Q_ops col row)) <= 1)
    by (vm_compute; discriminate).
  assert (B4 : Qabs (dirY (@spawn_at Q Q_ops col row))
               + Qabs (planeY (@spawn_at Q Q_ops col row)) <= 1)
    by (vm_compute; discriminate).
  assert (B5 : inject_Z SCREEN_HEIGHT * 1 / (1 # 2) <= inject_Z INT_MAX)
    by (vm_compute; discriminate).
  destruct (render_buffers grid MAP_WIDTH MAP_HEIGHT (spawn_at col row)
              (1 # 2) 1 fuel Hrect Hencl Ho B1 B2
              (centre_off_lines col) (centre_off_lines row)
              B3 B4 B5 Hfuel ray0)
    as (buffers & E & Len & S).
  exists row, col, buffers.
  rewrite (find_spawn_last grid Hrect), El.
  split; [reflexivity|]. split; [exact Ht|]. split; [exact Ho|].
  split; [vm_compute; reflexivity|].
  split; [exact E|]. split; [exact Len|]. split; [exact S|].
  unfold render_screen. rewrite E. cbn [bind].
  rewrite (print_rows_text buffers) by lia. reflexivity.
Qed.

End FirstFrame.

(** ** A whole session of key presses, under the model of rounding *)

Section Steps.

Context {F : Type} {ops : FloatOps F}.
Local Open Scope float_scope.

(** The two collision tests, for a candidate that falls on the grid: every
    read is defined and the player ends on a cell that is not a wall. *)
Lemma commit_axes_keeps_open (grid : list string) (W H : Z)
    (p : t_player F) (newX newY : F) :
  rectangular grid W H = true ->
  open_cell grid p = true ->
  lands_on_grid W H newX newY = true ->
  exists p',
    commit_axes grid p newX newY = Ok p' /\
    open_cell grid p' = true /\
    dirX p' = dirX p /\ dirY p' = dirY p /\
    planeX p' = planeX p /\ planeY p' = planeY p.
Proof.
  intros Hrect Hopen Hland.
  unfold lands_on_grid in Hland.
  destruct (to_int newY) as [row|] eqn:HY; [|discriminate].
  destruct (to_int newX) as [col'|] eqn:HX'; [|discriminate].
  repeat rewrite andb_true_iff in Hland.
  destruct Hland as [[[Hr0 Hr1] Hc0] Hc1].
  apply Z.leb_le in Hr0, Hc0. apply Z.ltb_lt in Hr1, Hc1.
  unfold open_cell in Hopen.
  destruct (to_int (y p)) as [row0|] eqn:HY0; [|discriminate].
  destruct (to_int (x p)) as [col|] eqn:HX; [|discriminate].
  destruct (tile grid row0 col) as [c0|] eqn:Ht0; [|discriminate].
  destruct (tile_inside grid W H row0 col c0 Hrect Ht0) as [Hrow0 Hcol].
  destruct (rectangular_tile grid W H row col Hrect) as [cY HtY]; [lia..|].
  assert (Hrow' : exists row',
             to_int (if is_wall cY then y p else newY) = Some row'
             /\ (0 <= row' < H)%Z
             /\ (is_wall cY = true -> row' = row0)
             /\ (is_wall cY = false -> row' = row)).
  { destruct (is_wall cY); eexists; (split; [eassumption|]);
      repeat split; intros; try lia; try discriminate. }
  destruct Hrow' as (row' & HY' & Hrow'b & Hwall & Hfree).
  destruct (rectangular_tile grid W H row' col' Hrect) as [cX HtX]; [lia..|].
  rewrite (commit_axes_defined grid p newX newY row col row' col' cY cX)
    by auto using tile_cell.
  eexists. split; [reflexivity|].
  cbn [dirX dirY planeX planeY]. split; [|repeat split; reflexivity].
  unfold open_cell. cbn [x y]. rewrite HY'.
  destruct (is_wall cX) eqn:HwX.
  - rewrite HX.
    destruct (is_wall cY) eqn:HwY.
    + rewrite (Hwall eq_refl), Ht0. assumption.
    + rewrite (Hfree eq_refl), HtY, HwY. reflexivity.
  - rewrite HX', HtX, HwX. reflexivity.
Qed.

(** The keys that have no candidate: the two rotation keys, and the keys
    that do nothing. *)
Lemma candidate_none (grid : list string) (p : t_player F) (key : ascii) :
  candidate p key = None ->
  key = "e"%char \/ key = "q"%char \/
  (Ascii.eqb key "e" || Ascii.eqb key "q" = false
   /\ move_player grid p key = Ok p).
Proof.
  unfold candidate.
  destruct (Ascii.eqb_spec key "w"); [discriminate|].
  destruct (Ascii.eqb_spec key "s"); [discriminate|].
  destruct (Ascii.eqb_spec key "a"); [discriminate|].
  destruct (Ascii.eqb_spec key "d"); [discriminate|].
  intros _.
  destruct (Ascii.eqb_spec key "e"); [left; assumption|].
  destruct (Ascii.eqb_spec key "q"); [right; left; assumption|].
  right; right. split; [reflexivity|].
  apply move_player_other; assumption.
Qed.

Lemma candidate_some (p : t_player F) (key : ascii) (v : F * F) :
  candidate p key = Some v ->
  Ascii.eqb key "e" || Ascii.eqb key "q" = false.
Proof.
  unfold candidate.
  destruct (Ascii.eqb_spec key "w") as [ -> |]; [reflexivity|].
  destruct (Ascii.eqb_spec key "s") as [ -> |]; [reflexivity|].
  destruct (Ascii.eqb_spec key "a") as [ -> |]; [reflexivity|].
  destruct (Ascii.eqb_spec key "d") as [ -> |]; [reflexivity|].
  discriminate.
Qed.

End Steps.

Section Sessions.

Context {F : Type} {ops : FloatOps F}.
Local Open Scope R_scope.

Variable val : F -> R.
Variables u eta kappa M : R.
Variable grid : list string.
Variables W H : Z.

Hypothesis Hu : 0 <= u <= 1 / 8.
Hypothesis Heta : 0 <= eta <= 1 / 16.
Hypothesis Hkappa : 0 <= kappa <= 1.
Hypothesis Hmodel : error_model val u eta M.
Hypothesis Hcast : cast_model val.
Hypothesis Hspeed : 0 <= val moveSpeed <= 1 / 8.
Hypothesis Hleft : unit_circle val kappa rotSpeed.
Hypothesis Hright : unit_circle val kappa (fneg rotSpeed).
Hypothesis Hrect : rectangular grid W H = true.
Hypothesis Hencl : enclosed grid W H = true.
Hypothesis HW : (W <= INT_MAX)%Z /\ IZR W <= M /\ u * IZR W + eta <= 1 / 8.
Hypothesis HH : (H <= INT_MAX)%Z /\ IZR H <= M /\ u * IZR H + eta <= 1 / 8.
Hypothesis HM : 4 <= M.

(** A step of a component not larger than 4, from a cell strictly inside
    [0 .. n - 1], lands in [0 .. n - 1]. *)
Lemma short_step (sub : bool) (a d : F) (z n : Z) :
  to_int a = Some z -> (1 <= z <= n - 2)%Z ->
  (n <= INT_MAX)%Z -> IZR n <= M -> u * IZR n + eta <= 1 / 8 ->
  Rabs (val d) <= 4 ->
  exists z',
    to_int (if sub then fsub a (fmul d moveSpeed)
            else fadd a (fmul d moveSpeed)) = Some z'
    /\ (0 <= z' < n)%Z.
Proof.
  intros Ez Hz Hn HnM Hun Hd.
  destruct Hmodel as (Hmul & Hadd & Hsub).
  destruct Hcast as (C1 & C2).
  destruct (C1 a z Ez ltac:(lia)) as [A0 A1].
  assert (Z1 : 1 <= IZR z) by (apply IZR_le; lia).
  assert (Z2 : IZR z + 2 <= IZR n).
  { rewrite <- (plus_IZR z 2). apply IZR_le. lia. }
  assert (NM : IZR n <= IZR INT_MAX) by (apply IZR_le; exact Hn).
  apply Rabs_le_inv in Hd.
  assert (Rd : Rabs (val d) <= M) by (apply Rabs_le; split; Lra.lra).
  assert (Rm : Rabs (val moveSpeed) <= M)
    by (apply Rabs_le; split; Lra.lra).
  pose proof (Hmul d moveSpeed Rd Rm) as T.
  assert (PB : - (4 * (1 / 8)) <= val d * val moveSpeed <= 4 * (1 / 8)).
  { apply product_bound; [exact Hd | Lra.lra]. }
  assert (AP : Rabs (val d * val moveSpeed) <= 1 / 2)
    by (apply Rabs_le; Lra.lra).
  assert (UP : u * Rabs (val d * val moveSpeed) <= (1 / 8) * (1 / 2)).
  { apply Rmult_le_compat; try Lra.lra. apply Rabs_pos. }
  apply Rabs_le_inv in T.
  set (t := val (fmul d moveSpeed)) in *.
  assert (Tb : - (5 / 8) <= t <= 5 / 8) by (split; Lra.lra).
  assert (Ra : Rabs (val a) <= M) by (apply Rabs_le; split; Lra.lra).
  assert (Rt : Rabs t <= M) by (apply Rabs_le; split; Lra.lra).
  assert (Un : forall v : R, 0 <= v <= IZR n -> u * Rabs v + eta <= 1 / 8).
  { intros v [V0 V1]. rewrite (Rabs_pos_eq v V0).
    assert (u * v <= u * IZR n) by (apply Rmult_le_compat_l; Lra.lra).
    Lra.lra. }
  assert (Land : forall s : R,
             - (3 / 4) <= s - val a <= 3 / 4 ->
             forall b : F, val b = s ->
             exists z', to_int b = Some z' /\ (0 <= z' < n)%Z).
  { intros s Hs b Eb.
    destruct (C2 b) as (z' & Ez' & B0 & B1); [Lra.lra | Lra.lra |].
    exists z'. split; [exact Ez'|]. split.
    - assert (L : -1 < IZR z') by Lra.lra. apply lt_IZR in L. lia.
    - apply lt_IZR. Lra.lra. }
  destruct sub.
  - pose proof (Hsub a (fmul d moveSpeed) Ra Rt) as S. fold t in S.
    pose proof (Un (val a - t) ltac:(split; Lra.lra)) as U1.
    apply Rabs_le_inv in S.
    apply (Land (val (fsub a (fmul d moveSpeed)))); [|reflexivity].
    split; Lra.lra.
  - pose proof (Hadd a (fmul d moveSpeed) Ra Rt) as S. fold t in S.
    pose proof (Un (val a + t) ltac:(split; Lra.lra)) as U1.
    apply Rabs_le_inv in S.
    apply (Land (val (fadd a (fmul d moveSpeed)))); [|reflexivity].
    split; Lra.lra.
Qed.

(** For a player on an open cell whose direction and plane are not longer
    than 4, every candidate of a translation key falls on the grid. *)
Lemma short_step_lands (b : t_drift) (p : t_player F) (key : ascii)
    (newX newY : F) :
  open_cell grid p = true ->
  within_drift val b p ->
  len_dir b <= 4 -> len_plane b <= 4 ->
  candidate p key = Some (newX, newY) ->
  lands_on_grid W H newX newY = true.
Proof.
  intros Hopen (Rd & Rp & Nd & _ & Np & _) Ld Lp Hc.
  destruct (open_cell_interior grid W H p Hrect Hencl Hopen)
    as (row & col & Hy & Hx & Hcol & Hrow).
  destruct HW as (W1 & W2 & W3). destruct HH as (H1 & H2 & H3).
  unfold value_norm2 in Nd, Np.
  assert (S1 : 0 <= val (dirX p) * val (dirX p)) by Lra.nra.
  assert (S2 : 0 <= val (dirY p) * val (dirY p)) by Lra.nra.
  assert (S3 : 0 <= val (planeX p) * val (planeX p)) by Lra.nra.
  assert (S4 : 0 <= val (planeY p) * val (planeY p)) by Lra.nra.
  assert (BdX : Rabs (val (dirX p)) <= 4).
  { apply Rle_trans with (len_dir b); [|exact Ld].
    apply square_bound; Lra.lra. }
  assert (BdY : Rabs (val (dirY p)) <= 4).
  { apply Rle_trans with (len_dir b); [|exact Ld].
    apply square_bound; Lra.lra. }
  assert (BpX : Rabs (val (planeX p)) <= 4).
  { apply Rle_trans with (len_plane b); [|exact Lp].
    apply square_bound; Lra.lra. }
  assert (BpY : Rabs (val (planeY p)) <= 4).
  { apply Rle_trans with (len_plane b); [|exact Lp].
    apply square_bound; Lra.lra. }
  assert (Hland : forall X Y col' row',
             to_int X = Some col' -> (0 <= col' < W)%Z ->
             to_int Y = Some row' -> (0 <= row' < H)%Z ->
             lands_on_grid W H X Y = true).
  { intros X Y col' row' EX HX EY HY. unfold lands_on_grid.
    rewrite EX, EY.
    repeat rewrite andb_true_iff. repeat split;
      first [apply Z.leb_le | apply Z.ltb_lt]; lia. }
  assert (StepX : forall (sub : bool) (d : F),
             Rabs (val d) <= 4 ->
             exists z',
               to_int (if sub then fsub (x p) (fmul d moveSpeed)
                       else fadd (x p) (fmul d moveSpeed)) = Some z'
               /\ (0 <= z' < W)%Z).
  { intros sub d Hd.
    apply (short_step sub (x p) d col W); try assumption. lia. }
  assert (StepY : forall (sub : bool) (d : F),
             Rabs (val d) <= 4 ->
             exists z',
               to_int (if sub then fsub (y p) (fmul d moveSpeed)
                       else fadd (y p) (fmul d moveSpeed)) = Some z'
               /\ (0 <= z' < H)%Z).
  { intros sub d Hd.
    apply (short_step sub (y p) d row H); try assumption. lia. }
  revert Hc. unfold candidate.
  destruct (Ascii.eqb key "w").
  { intros E. injection E as <- <-.
    destruct (StepX false _ BdX) as (c1 & E1 & B1).
    destruct (StepY false _ BdY) as (r1 & E2 & B2).
    eapply Hland; eassumption. }
  destruct (Ascii.eqb key "s").
  { intros E. injection E as <- <-.
    destruct (StepX true _ BdX) as (c1 & E1 & B1).
    destruct (StepY true _ BdY) as (r1 & E2 & B2).
    eapply Hland; eassumption. }
  destruct (Ascii.eqb key "a").
  { intros E. injection E as <- <-.
    destruct (StepX true _ BpX) as (c1 & E1 & B1).
    destruct (StepY true _ BpY) as (r1 & E2 & B2).
    eapply Hland; eassumption. }
  destruct (Ascii.eqb key "d").
  { intros E. injection E as <- <-.
    destruct (StepX false _ BpX) as (c1 & E1 & B1).
    destruct (StepY false _ BpY) as (r1 & E2 & B2).
    eapply Hland; eassumption. }
  discriminate.
Qed.

Lemma move_player_within (b : t_drift) (p : t_player F) (key : ascii) :
  open_cell grid p = true ->
  within_drift val b p ->
  len_dir b <= 4 -> len_plane b <= 4 -> in_range u eta M b ->
  exists p',
    move_player grid p key = Ok p' /\
    open_cell grid p' = true /\
    within_drift val
      (if Ascii.eqb key "e" || Ascii.eqb key "q"
       then drift_step u eta kappa b else b) p'.
Proof.
  intros Hopen Hb Ld Lp Hr.
  assert (Hu0 : 0 <= u) by Lra.lra. assert (Heta0 : 0 <= eta) by Lra.lra.
  destruct (candidate p key) as [[newX newY]|] eqn:Hc.
  - rewrite (move_player_translate grid p key newX newY Hc).
    rewrite (candidate_some p key _ Hc).
    pose proof (short_step_lands b p key newX newY Hopen Hb Ld Lp Hc)
      as Hland.
    destruct (commit_axes_keeps_open grid W H p newX newY Hrect Hopen Hland)
      as (p' & E & Ho & E1 & E2 & E3 & E4).
    exists p'. split; [exact E|]. split; [exact Ho|].
    unfold within_drift, value_norm2, value_dot in *.
    rewrite E1, E2, E3, E4. exact Hb.
  - destruct (candidate_none grid p key Hc) as [ -> | [ -> | [E1 E2] ] ].
    + rewrite move_player_e. eexists. split; [reflexivity|].
      split; [exact Hopen|].
      apply (turn_within val u eta kappa M Hu0 Heta0 Hkappa Hmodel b p
               rotSpeed Hleft Hr Hb).
    + rewrite move_player_q. eexists. split; [reflexivity|].
      split; [exact Hopen|].
      apply (turn_within val u eta kappa M Hu0 Heta0 Hkappa Hmodel b p
               (fneg rotSpeed) Hright Hr Hb).
    + exists p. rewrite E1.
      split; [exact E2|]. split; [exact Hopen | exact Hb].
Qed.

(** X10.  Under the standard model of rounding, on an enclosed grid, a
    player who stands on an open cell stays on open cells whatever keys are
    pressed, as long as the direction and the camera plane are not longer
    than 4 cells: every call of [move_player] of the session returns, reads
    the grid inside its bounds only, and leaves the player on a cell that
    is not a wall, with the direction and the plane within the bounds that
    the rotation keys of the session make of those they started in. *)
Theorem session_stays_on_open_cells (keys : list ascii) :
  forall (b : t_drift) (p : t_player F),
    open_cell grid p = true ->
    within_drift val b p ->
    session_in_range u eta kappa M keys b ->
    exists p',
      move_players grid p keys = Ok p' /\
      open_cell grid p' = true /\
      within_drift val (session_drift u eta kappa keys b) p'.
Proof.
  induction keys as [|key keys IH]; intros b p Hopen Hb Hs.
  - exists p. split; [reflexivity|]. split; [exact Hopen | exact Hb].
  - destruct Hs as ((Ld & Lp & Hr) & Hs).
    destruct (move_player_within b p key Hopen Hb Ld Lp Hr)
      as (p1 & E1 & O1 & W1).
    destruct (IH _ p1 O1 W1 Hs) as (p' & E & O & Wd).
    exists p'. cbn [move_players]. rewrite E1. cbn [bind].
    split; [exact E|]. split; [exact O|]. exact Wd.
Qed.

End Sessions.

(** ** A viewpoint on a grid line, on the rationals *)

Section OnTheLine.

Local Open Scope Q_scope.

Lemma delta_positive (r : Q) : 0 < delta r.
Proof.
  pose proof (Qabs_nonneg r) as A.
  assert (HL : 1 <= 1 + Qabs r) by Lqa.lra.
  assert (Hr : Qabs r <= 1 + Qabs r) by Lqa.lra.
  pose proof (delta_lower r _ HL Hr) as D.
  assert (P : 0 < 1 / (1 + Qabs r)).
  { apply Qlt_shift_div_l; Lqa.lra. }
  Lqa.lra.
Qed.

Lemma render_columns_undefined (grid : list string) (fuel : nat)
    (p : t_player Q) (column : Z) (columns : list Z) :
  (forall ray0, cast_column grid fuel ray0 column p = Undefined) ->
  In column columns ->
  forall (ray0 : t_ray Q) (buffers : list t_column),
    render_columns grid fuel ray0 columns p <> Ok buffers.
Proof.
  intros U. induction columns as [|c columns IH]; intros Hin ray0 buffers;
    [contradiction|].
  cbn [render_columns]. destruct Hin as [ -> | Hin ].
  - rewrite U. discriminate.
  - destruct (cast_column grid fuel ray0 c p) as [r| |]; cbn [bind];
      try discriminate.
    intros E. apply bind_Ok_inv in E as (rest & E & _).
    exact (IH Hin _ _ E).
Qed.

Lemma zero_distance_undefined (grid : list string) (fuel : nat)
    (p : t_player Q) (column : Z) :
  (0 <= column < SCREEN_WIDTH)%Z ->
  (forall ray0, exists ray,
      cast_ray grid fuel ray0 column p = Ok ray /\ perpWallDist ray == 0) ->
  (forall ray0, cast_column grid fuel ray0 column p = Undefined) /\
  (forall ray0 buffers, render grid fuel ray0 p <> Ok buffers).
Proof.
  intros Hc Hz.
  assert (U : forall ray0, cast_column grid fuel ray0 column p = Undefined).
  { intros ray0. destruct (Hz ray0) as (ray & E & Z0).
    unfold cast_column. rewrite E. cbn [bind]. unfold compute_wall_slice.
    cbn [fdiv Q_ops]. rewrite (Q_div_zero _ _ Z0). reflexivity. }
  split; [exact U|].
  intros ray0 buffers. unfold render.
  apply render_columns_undefined with (column := column); [exact U|].
  apply In_range, Hc.
Qed.


End OnTheLine.

(** ** [print_tab] *)

Section Tables.

Local Open Scope string_scope.

(** X13.  [print_tab] prints the strings that come before the first null
    pointer of the array, each followed by an end of line, and reads nothing
    after that pointer; on an array that holds no null pointer, such as
    [map], it runs off the end of the array and has no defined result. *)
Theorem print_tab_needs_null (rows : list string)
    (rest : list (option string)) :
  print_tab (List.map Some rows ++ None :: rest)%list
  = Ok (join (List.map (fun row => c_string row ++ newline) rows)) /\
  print_tab (List.map Some rows) = Undefined /\
  print_tab (List.map Some map) = Undefined.
Proof.
  assert (U : forall l : list string, print_tab (List.map Some l) = Undefined).
  { induction l as [|row l IH]; [reflexivity|].
    cbn [List.map print_tab]. rewrite IH. reflexivity. }
  split; [|split; apply U].
  induction rows as [|row rows IH]; [reflexivity|].
  cbn [List.map app print_tab join]. rewrite IH. cbn [bind].
  now rewrite append_assoc.
Qed.

End Tables.

(** ** Instances on [map] *)

Section Instances.

Local Open Scope Q_scope.

Ltac run := vm_compute; reflexivity.

Ltac exists_result :=
  match goal with
  | |- exists r, ?t = Ok r /\ _ =>
      let v := eval vm_compute in t in
      match v with
      | Ok ?r => exists r
      end
  end.

(** X2: the first ray of the first frame. *)
Lemma first_ray_stops_at_first_wall :
  exists ray' : t_ray Q,
    perform_dda map 32 first_ray = Ok ray' /\
    hit ray' = 1%Z /\
    cell map (mapY ray') (mapX ray') = Ok "1"%char.
Proof.
  exists_result. split; [run|].
  match goal with
  | |- hit ?r = _ /\ _ =>
      destruct (perform_dda_first_wall map 32 first_ray r)
        as (n & a & b & _ & _ & _ & _ & _ & _ & _ & Hh & Hc & _);
      [run | run | split; [exact Hh | exact Hc]]
  end.
Defined.

(** X4: the ray of column 0 from the spawn point, in exact arithmetic. *)
Lemma spawn_ray_distance :
  exists ray : t_ray Q,
    cast_ray map 32 blank_ray 0 spawn = Ok ray /\
    (0 <= Q2R (perpWallDist ray))%R.
Proof.
  exists_result. split; [run|].
  match goal with
  | |- (0 <= Q2R (perpWallDist ?r))%R =>
      apply (cast_ray_distance_not_negative Q2R exact_order_model
               map 32 blank_ray r 0 spawn)
  end.
  - apply Q2R_nonneg. vm_compute. discriminate.
  - apply Q2R_nonneg. vm_compute. discriminate.
  - run.
Defined.

(** X10: forward, a turn to the left and a step to the right from the spawn
    point, in exact arithmetic. *)
Lemma spawn_session :
  exists p' : t_player Q,
    move_players map spawn ["w"; "e"; "d"]%char = Ok p' /\
    open_cell map p' = true.
Proof.
  destruct (session_stays_on_open_cells Q2R 0 0 (1 / 1000000000000) 16
              map MAP_WIDTH MAP_HEIGHT) with
      (keys := ["w"; "e"; "d"]%char)
      (b := mk_drift 1 (66 / 100) ((66 / 100) * (66 / 100)) 0)
      (p := spawn)
    as (p' & E & O & _).
  - Lra.lra.
  - Lra.lra.
  - Lra.lra.
  - exact (exact_error_model 16).
  - exact exact_cast_model.
  - unfold moveSpeed. cbn [lit Q_ops]. unfold Q2R. cbn [Qnum Qden].
    Lra.lra.
  - apply Q_unit_circle; vm_compute; discriminate.
  - apply Q_unit_circle; vm_compute; discriminate.
  - exact map_rectangular.
  - exact map_enclosed.
  - unfold MAP_WIDTH, INT_MAX. split; [lia|]. split; Lra.lra.
  - unfold MAP_HEIGHT, INT_MAX. split; [lia|]. split; Lra.lra.
  - Lra.lra.
  - run.
  - unfold within_drift, value_norm2, value_dot, spawn, spawn_at.
    cbn [len_dir len_plane low_plane max_dot dirX dirY planeX planeY
         of_int lit Q_ops].
    unfold Q2R. cbn [Qnum Qden inject_Z].
    rewrite Rabs_pos_eq by Lra.lra.
    repeat split; Lra.lra.
  - unfold session_in_range, in_range, drift_step, slack.
    cbn [Ascii.eqb Bool.eqb orb len_dir len_plane].
    repeat split; Lra.lra.
  - exists p'. split; [exact E | exact O].
Defined.

(** X6: walls at the distances 1 and 2.5. *)
Lemma slices_at_one_and_two_and_a_half :
  exists s1 s2 : t_column,
    compute_wall_slice (set_perpWallDist blank_ray 1) = Ok s1 /\
    compute_wall_slice (set_perpWallDist blank_ray 2.5) = Ok s2 /\
    (draw_start s1 <= draw_start s2)%Z /\
    (draw_end s2 <= draw_end s1)%Z.
Proof.
  destruct (nearer_wall_taller_slice (set_perpWallDist blank_ray 1)
              (set_perpWallDist blank_ray 2.5))
    as (s1 & s2 & E1 & E2 & A & _ & C & _).
  - run.
  - vm_compute. discriminate.
  - vm_compute. discriminate.
  - exists s1, s2. repeat split; try assumption; lia.
Defined.

(** X7: a frame whose columns all hold the slice of a wall at 2.5. *)
Lemma frame_of_equal_columns :
  print_rows (repeat (mk_column 15 35 RED_2) 90)
  = Ok (frame_text (repeat (mk_column 15 35 RED_2) 90)).
Proof.
  destruct (print_rows_prints_frame (repeat (mk_column 15 35 RED_2) 90))
    as [E _]; [|exact E].
  rewrite repeat_length. vm_compute. lia.
Defined.

(** X8: the column of a wall at 2.5. *)
Lemma column_at_two_and_a_half :
  List.map (fun y => pixel y (mk_column 15 35 RED_2))
    (List.map Z.of_nat (seq 0 (Z.to_nat SCREEN_HEIGHT)))
  = (repeat sky_pixel 15 ++ repeat (wall_pixel RED_2) 21
     ++ repeat floor_pixel 14)%list.
Proof.
  apply (column_is_sky_wall_floor (mk_column 15 35 RED_2));
    cbn [draw_start draw_end]; unfold SCREEN_HEIGHT; lia.
Defined.

(** X9: the scene of the program. *)
Lemma first_frame_on_map :
  exists (row col : Z) (buffers : list t_column),
    @find_spawn Q Q_ops map = Ok (Some (spawn_at col row)) /\
    tile map row col = Some "P"%char /\
    open_cell map (@spawn_at Q Q_ops col row) = true /\
    dot (@spawn_at Q Q_ops col row) == 0 /\
    render map 32 blank_ray (@spawn_at Q Q_ops col row) = Ok buffers /\
    List.length buffers = Z.to_nat SCREEN_WIDTH /\
    Forall on_screen buffers /\
    render_screen map 32 blank_ray (@spawn_at Q Q_ops col row)
    = Ok (clear_screen ++ frame_text buffers)%string.
Proof.
  apply (first_frame_is_defined map blank_ray 32).
  - run.
  - run.
  - vm_compute. discriminate.
  - vm_compute. lia.
Defined.


End Instances.


